(** * AFDO profile bisection

    A shallow embedding of [afdo_tools/bisection/afdo_prof_analysis.py]
    (Python 2) and the properties of its search procedures.

    Profiles are Python dicts from function names to profile text.  The
    dicts live in a store of objects addressed by location, so that
    [dict.copy()] allocates and [d[k] = v] mutates in place; procedures
    are written in a state-and-exception monad over that store, the
    state of the outside world (the [random] module and whatever the
    decider depends on) and the trace of decider invocations. *)

From Stdlib Require Import ZArith DecimalString Sorted.
From stdpp Require Import base gmap list strings.

Set Default Proof Using "Type".

(** ** Verdicts: [class status_enum(IntEnum)] *)

Inductive status_enum : Type :=
  | GOOD_STATUS
  | BAD_STATUS
  | SKIP_STATUS
  | PROBLEM_STATUS.

#[global] Instance status_enum_eq_dec : EqDecision status_enum.
Proof. solve_decision. Defined.

Definition status_value (st : status_enum) : Z :=
  match st with
  | GOOD_STATUS => 0
  | BAD_STATUS => 1
  | SKIP_STATUS => 125
  | PROBLEM_STATUS => 127
  end%Z.

(** [statuses = status_enum.__members__.values()] *)
Definition statuses : list status_enum :=
  [GOOD_STATUS; BAD_STATUS; SKIP_STATUS; PROBLEM_STATUS].

(** [return_code in statuses]: an [IntEnum] member equals its integer. *)
Definition in_statuses (return_code : Z) : bool :=
  existsb (λ st, Z.eqb (status_value st) return_code) statuses.

(** [status_enum(return_code)]: the member with that value, if any. *)
Definition status_enum_of (return_code : Z) : option status_enum :=
  find (λ st, Z.eqb (status_value st) return_code) statuses.

(** [_NUM_RUNS_RANGE_SEARCH = 20] *)
Definition _NUM_RUNS_RANGE_SEARCH : nat := 20.

(** ** Python exceptions and outcomes *)

Inductive exn : Type :=
  | KeyError (key : string)
  | IndexError
  | ValueError (msg : string)
  | RecursionError.

Inductive outcome (A : Type) : Type :=
  | Ok (a : A)
  | Raise (e : exn).
Arguments Ok {A} a.
Arguments Raise {A} e.

(** ** Python lists of names *)

(** [l[a:b]] for non-negative [a], [b]: out-of-range bounds are clamped. *)
Definition slice {A} (l : list A) (a b : nat) : list A :=
  take (b - a) (drop a l).

(** [l.index(x)]: position of the first occurrence. *)
Fixpoint index_of (x : string) (l : list string) : option nat :=
  match l with
  | [] => None
  | y :: l' => if decide (y = x) then Some 0 else S <$> index_of x l'
  end.

(** [sorted(l)] / [l.sort()]: a stable insertion sort stands for Python's
    sort; [leb] is the element comparison. *)
Fixpoint insert_sorted {A} (leb : A → A → bool) (x : A) (l : list A) : list A :=
  match l with
  | [] => [x]
  | y :: l' => if leb x y then x :: y :: l' else y :: insert_sorted leb x l'
  end.

Definition sort_by {A} (leb : A → A → bool) (l : list A) : list A :=
  foldr (insert_sorted leb) [] l.

(** Comparison of [str] objects and of lists of them (lexicographic). *)
Definition str_leb (x y : string) : bool := String.leb x y.

Fixpoint list_leb (l1 l2 : list string) : bool :=
  match l1, l2 with
  | [], _ => true
  | _ :: _, [] => false
  | x :: l1', y :: l2' =>
      if decide (x = y) then list_leb l1' l2' else str_leb x y
  end.

Definition sorted : list string → list string := sort_by str_leb.
Definition sorted_lists : list (list string) → list (list string) :=
  sort_by list_leb.

(** [average = lambda x, y: int(round((x + y) / 2.0))].  On non-negative
    integers the quotient is a whole number or a whole number and a half;
    Python 2's [round] sends a half away from zero. *)
Definition average (x y : nat) : nat := (x + y + 1) / 2.

(** [last_bad_val or dflt], with [last_bad_val] either [None] or an int:
    [None] and [0] are both falsy. *)
Definition py_or (last_bad_val : option nat) (dflt : nat) : nat :=
  match last_bad_val with
  | Some (S n) => S n
  | Some 0 | None => dflt
  end.

(** The result dictionary [{'individuals': [...], 'ranges': [...]}]. *)
Record results : Type := Results {
  individuals : list string;
  ranges : list (list string)
}.

(** ** Candidates on mappings *)

(** The candidate obtained from [g] by giving every name of [funcs] the
    value it has in [b]: the effect of
    [prof = good.copy(); for func in funcs: prof[func] = bad[func]]. *)
Definition splice (g b : gmap string string) (funcs : list string) : gmap string string :=
  foldl (λ p func, match b !! func with Some v => <[func:=v]> p | None => p end)
        g funcs.

(** The common functions, [sorted(func for func in good if func in bad)]. *)
Definition common_of (g b : gmap string string) : list string :=
  sorted (filter (λ func, is_Some (b !! func)) (map_to_list g).*1).

(** A monotone oracle on the candidates between [g] and [b]: once a
    candidate is BAD, giving more functions their bad value keeps it BAD. *)
Definition monotone (oracle : gmap string string → status_enum)
    (g b : gmap string string) (common : list string) : Prop :=
  ∀ funcs1 funcs2, funcs1 ⊆ funcs2 → funcs2 ⊆ common →
    oracle (splice g b funcs1) = BAD_STATUS → oracle (splice g b funcs2) = BAD_STATUS.

(** The monotone oracle as the specification words it: a BAD candidate is
    never flipped back to GOOD by giving more functions their bad value
    (it may become SKIP or PROBLEM). *)
Definition never_back_to_good (oracle : gmap string string → status_enum)
    (g b : gmap string string) (common : list string) : Prop :=
  ∀ funcs1 funcs2, funcs1 ⊆ funcs2 → funcs2 ⊆ common →
    oracle (splice g b funcs1) = BAD_STATUS → oracle (splice g b funcs2) ≠ GOOD_STATUS.

(** ** The probes of a border search

    A border search halves an interval of indices; each probe asks the
    decider about the midpoint of the current interval.  The probes are
    determined by the verdicts received, in order. *)
Record probe : Type := Probe {
  p_lo : nat;
  p_mid : nat;
  p_verdict : status_enum
}.

(** Upper border: after a BAD probe the search continues below the
    midpoint, otherwise above it. *)
Fixpoint upper_probes (lo hi : nat) (verdicts : list status_enum) : list probe :=
  match verdicts with
  | [] => []
  | v :: vs =>
      let mid := average lo hi in
      if decide (mid = lo ∨ mid = hi) then []
      else Probe lo mid v ::
           (if decide (v = BAD_STATUS) then upper_probes lo mid vs
            else upper_probes mid hi vs)
  end.

(** Lower border: after a BAD probe the search continues above the
    midpoint, otherwise below it. *)
Fixpoint lower_probes (lo hi : nat) (verdicts : list status_enum) : list probe :=
  match verdicts with
  | [] => []
  | v :: vs =>
      let mid := average lo hi in
      if decide (mid = lo ∨ mid = hi) then []
      else Probe lo mid v ::
           (if decide (v = BAD_STATUS) then lower_probes mid hi vs
            else lower_probes lo mid vs)
  end.

(** The last probe the decider ruled BAD. *)
Definition last_bad (probes : list probe) : option probe :=
  last (filter (λ p, p_verdict p = BAD_STATUS) probes).

(** What the upper border search returns, by induction on its run: the
    midpoint of the last BAD probe, else [last_bad_val or hi]. *)
Definition upper_result (lo hi : nat) (last_bad_val : option nat)
    (verdicts : list status_enum) : nat :=
  match last_bad (upper_probes lo hi verdicts) with
  | Some p => p_mid p
  | None => py_or last_bad_val hi
  end.

(** What the lower border search returns: [last_bad_val or lo] with the
    values these variables have after the last BAD probe, which passes its
    own [lo] as [last_bad_val] and continues from its midpoint. *)
Definition lower_result (lo hi : nat) (last_bad_val : option nat)
    (verdicts : list status_enum) : nat :=
  match last_bad (lower_probes lo hi verdicts) with
  | Some p => py_or (Some (p_lo p)) (p_mid p)
  | None => py_or last_bad_val lo
  end.

(** The border results as the specification words them: "the last known
    BAD boundary", the midpoint a BAD probe confirmed, "or the original
    [hi] if none was found" and, symmetrically, the original [lo]. *)
Definition claimed_upper (lo hi : nat) (verdicts : list status_enum) : nat :=
  match last_bad (upper_probes lo hi verdicts) with
  | Some p => p_mid p
  | None => hi
  end.

Definition claimed_lower (lo hi : nat) (verdicts : list status_enum) : nat :=
  match last_bad (lower_probes lo hi verdicts) with
  | Some p => p_mid p
  | None => lo
  end.

(** ** The decider built by [generate_decider] *)

(** [json_to_text(json_prof)]: names and bodies in iteration order. *)
Definition json_to_text (json_prof : gmap string string) : string :=
  foldr (λ item text, (item.1 +:+ item.2) +:+ text) EmptyString
        (map_to_list json_prof).

(** ['%d' % n] *)
Definition format_d (n : Z) : string := NilZero.string_of_int (Z.to_int n).

Section Decider.

(** The operating system: files and processes. *)
Variable OS : Type.

(** [FLAGS.external_decider] *)
Variable external_decider : string.

(** [mkstemp()] followed by writing [text] to the new file: the path. *)
Variable write_temp : string → OS → string * OS.

(** [subprocess.call(argv)]: the exit code. *)
Variable subprocess_call : list string → OS → Z * OS.

(** [os.remove(path)] *)
Variable os_remove : string → OS → OS.

(** The closure's counter [_num_runs[0]] and the operating system. *)
Record run_state : Type := RunState {
  _num_runs : nat;
  os : OS
}.

(** [prof_to_tmp(prof)] *)
Definition prof_to_tmp (prof : gmap string string) (o : OS) : string * OS :=
  write_temp (json_to_text prof) o.

(** [run(prof, increment_counter)], the function [generate_decider]
    returns. *)
Definition run (prof : gmap string string) (increment_counter : bool)
    (s : run_state) : outcome status_enum * run_state :=
  let '(filename, o1) := prof_to_tmp prof (os s) in
  let '(return_code, o2) := subprocess_call [external_decider; filename] o1 in
  let o3 := os_remove filename o2 in
  if in_statuses return_code then
    let n := if increment_counter then S (_num_runs s) else _num_runs s in
    match status_enum_of return_code with
    | Some status => (Ok status, RunState n o3)
    | None => (Raise (ValueError "not a valid status_enum"), RunState n o3)
    end
  else
    (Raise (ValueError
              ("Provided external script had unexpected return code "
               +:+ format_d return_code)),
     RunState (_num_runs s) o3).

(** The exit code the external script gives on [prof]. *)
Definition exit_code (prof : gmap string string) (s : run_state) : Z :=
  let '(filename, o1) := prof_to_tmp prof (os s) in
  (subprocess_call [external_decider; filename] o1).1.

End Decider.

(** ** Example profiles and deciders

    The scenarios of the specification and of
    [afdo_prof_analysis_test.py], with deciders that are functions of the
    profile alone and a [random.shuffle] that leaves the list as it is. *)

Definition good_abc : gmap string string :=
  list_to_map [("a", "1"); ("b", "1"); ("c", "1")].
Definition bad_abc : gmap string string :=
  list_to_map [("a", "9"); ("b", "1"); ("c", "1")].
Definition good_ab : gmap string string := list_to_map [("a", "1"); ("b", "1")].
Definition bad_ab : gmap string string := list_to_map [("a", "9"); ("b", "9")].
Definition good_ac : gmap string string := list_to_map [("a", "1"); ("c", "1")].
Definition bad_a : gmap string string := list_to_map [("a", "9")].
Definition good_abcd : gmap string string :=
  list_to_map [("a", "1"); ("b", "1"); ("c", "1"); ("d", "1")].
Definition bad_abcd : gmap string string :=
  list_to_map [("a", "9"); ("b", "9"); ("c", "9"); ("d", "9")].
Definition good_c : gmap string string := list_to_map [("c", "1")].
Definition bad_abc9 : gmap string string :=
  list_to_map [("a", "9"); ("b", "9"); ("c", "9")].
Definition good_ah : gmap string string :=
  list_to_map [("a", "1"); ("b", "1"); ("c", "1"); ("d", "1");
               ("e", "1"); ("f", "1"); ("g", "1"); ("h", "1")].
Definition bad_ah : gmap string string :=
  list_to_map [("a", "9"); ("b", "9"); ("c", "9"); ("d", "9");
               ("e", "9"); ("f", "9"); ("g", "9"); ("h", "9")].

(** BAD iff [a] carries its bad value. *)
Definition oracle_a9 (prof : gmap string string) : status_enum :=
  if decide (prof !! "a" = Some "9") then BAD_STATUS else GOOD_STATUS.

(** BAD iff [a] and [b] both carry their bad values. *)
Definition oracle_a9_b9 (prof : gmap string string) : status_enum :=
  if decide (prof !! "a" = Some "9" ∧ prof !! "b" = Some "9")
  then BAD_STATUS else GOOD_STATUS.

(** GOOD iff the function [c] is present. *)
Definition oracle_needs_c (prof : gmap string string) : status_enum :=
  if decide (is_Some (prof !! "c")) then GOOD_STATUS else BAD_STATUS.

(** The same verdict on every profile. *)
Definition oracle_always (v : status_enum) (prof : gmap string string) : status_enum := v.

(** BAD when [b] carries its bad value, except that the candidate with
    [b] and [c] bad and [a] good cannot be judged: SKIP. *)
Definition oracle_b9_skips (prof : gmap string string) : status_enum :=
  if decide (prof !! "b" = Some "9") then
    if decide (prof !! "c" = Some "9" ∧ prof !! "a" ≠ Some "9")
    then SKIP_STATUS else BAD_STATUS
  else GOOD_STATUS.

(** A decider that computes [oracle] and leaves the world alone. *)
Definition decider_of (oracle : gmap string string → status_enum)
    (prof : gmap string string) (increment_counter : bool) (w : unit)
    : status_enum * unit :=
  (oracle prof, w).

Definition no_shuffle (l : list string) (w : unit) : list string * unit := (l, w).

(** ** The store, the world and the monad *)

Section Bisection.

(** State of everything outside the interpreter's dicts: the state of
    the [random] module and of whatever the decider consults. *)
Variable W : Type.

(** [decider(prof, increment_counter)]: "function which, given a
    JSON-based AFDO profile, returns an element of 'statuses'".  It may
    depend on and change the world; it does not write to the dict. *)
Variable decider : gmap string string → bool → W → status_enum * W.

(** [random.shuffle(l)], returning the new contents of [l]. *)
Variable shuffle : list string → W → list string * W.

(** One invocation of the decider. *)
Record query : Type := Query {
  q_prof : gmap string string;
  q_counted : bool;
  q_verdict : status_enum
}.

Record state : Type := State {
  heap : list (gmap string string);
  world : W;
  trace : list query
}.

Definition M (A : Type) : Type := state → outcome A * state.

Definition ret {A} (a : A) : M A := λ s, (Ok a, s).

Definition bind {A B} (m : M A) (k : A → M B) : M B :=
  λ s, match m s with
       | (Ok a, s') => k a s'
       | (Raise e, s') => (Raise e, s')
       end.

Definition raise {A} (e : exn) : M A := λ s, (Raise e, s).

#[local] Notation "x <- m ;; k" := (bind m (λ x, k))
  (at level 100, m at next level, right associativity, only parsing).
#[local] Notation "m ;;; k" := (bind m (λ _, k))
  (at level 100, right associativity, only parsing).

(** [for x in l: body(x)] *)
Fixpoint for_each {A} (l : list A) (body : A → M unit) : M unit :=
  match l with
  | [] => ret tt
  | x :: l' => body x ;;; for_each l' body
  end.

(** [[x for x in l if test(x)]] *)
Fixpoint filter_m {A} (test : A → M bool) (l : list A) : M (list A) :=
  match l with
  | [] => ret []
  | x :: l' =>
      keep <- test x ;;
      rest <- filter_m test l' ;;
      ret (if keep : bool then x :: rest else rest)
  end.

(** *** Dict objects *)

(** The mapping stored at a location (empty for a location that holds
    no object, which no Python reference can denote). *)
Definition deref (h : list (gmap string string)) (d : nat) : gmap string string :=
  default ∅ (h !! d).

(** [d.copy()]: a new object with the same items. *)
Definition dict_copy (d : nat) : M nat :=
  λ s, (Ok (length (heap s)),
        State (heap s ++ [deref (heap s) d]) (world s) (trace s)).

(** [d[k]] *)
Definition dict_get (d : nat) (k : string) : M string :=
  λ s, match deref (heap s) d !! k with
       | Some v => (Ok v, s)
       | None => (Raise (KeyError k), s)
       end.

(** [d[k] = v] *)
Definition dict_set (d : nat) (k v : string) : M unit :=
  λ s, (Ok tt, State (alter (insert k v) d (heap s)) (world s) (trace s)).

(** [k in d] *)
Definition dict_has (d : nat) (k : string) : M bool :=
  λ s, (Ok (bool_decide (is_Some (deref (heap s) d !! k))), s).

(** The keys met by [for k in d], in the dict's iteration order. *)
Definition dict_keys (d : nat) : M (list string) :=
  λ s, (Ok (map_to_list (deref (heap s) d)).*1, s).

(** [for func in funcs: dst[func] = src[func]] *)
Definition overwrite (dst src : nat) (funcs : list string) : M unit :=
  for_each funcs (λ func, v <- dict_get src func ;; dict_set dst func v).

(** *** Lists *)

(** [l[i]] for [i >= 0] *)
Definition list_get (l : list string) (i : nat) : M string :=
  match l !! i with
  | Some x => ret x
  | None => raise IndexError
  end.

(** [l[-1]] *)
Definition list_get_last (l : list string) : M string :=
  match last l with
  | Some x => ret x
  | None => raise IndexError
  end.

(** [l.index(x)] *)
Definition list_index (l : list string) (x : string) : M nat :=
  match index_of x l with
  | Some i => ret i
  | None => raise (ValueError "x is not in list")
  end.

(** [random.shuffle(l)] *)
Definition random_shuffle (l : list string) : M (list string) :=
  λ s, let '(l', w') := shuffle l (world s) in
       (Ok l', State (heap s) w' (trace s)).

(** *** The decider *)

(** [decider(prof, increment_counter)] on the dict object [prof]. *)
Definition call_decider (prof : nat) (increment_counter : bool) : M status_enum :=
  λ s, let p := deref (heap s) prof in
       let '(v, w') := decider p increment_counter (world s) in
       (Ok v, State (heap s) w' (trace s ++ [Query p increment_counter v])).

(** ** Range search: [range_search] and its two inner functions *)

(** Distance between two indices; bounds the depth of a border search. *)
Definition span (lo hi : nat) : nat := (hi - lo) + (lo - hi).

(** [find_upper_border(good_copy, funcs, lo, hi, last_bad_val)], closed
    over [decider], [good] and [bad].  [depth] bounds the recursion. *)
Fixpoint find_upper_border_rec (depth : nat) (good bad good_copy : nat)
    (funcs : list string) (lo hi : nat) (last_bad_val : option nat) : M nat :=
  let mid := average lo hi in
  if decide (mid = lo ∨ mid = hi) then ret (py_or last_bad_val hi)
  else
    match depth with
    | 0 => raise RecursionError
    | S depth' =>
        overwrite good_copy bad (slice funcs lo mid) ;;;
        verdict <- call_decider good_copy true ;;
        (* reset for next iteration *)
        overwrite good_copy good funcs ;;;
        if decide (verdict = BAD_STATUS)
        then find_upper_border_rec depth' good bad good_copy funcs lo mid (Some mid)
        else find_upper_border_rec depth' good bad good_copy funcs mid hi last_bad_val
    end.

Definition find_upper_border (good bad good_copy : nat) (funcs : list string)
    (lo hi : nat) (last_bad_val : option nat) : M nat :=
  find_upper_border_rec (span lo hi) good bad good_copy funcs lo hi last_bad_val.

(** [find_lower_border(good_copy, funcs, lo, hi, last_bad_val)] *)
Fixpoint find_lower_border_rec (depth : nat) (good bad good_copy : nat)
    (funcs : list string) (lo hi : nat) (last_bad_val : option nat) : M nat :=
  let mid := average lo hi in
  if decide (mid = lo ∨ mid = hi) then ret (py_or last_bad_val lo)
  else
    match depth with
    | 0 => raise RecursionError
    | S depth' =>
        overwrite good_copy good (slice funcs lo mid) ;;;
        verdict <- call_decider good_copy true ;;
        (* reset for next iteration *)
        overwrite good_copy bad funcs ;;;
        if decide (verdict = BAD_STATUS)
        then find_lower_border_rec depth' good bad good_copy funcs mid hi (Some lo)
        else find_lower_border_rec depth' good bad good_copy funcs lo mid last_bad_val
    end.

Definition find_lower_border (good bad good_copy : nat) (funcs : list string)
    (lo hi : nat) (last_bad_val : option nat) : M nat :=
  find_lower_border_rec (span lo hi) good bad good_copy funcs lo hi last_bad_val.

(** The [for _ in range(_NUM_RUNS_RANGE_SEARCH)] loop with [rounds]
    iterations left; [lo], [hi], [lo_mid_funcs], [mid_hi_funcs] and
    [min_range_funcs] are the variables the body rebinds. *)
Fixpoint range_search_rounds (rounds : nat) (good bad : nat)
    (common_funcs : list string) (lo hi : nat)
    (lo_mid_funcs mid_hi_funcs min_range_funcs : list string) : M (list string) :=
  match rounds with
  | 0 => ret (sorted min_range_funcs)
  | S rounds' =>
      pools <-
        (match min_range_funcs with
         | _ :: _ => (* only examine range we've already narrowed to *)
             l <- random_shuffle lo_mid_funcs ;;
             r <- random_shuffle mid_hi_funcs ;;
             ret (l, r)
         | [] => (* consider lo-mid and mid-hi separately *)
             let mid := (lo + hi) / 2 in
             ret (slice common_funcs lo mid, slice common_funcs mid hi)
         end) ;;
      let lo_mid_funcs := pools.1 in
      let mid_hi_funcs := pools.2 in
      let funcs := lo_mid_funcs ++ mid_hi_funcs in
      let hi := length funcs in
      let mid := length lo_mid_funcs in
      let lo := 0 in
      prof <- dict_copy good ;;
      overwrite prof bad lo_mid_funcs ;;;
      upper_border <- find_upper_border good bad prof funcs mid hi None ;;
      overwrite prof bad (lo_mid_funcs ++ slice funcs mid upper_border) ;;;
      lower_border <- find_lower_border good bad prof funcs lo mid None ;;
      let curr_range_funcs := slice funcs lower_border upper_border in
      if decide (min_range_funcs = [] ∨
                 length curr_range_funcs < length min_range_funcs) then
        let min_range_funcs := curr_range_funcs in
        first <- list_get min_range_funcs 0 ;;
        i <- list_index lo_mid_funcs first ;;
        let lo_mid_funcs := drop i lo_mid_funcs in
        final <- list_get_last min_range_funcs ;;
        j <- list_index mid_hi_funcs final ;;
        let mid_hi_funcs := take (j + 1) mid_hi_funcs in
        if decide (length min_range_funcs = 2)
        then ret (sorted min_range_funcs) (* can't get any smaller *)
        else range_search_rounds rounds' good bad common_funcs lo hi
               lo_mid_funcs mid_hi_funcs min_range_funcs
      else range_search_rounds rounds' good bad common_funcs lo hi
             lo_mid_funcs mid_hi_funcs min_range_funcs
  end.

(** [range_search(decider, good, bad, common_funcs, lo, hi)] *)
Definition range_search (good bad : nat) (common_funcs : list string)
    (lo hi : nat) : M (list string) :=
  range_search_rounds _NUM_RUNS_RANGE_SEARCH good bad common_funcs lo hi [] [] [].

(** ** Bisection: [bisect_profiles] and [bisect_profiles_wrapper] *)

(** [results['individuals'].extend(...)] and [results['ranges'].extend(...)] *)
Definition extend_results (res result : results) : results :=
  Results (individuals res ++ individuals result) (ranges res ++ ranges result).

(** [bisect_profiles(decider, good, bad, common_funcs, lo, hi)];
    [depth] bounds the recursion. *)
Fixpoint bisect_profiles_rec (depth : nat) (good bad : nat)
    (common_funcs : list string) (lo hi : nat) : M results :=
  if decide (hi - lo ≤ 1) then
    func <- list_get common_funcs lo ;;
    ret (Results [func] [])
  else
    match depth with
    | 0 => raise RecursionError
    | S depth' =>
        let mid := (lo + hi) / 2 in
        lo_mid_prof <- dict_copy good ;;
        mid_hi_prof <- dict_copy good ;;
        overwrite lo_mid_prof bad (slice common_funcs lo mid) ;;;
        overwrite mid_hi_prof bad (slice common_funcs mid hi) ;;;
        lo_mid_verdict <- call_decider lo_mid_prof true ;;
        mid_hi_verdict <- call_decider mid_hi_prof true ;;
        res1 <-
          (if decide (lo_mid_verdict = BAD_STATUS) then
             result <- bisect_profiles_rec depth' good bad common_funcs lo mid ;;
             ret (extend_results (Results [] []) result)
           else ret (Results [] [])) ;;
        res2 <-
          (if decide (mid_hi_verdict = BAD_STATUS) then
             result <- bisect_profiles_rec depth' good bad common_funcs mid hi ;;
             ret (extend_results res1 result)
           else ret res1) ;;
        (* neither half is bad *)
        if decide (lo_mid_verdict = GOOD_STATUS ∧ mid_hi_verdict = GOOD_STATUS) then
          problem_range <- range_search good bad common_funcs lo hi ;;
          match problem_range with
          | _ :: _ => ret (Results (individuals res2) (ranges res2 ++ [problem_range]))
          | [] => ret res2
          end
        else ret res2
    end.

Definition bisect_profiles (good bad : nat) (common_funcs : list string)
    (lo hi : nat) : M results :=
  bisect_profiles_rec (hi - lo) good bad common_funcs lo hi.

(** The validation at the head of [bisect_profiles_wrapper]. *)
Definition validate (good bad : nat) : M unit :=
  v_good <- call_decider good false ;;
  if decide (v_good ≠ GOOD_STATUS)
  then raise (ValueError "Supplied good profile is not actually GOOD")
  else
    v_bad <- call_decider bad false ;;
    if decide (v_bad ≠ BAD_STATUS)
    then raise (ValueError "Supplied bad profile is not actually BAD")
    else ret tt.

(** [bisect_profiles_wrapper(decider, good, bad, perform_check)] *)
Definition bisect_profiles_wrapper (good bad : nat) (perform_check : bool) : M results :=
  (if perform_check then validate good bad else ret tt) ;;;
  good_keys <- dict_keys good ;;
  in_both <- filter_m (dict_has bad) good_keys ;;
  let common_funcs := sorted in_both in
  match common_funcs with
  | [] => ret (Results [] [])
  | _ :: _ =>
      common_funcs <- random_shuffle common_funcs ;;
      res <- bisect_profiles good bad common_funcs 0 (length common_funcs) ;;
      ret (Results (sorted (individuals res)) (sorted_lists (ranges res)))
  end.

(** ** Boundary checks *)

(** [check_good_not_bad(decider, good, bad)] *)
Definition check_good_not_bad (good bad : nat) : M bool :=
  bad_copy <- dict_copy bad ;;
  good_keys <- dict_keys good ;;
  for_each good_keys (λ func,
    present <- dict_has bad func ;;
    if present then ret tt
    else v <- dict_get good func ;; dict_set bad_copy func v) ;;;
  verdict <- call_decider bad_copy true ;;
  ret (bool_decide (verdict = GOOD_STATUS)).

(** [check_bad_not_good(decider, good, bad)] *)
Definition check_bad_not_good (good bad : nat) : M bool :=
  good_copy <- dict_copy good ;;
  bad_keys <- dict_keys bad ;;
  for_each bad_keys (λ func,
    present <- dict_has good func ;;
    if present then ret tt
    else v <- dict_get bad func ;; dict_set good_copy func v) ;;;
  verdict <- call_decider good_copy true ;;
  ret (bool_decide (verdict = BAD_STATUS)).

(** ** Specification vocabulary *)

(** [Q] holds of the outcome and final state of [m] run from [s]. *)
Definition wp {A} (m : M A) (s : state) (Q : outcome A → state → Prop) : Prop :=
  Q (m s).1 (m s).2.

(** Every object of [s] is unchanged in [s'] (objects may have been
    allocated). *)
Definition stable (s s' : state) : Prop := heap s `prefix_of` heap s'.

(** No object other than [d] differs between [s] and [s'] and none was
    allocated. *)
Definition touched (d : nat) (s s' : state) : Prop :=
  length (heap s') = length (heap s) ∧
  (∀ l, l ≠ d → heap s' !! l = heap s !! l).

(** [random.shuffle] permutes. *)
Definition shuffle_permutes : Prop := ∀ l w, (shuffle l w).1 ≡ₚ l.

(** The decider's verdict is a function of the profile alone. *)
Definition pure_decider (oracle : gmap string string → status_enum) : Prop :=
  ∀ p c w, (decider p c w).1 = oracle p.

(** The verdicts of a stretch of trace. *)
Definition verdicts (t : list query) : list status_enum := q_verdict <$> t.

(** In [s], the dicts [good] and [bad] both define every name of
    [funcs]. *)
Definition covers (s : state) (good bad : nat) (funcs : list string) : Prop :=
  Forall (λ func, is_Some (deref (heap s) good !! func) ∧
                  is_Some (deref (heap s) bad !! func)) funcs.

(** A border search writes to [good_copy] only; its result is the one
    determined by the verdicts it received; and it returns when the
    profiles define every function and the depth suffices. *)
Definition border_post (good bad good_copy : nat) (funcs : list string)
    (lo hi depth : nat) (expected : list status_enum → nat)
    (s : state) (o : outcome nat) (s' : state) : Prop :=
  touched good_copy s s' ∧
  ∃ t, trace s' = trace s ++ t ∧
       (∀ r, o = Ok r → r = expected (verdicts t)) ∧
       (good_copy ≠ good → good_copy ≠ bad → covers s good bad funcs →
        lo ≤ hi → hi - lo ≤ depth → ∃ r, o = Ok r).

(** The pools a round of the range search starts from, before any
    shuffle. *)
Definition start_pools (common_funcs : list string) (lo hi : nat)
    (lo_mid_funcs mid_hi_funcs min_range_funcs : list string)
    : list string * list string :=
  match min_range_funcs with
  | [] => (slice common_funcs lo ((lo + hi) / 2),
           slice common_funcs ((lo + hi) / 2) hi)
  | _ :: _ => (lo_mid_funcs, mid_hi_funcs)
  end.

(** What the loop of the range search guarantees: old objects are kept;
    a returned range has at least two elements; the loop returns when
    the pools are non-empty and defined in both profiles; and without a
    BAD verdict its result is the range it started from. *)
Definition rounds_post (rounds good bad : nat) (common_funcs : list string)
    (lo hi : nat) (lo_mid_funcs mid_hi_funcs min_range_funcs : list string)
    (s : state) (o : outcome (list string)) (s' : state) : Prop :=
  let pools :=
    start_pools common_funcs lo hi lo_mid_funcs mid_hi_funcs min_range_funcs in
  stable s s' ∧
  ∃ t, trace s' = trace s ++ t ∧
    ((min_range_funcs = [] ∨ 2 ≤ length min_range_funcs) →
     ∀ l, o = Ok l → 2 ≤ length l ∨ (min_range_funcs = [] ∧ rounds = 0)) ∧
    (shuffle_permutes → pools.1 ≠ [] → pools.2 ≠ [] →
     covers s good bad (pools.1 ++ pools.2) → ∃ l, o = Ok l) ∧
    (shuffle_permutes →
     match min_range_funcs with
     | [] => 0 < rounds ∧ NoDup pools.2
     | _ :: _ => length min_range_funcs ≤ length (pools.1 ++ pools.2)
     end →
     Forall (λ v, v ≠ BAD_STATUS) (verdicts t) →
     ∀ l, o = Ok l →
       l = sorted (match min_range_funcs with
                   | [] => pools.1 ++ pools.2
                   | _ :: _ => min_range_funcs
                   end)).

(** What [range_search] guarantees. *)
Definition range_search_post (good bad : nat) (common_funcs : list string)
    (lo hi : nat) (s : state) (o : outcome (list string)) (s' : state) : Prop :=
  stable s s' ∧
  ∃ t, trace s' = trace s ++ t ∧
    (∀ l, o = Ok l → 2 ≤ length l) ∧
    (shuffle_permutes → 2 ≤ hi - lo → hi ≤ length common_funcs →
     covers s good bad common_funcs → ∃ l, o = Ok l) ∧
    (shuffle_permutes → lo ≤ hi → NoDup (slice common_funcs lo hi) →
     Forall (λ v, v ≠ BAD_STATUS) (verdicts t) →
     ∀ l, o = Ok l → l = sorted (slice common_funcs lo hi)).

(** The setting of a bisection with a monotone oracle: the decider
    computes [oracle], and [good] and [bad] hold the mappings [g], [b]. *)
Definition oracle_setting (oracle : gmap string string → status_enum)
    (g b : gmap string string) (good bad : nat)
    (common_funcs : list string) (s : state) : Prop :=
  pure_decider oracle ∧
  heap s !! good = Some g ∧ heap s !! bad = Some b ∧
  Forall (λ func, is_Some (b !! func)) common_funcs ∧
  monotone oracle g b common_funcs.

(** What [bisect_profiles] guarantees: old objects are kept; reported
    ranges have at least two elements; the search returns on a valid
    interval; and with a monotone oracle, on an interval that has two
    elements or was ruled BAD, the individuals are the functions ruled
    BAD on their own. *)
Definition bisect_post (good bad : nat) (common_funcs : list string)
    (lo hi depth : nat) (s : state) (o : outcome results) (s' : state) : Prop :=
  stable s s' ∧
  ∃ t, trace s' = trace s ++ t ∧
    (∀ res, o = Ok res → Forall (λ r, 2 ≤ length r) (ranges res)) ∧
    (shuffle_permutes → lo < hi → hi ≤ length common_funcs →
     hi - lo ≤ depth → covers s good bad common_funcs → ∃ res, o = Ok res) ∧
    (∀ oracle g b,
       oracle_setting oracle g b good bad common_funcs s →
       lo < hi → hi ≤ length common_funcs →
       2 ≤ hi - lo ∨ oracle (splice g b (slice common_funcs lo hi)) = BAD_STATUS →
       ∀ res, o = Ok res →
       ∀ func, func ∈ individuals res ↔
               func ∈ slice common_funcs lo hi ∧
               oracle (splice g b [func]) = BAD_STATUS).

(** What [bisect_profiles_wrapper] guarantees once past validation. *)
Definition wrapper_post (good bad : nat)
    (s : state) (o : outcome results) (s' : state) : Prop :=
  stable s s' ∧
  ∃ t, trace s' = trace s ++ t ∧
    (∀ res, o = Ok res → Forall (λ r, 2 ≤ length r) (ranges res)) ∧
    (shuffle_permutes → ∃ res, o = Ok res) ∧
    (∀ oracle g b,
       shuffle_permutes → pure_decider oracle →
       heap s !! good = Some g → heap s !! bad = Some b →
       monotone oracle g b (common_of g b) →
       length (common_of g b) ≠ 1 →
       ∀ res, o = Ok res →
       ∀ func, func ∈ individuals res ↔
               func ∈ common_of g b ∧ oracle (splice g b [func]) = BAD_STATUS) ∧
    (∀ func,
       shuffle_permutes →
       common_of (deref (heap s) good) (deref (heap s) bad) = [func] →
       o = Ok (Results [func] []) ∧ t = []).

(** The validation queries of [bisect_profiles_wrapper]: the verdict on
    the unmodified good profile and the state after that query, then the
    verdict on the unmodified bad profile and the state after it. *)
Definition good_verdict (good : nat) (s : state) : status_enum :=
  (decider (deref (heap s) good) false (world s)).1.

Definition after_good (good : nat) (s : state) : state :=
  State (heap s) (decider (deref (heap s) good) false (world s)).2
    (trace s ++ [Query (deref (heap s) good) false (good_verdict good s)]).

Definition bad_verdict (good bad : nat) (s : state) : status_enum :=
  good_verdict bad (after_good good s).

Definition after_bad (good bad : nat) (s : state) : state :=
  after_good bad (after_good good s).

(** Every value [m] returns satisfies [P], from whatever state. *)
Definition returns {A} (m : M A) (P : A → Prop) : Prop :=
  ∀ s a s', m s = (Ok a, s') → P a.

(** Every decider invocation [m] makes is one with [increment_counter]
    set. *)
Definition counted_only {A} (m : M A) : Prop :=
  ∀ s, ∃ t, trace (m s).2 = trace s ++ t ∧ Forall (λ q, q_counted q = true) t.

(** A range that lies in the two halves [A], [B] of an interval, repeats
    nothing if they do not, and has an element of each. *)
Definition crosses (A B l : list string) : Prop :=
  l ⊆ A ++ B ∧ (NoDup (A ++ B) → NoDup l) ∧
  (∃ x, x ∈ l ∧ x ∈ A) ∧ (∃ y, y ∈ l ∧ y ∈ B).

(** Every function a result names, individuals first. *)
Definition reported (res : results) : list string :=
  individuals res ++ concat (ranges res).

(** A result drawn from [funcs]: the individuals in the order of [funcs],
    the ranges inside it, and no function named twice if [funcs] names
    none twice. *)
Definition within (funcs : list string) (res : results) : Prop :=
  individuals res `sublist_of` funcs ∧
  concat (ranges res) ⊆ funcs ∧
  (NoDup funcs → NoDup (reported res)).

(** The orders [sorted] and [sorted_lists] sort by. *)
Definition str_le (x y : string) : Prop := str_leb x y = true.
Definition list_le (l1 l2 : list string) : Prop := list_leb l1 l2 = true.

(** The query that rules BAD the candidate differing from [g] in the
    functions [funcs] alone. *)
Definition bad_query (g b : gmap string string) (funcs : list string) : query :=
  Query (splice g b funcs) true BAD_STATUS.

(** The step a range was found at: a sub-interval of at least two
    functions whose two half candidates were both ruled GOOD, as [t]
    records. *)
Definition found_at (g b : gmap string string) (common_funcs : list string)
    (lo hi : nat) (t : list query) (r : list string) : Prop :=
  ∃ lo' hi',
    lo ≤ lo' ∧ hi' ≤ hi ∧ 2 ≤ hi' - lo' ∧
    r ⊆ slice common_funcs lo' hi' ∧
    Query (splice g b (slice common_funcs lo' ((lo' + hi') / 2))) true GOOD_STATUS
      ∈ t ∧
    Query (splice g b (slice common_funcs ((lo' + hi') / 2) hi')) true GOOD_STATUS
      ∈ t.

(** How a border search leaves its candidate [good_copy], which held [p]
    at entry: outside [funcs] as it was; untouched if no probe was made;
    and after any probe, on [funcs], equal to [src]. *)
Definition candidate_reset (good_copy : nat) (p src : gmap string string)
    (funcs : list string) (s s' : state) : Prop :=
  ∃ p' t,
    heap s' !! good_copy = Some p' ∧ trace s' = trace s ++ t ∧
    (∀ k, k ∉ funcs → p' !! k = p !! k) ∧
    (t = [] → p' = p) ∧
    (t ≠ [] → ∀ func, func ∈ funcs → p' !! func = src !! func).

(** * Properties *)

(** ** Arithmetic of midpoints *)

Lemma half_bounds (n : nat) : 2 * (n / 2) ≤ n ∧ n < 2 * (n / 2) + 2.
Proof.
  pose proof (Nat.div_mod_eq n 2) as Hdm.
  pose proof (Nat.mod_upper_bound n 2) as Hub. lia.
Qed.

Lemma average_inside (lo hi : nat) :
  ¬ (average lo hi = lo ∨ average lo hi = hi) → lo ≤ hi →
  lo < average lo hi ∧ average lo hi < hi.
Proof.
  unfold average. intros Hne Hle.
  pose proof (half_bounds (lo + hi + 1)). lia.
Qed.

Lemma average_degenerate (lo hi : nat) :
  lo ≤ hi → hi - lo ≤ 1 → average lo hi = lo ∨ average lo hi = hi.
Proof.
  unfold average. intros Hle Hsmall.
  pose proof (half_bounds (lo + hi + 1)). lia.
Qed.

Lemma midpoint_inside (lo hi : nat) :
  2 ≤ hi - lo → lo < (lo + hi) / 2 ∧ (lo + hi) / 2 < hi.
Proof. intros Hbig. pose proof (half_bounds (lo + hi)). lia. Qed.

Lemma py_or_pos (v dflt : nat) : 0 < v → py_or (Some v) dflt = v.
Proof. destruct v; [lia | done]. Qed.

(** ** Slices *)

Lemma slice_app {A} (l : list A) (a m b : nat) :
  a ≤ m → m ≤ b → slice l a m ++ slice l m b = slice l a b.
Proof.
  intros Ham Hmb. unfold slice.
  replace (drop m l) with (drop (m - a) (drop a l))
    by (rewrite drop_drop; f_equal; lia).
  rewrite take_take_drop. f_equal. lia.
Qed.

Lemma slice_length {A} (l : list A) (a b : nat) :
  b ≤ length l → length (slice l a b) = b - a.
Proof. intros Hb. unfold slice. rewrite length_take, length_drop. lia. Qed.

Lemma slice_all {A} (l : list A) : slice l 0 (length l) = l.
Proof. unfold slice. rewrite drop_0, Nat.sub_0_r. by apply take_ge. Qed.

Lemma slice_lookup {A} (l : list A) (a b i : nat) :
  i < b - a → slice l a b !! i = l !! (a + i).
Proof. intros Hi. unfold slice. by rewrite lookup_take_lt, lookup_drop. Qed.

Lemma slice_subseteq {A} (l : list A) (a b : nat) : slice l a b ⊆ l.
Proof.
  intros x Hx. unfold slice in Hx.
  apply elem_of_take in Hx as (i & Hi & _).
  rewrite lookup_drop in Hi. by eapply list_elem_of_lookup_2.
Qed.

Lemma slice_singleton {A} (l : list A) (a : nat) (x : A) :
  l !! a = Some x → slice l a (S a) = [x].
Proof.
  intros Hx. unfold slice. replace (S a - a) with 1 by lia.
  rewrite (drop_S _ _ _ Hx). done.
Qed.

(** ** [list.index] *)

Lemma index_of_Some (x : string) (l : list string) (i : nat) :
  index_of x l = Some i → l !! i = Some x.
Proof.
  revert i. induction l as [|y l IH]; intros i; simpl; [done|].
  case_decide as Hy.
  - intros [= <-]. by subst.
  - destruct (index_of x l) as [j|]; simpl; [|done].
    intros [= <-]. by apply IH.
Qed.

Lemma index_of_first (x : string) (l : list string) (j : nat) :
  l !! j = Some x → ∃ i, index_of x l = Some i ∧ i ≤ j.
Proof.
  revert j. induction l as [|y l IH]; intros j; simpl; [done|].
  case_decide as Hy.
  - intros _. exists 0. split; [done | lia].
  - destruct j as [|j]; simpl.
    + intros [= ->]. done.
    + intros Hj. destruct (IH _ Hj) as (i & -> & Hle).
      exists (S i). split; [done | lia].
Qed.

Lemma index_of_NoDup (x : string) (l : list string) (j : nat) :
  NoDup l → l !! j = Some x → index_of x l = Some j.
Proof.
  intros Hnd Hj. destruct (index_of_first _ _ _ Hj) as (i & Hi & Hle).
  rewrite Hi. f_equal.
  eapply NoDup_lookup; [done | | done]. by apply index_of_Some.
Qed.

(** ** Sorting permutes *)

Lemma insert_sorted_perm {A} (leb : A → A → bool) (x : A) (l : list A) :
  insert_sorted leb x l ≡ₚ x :: l.
Proof.
  induction l as [|y l IH]; simpl; [done|].
  destruct (leb x y); [done|]. rewrite IH. apply Permutation_swap.
Qed.

Lemma sort_by_perm {A} (leb : A → A → bool) (l : list A) : sort_by leb l ≡ₚ l.
Proof.
  induction l as [|x l IH]; simpl; [done|].
  rewrite insert_sorted_perm. by rewrite IH.
Qed.

Lemma sorted_perm (l : list string) : sorted l ≡ₚ l.
Proof. apply sort_by_perm. Qed.

Lemma sorted_length (l : list string) : length (sorted l) = length l.
Proof. by rewrite sorted_perm. Qed.

Lemma sorted_lists_perm (l : list (list string)) : sorted_lists l ≡ₚ l.
Proof. apply sort_by_perm. Qed.

(** ** Rules for running monadic code *)

Lemma wp_ret {A} (a : A) (s : state) (Q : outcome A → state → Prop) :
  Q (Ok a) s → wp (ret a) s Q.
Proof. done. Qed.

Lemma wp_raise {A} (e : exn) (s : state) (Q : outcome A → state → Prop) :
  Q (Raise e) s → wp (raise e) s Q.
Proof. done. Qed.

Lemma wp_bind {A B} (m : M A) (k : A → M B) (s : state)
    (Q : outcome B → state → Prop) :
  wp m s (λ o s', match o with
                  | Ok a => wp (k a) s' Q
                  | Raise e => Q (Raise e) s'
                  end) →
  wp (bind m k) s Q.
Proof. unfold wp, bind. by destruct (m s) as [[a|e] s']. Qed.

Lemma wp_mono {A} (m : M A) (s : state) (Q Q' : outcome A → state → Prop) :
  wp m s Q → (∀ o s', Q o s' → Q' o s') → wp m s Q'.
Proof. unfold wp. auto. Qed.

Lemma wp_run {A} (m : M A) (s : state) (Q : outcome A → state → Prop)
    (o : outcome A) (s' : state) :
  wp m s Q → m s = (o, s') → Q o s'.
Proof. unfold wp. intros HQ Hrun. by rewrite Hrun in HQ. Qed.

Lemma wp_result {A} (m : M A) (s : state) (Q : outcome A → state → Prop) :
  wp m s Q → ∃ o s', m s = (o, s') ∧ Q o s'.
Proof. unfold wp. intros HQ. exists (m s).1, (m s).2. by destruct (m s). Qed.

(** ** Frames *)

Lemma stable_refl (s : state) : stable s s.
Proof. exists []. by rewrite app_nil_r. Qed.

Lemma stable_trans (s1 s2 s3 : state) : stable s1 s2 → stable s2 s3 → stable s1 s3.
Proof. unfold stable. by etrans. Qed.

Lemma stable_lookup (s s' : state) (d : nat) (p : gmap string string) :
  stable s s' → heap s !! d = Some p → heap s' !! d = Some p.
Proof. intros Hst Hd. by eapply prefix_lookup_Some. Qed.

Lemma touched_refl (d : nat) (s : state) : touched d s s.
Proof. done. Qed.

Lemma touched_trans (d : nat) (s1 s2 s3 : state) :
  touched d s1 s2 → touched d s2 s3 → touched d s1 s3.
Proof.
  intros [Hl1 Ho1] [Hl2 Ho2]. split; [congruence|].
  intros l Hl. rewrite Ho2, Ho1; done.
Qed.

(** Writes to objects allocated after [s0] keep every object of [s0]. *)
Lemma touched_new_stable (d : nat) (s0 s s' : state) :
  stable s0 s → length (heap s0) ≤ d → touched d s s' → stable s0 s'.
Proof.
  intros [ext Hext] Hlen [Hl Ho].
  exists (drop (length (heap s0)) (heap s')).
  apply list_eq. intros i.
  destruct (decide (i < length (heap s0))) as [Hi|Hi].
  - rewrite lookup_app_l by done.
    rewrite Ho by lia. rewrite Hext. by rewrite lookup_app_l.
  - rewrite lookup_app_r by lia. rewrite lookup_drop. f_equal. lia.
Qed.

Lemma touched_lookup (d l : nat) (s s' : state) :
  touched d s s' → l ≠ d → deref (heap s') l = deref (heap s) l.
Proof. intros [_ Ho] Hne. unfold deref. by rewrite Ho. Qed.

Lemma deref_Some (h : list (gmap string string)) (d : nat) (p : gmap string string) :
  h !! d = Some p → deref h d = p.
Proof. unfold deref. by intros ->. Qed.

(** ** Primitive steps *)

Lemma wp_call_decider (prof : nat) (c : bool) (s : state)
    (Q : outcome status_enum → state → Prop) :
  (∀ v w', decider (deref (heap s) prof) c (world s) = (v, w') →
     Q (Ok v) (State (heap s) w'
                 (trace s ++ [Query (deref (heap s) prof) c v]))) →
  wp (call_decider prof c) s Q.
Proof.
  intros HQ. unfold wp, call_decider.
  destruct (decider _ _ _) as [v w'] eqn:Hd. simpl. by apply HQ.
Qed.

Lemma wp_random_shuffle (l : list string) (s : state)
    (Q : outcome (list string) → state → Prop) :
  (∀ l' w', shuffle l (world s) = (l', w') →
     Q (Ok l') (State (heap s) w' (trace s))) →
  wp (random_shuffle l) s Q.
Proof.
  intros HQ. unfold wp, random_shuffle.
  destruct (shuffle _ _) as [l' w'] eqn:Hd. simpl. by apply HQ.
Qed.

(** ** The copying loop *)

Lemma dict_set_touched (d : nat) (k v : string) (s : state) :
  touched d s (dict_set d k v s).2.
Proof.
  split; simpl.
  - apply length_alter.
  - intros l Hl. by apply list_lookup_alter_ne.
Qed.

(** [overwrite] writes to [dst] only, asks the decider nothing, and
    succeeds when the source defines every name. *)
Lemma overwrite_spec (dst src : nat) (funcs : list string) (s : state) :
  wp (overwrite dst src funcs) s (λ o s',
    touched dst s s' ∧ trace s' = trace s ∧ world s' = world s ∧
    (dst ≠ src → Forall (λ func, is_Some (deref (heap s) src !! func)) funcs →
     o = Ok tt)).
Proof.
  revert s. induction funcs as [|func funcs IH]; intros s.
  - apply wp_ret. split_and!; [apply touched_refl | done..].
  - unfold overwrite. simpl. apply wp_bind, wp_bind.
    unfold wp at 1, dict_get.
    destruct (deref (heap s) src !! func) as [v|] eqn:Hv; simpl.
    + unfold wp at 1. simpl.
      eapply wp_mono; [apply IH|]. simpl.
      intros o s' (Ht & Htr & Hw & Hok). split_and!; [|done..|].
      { eapply touched_trans; [apply (dict_set_touched dst func v s) | done]. }
      intros Hne Hall. apply Hok; [done|].
      apply Forall_cons in Hall as [_ Hall].
      eapply Forall_impl; [exact Hall|]. intros f Hf. simpl.
      unfold deref. by rewrite list_lookup_alter_ne.
    + split_and!; [apply touched_refl | done..|].
      intros _ Hall. apply Forall_cons in Hall as [[? Hs] _]. congruence.
Qed.

(** The same loop as an equation, when source and destination are
    distinct objects and the source defines every name. *)
Lemma overwrite_run (dst src : nat) (funcs : list string) (s : state)
    (p sp : gmap string string) :
  dst ≠ src → heap s !! dst = Some p → heap s !! src = Some sp →
  Forall (λ func, is_Some (sp !! func)) funcs →
  overwrite dst src funcs s =
    (Ok tt, State (<[dst := splice p sp funcs]> (heap s)) (world s) (trace s)).
Proof.
  intros Hne. revert s p. induction funcs as [|func funcs IH]; intros s p Hd Hs Hall.
  - simpl. unfold ret. rewrite list_insert_id by done. by destruct s.
  - apply Forall_cons in Hall as [[v Hv] Hall].
    unfold overwrite in *. simpl. unfold bind at 1 2, dict_get.
    rewrite (deref_Some _ _ _ Hs), Hv. simpl.
    rewrite (IH _ (<[func:=v]> p)); simpl.
    + f_equal. f_equal.
      * apply list_eq. intros i. destruct (decide (i = dst)) as [->|Hi].
        -- rewrite !list_lookup_insert_eq; [done|..].
           ++ by eapply lookup_lt_Some.
           ++ rewrite length_alter. by eapply lookup_lt_Some.
        -- rewrite !list_lookup_insert_ne by done.
           by rewrite list_lookup_alter_ne.
    + by rewrite list_lookup_alter_eq, Hd.
    + by rewrite list_lookup_alter_ne.
    + done.
Qed.

(** ** Coverage *)

Lemma covers_touched (d good bad : nat) (funcs : list string) (s s' : state) :
  touched d s s' → d ≠ good → d ≠ bad →
  covers s good bad funcs → covers s' good bad funcs.
Proof.
  intros Ht Hg Hb. unfold covers.
  by rewrite !(touched_lookup d _ s s' Ht) by done.
Qed.

Lemma deref_is_Some (h : list (gmap string string)) (d : nat) (k : string) :
  is_Some (deref h d !! k) → ∃ p, h !! d = Some p.
Proof.
  unfold deref. destruct (h !! d) as [p|]; [by eexists|].
  simpl. rewrite lookup_empty. by intros [? ?].
Qed.

Lemma covers_stable (good bad : nat) (funcs : list string) (s s' : state) :
  stable s s' → covers s good bad funcs → covers s' good bad funcs.
Proof.
  intros Hst Hc. eapply Forall_impl; [exact Hc|]. simpl. intros func [Hg Hb].
  destruct (deref_is_Some _ _ _ Hg) as [pg Hpg].
  destruct (deref_is_Some _ _ _ Hb) as [pb Hpb].
  rewrite (deref_Some _ _ _ Hpg) in Hg. rewrite (deref_Some _ _ _ Hpb) in Hb.
  by rewrite (deref_Some _ _ _ (stable_lookup _ _ _ _ Hst Hpg)),
             (deref_Some _ _ _ (stable_lookup _ _ _ _ Hst Hpb)).
Qed.

Lemma covers_subseteq (good bad : nat) (funcs funcs' : list string) (s : state) :
  funcs' ⊆ funcs → covers s good bad funcs → covers s good bad funcs'.
Proof.
  unfold covers. rewrite !Forall_forall. intros Hsub Hall func Hin.
  apply Hall, Hsub, Hin.
Qed.

Lemma covers_good (good bad : nat) (funcs : list string) (s : state) :
  covers s good bad funcs →
  Forall (λ func, is_Some (deref (heap s) good !! func)) funcs.
Proof. intros Hc. eapply Forall_impl; [exact Hc|]. by intros func [? ?]. Qed.

Lemma covers_bad (good bad : nat) (funcs : list string) (s : state) :
  covers s good bad funcs →
  Forall (λ func, is_Some (deref (heap s) bad !! func)) funcs.
Proof. intros Hc. eapply Forall_impl; [exact Hc|]. by intros func [? ?]. Qed.

(** ** Probes *)

Lemma last_bad_cons (p : probe) (ps : list probe) :
  last_bad (p :: ps) =
    match last_bad ps with
    | Some q => Some q
    | None => if decide (p_verdict p = BAD_STATUS) then Some p else None
    end.
Proof.
  unfold last_bad. rewrite filter_cons. case_decide.
  - rewrite last_cons. by destruct (last _).
  - by destruct (last _).
Qed.

Lemma upper_result_degenerate (lo hi : nat) (lbv : option nat) (vs : list status_enum) :
  average lo hi = lo ∨ average lo hi = hi → upper_result lo hi lbv vs = py_or lbv hi.
Proof.
  intros Hdeg. unfold upper_result. destruct vs as [|v vs]; [done|].
  simpl. by rewrite decide_True.
Qed.

Lemma upper_result_bad (lo hi : nat) (lbv : option nat) (vs : list status_enum) :
  ¬ (average lo hi = lo ∨ average lo hi = hi) →
  upper_result lo hi lbv (BAD_STATUS :: vs) =
    upper_result lo (average lo hi) (Some (average lo hi)) vs.
Proof.
  intros Hdeg. unfold upper_result. simpl.
  rewrite decide_False by done. rewrite last_bad_cons. simpl.
  destruct (last_bad _); [done|].
  by destruct (average lo hi).
Qed.

Lemma upper_result_not_bad (lo hi : nat) (lbv : option nat)
    (v : status_enum) (vs : list status_enum) :
  ¬ (average lo hi = lo ∨ average lo hi = hi) → v ≠ BAD_STATUS →
  upper_result lo hi lbv (v :: vs) = upper_result (average lo hi) hi lbv vs.
Proof.
  intros Hdeg Hv. unfold upper_result. simpl.
  rewrite decide_False by done. rewrite last_bad_cons. simpl.
  rewrite !(decide_False (P := v = BAD_STATUS)) by done.
  by destruct (last_bad _).
Qed.

Lemma lower_result_degenerate (lo hi : nat) (lbv : option nat) (vs : list status_enum) :
  average lo hi = lo ∨ average lo hi = hi → lower_result lo hi lbv vs = py_or lbv lo.
Proof.
  intros Hdeg. unfold lower_result. destruct vs as [|v vs]; [done|].
  simpl. by rewrite decide_True.
Qed.

Lemma lower_result_bad (lo hi : nat) (lbv : option nat) (vs : list status_enum) :
  ¬ (average lo hi = lo ∨ average lo hi = hi) →
  lower_result lo hi lbv (BAD_STATUS :: vs) =
    lower_result (average lo hi) hi (Some lo) vs.
Proof.
  intros Hdeg. unfold lower_result. simpl.
  rewrite decide_False by done. rewrite last_bad_cons. simpl.
  by destruct (last_bad _).
Qed.

Lemma lower_result_not_bad (lo hi : nat) (lbv : option nat)
    (v : status_enum) (vs : list status_enum) :
  ¬ (average lo hi = lo ∨ average lo hi = hi) → v ≠ BAD_STATUS →
  lower_result lo hi lbv (v :: vs) = lower_result lo (average lo hi) lbv vs.
Proof.
  intros Hdeg Hv. unfold lower_result. simpl.
  rewrite decide_False by done. rewrite last_bad_cons. simpl.
  rewrite !(decide_False (P := v = BAD_STATUS)) by done.
  by destruct (last_bad _).
Qed.

(** ** The border searches *)

Lemma find_upper_border_rec_spec (depth good bad good_copy : nat)
    (funcs : list string) (lo hi : nat) (lbv : option nat) (s : state) :
  wp (find_upper_border_rec depth good bad good_copy funcs lo hi lbv) s
     (border_post good bad good_copy funcs lo hi depth
        (upper_result lo hi lbv) s).
Proof.
  revert lo hi lbv s.
  induction depth as [|depth IH]; intros lo hi lbv s; simpl;
    (case_decide as Hdeg;
     [ apply wp_ret; split; [apply touched_refl|];
       exists []; rewrite app_nil_r; split_and!; [done| |by eauto];
       intros r [= <-]; by rewrite upper_result_degenerate | ]).
  - apply wp_raise. split; [apply touched_refl|].
    exists []. rewrite app_nil_r. split_and!; [done..|].
    intros _ _ _ Hle Hd. destruct Hdeg. apply average_degenerate; lia.
  - apply wp_bind. eapply wp_mono; [apply overwrite_spec|]. simpl.
    intros o1 s1 (Ht1 & Htr1 & Hw1 & Hok1).
    assert (good_copy ≠ good → good_copy ≠ bad → covers s good bad funcs →
            o1 = Ok tt) as Hok1'.
    { intros Hg Hb Hc. apply Hok1; [done|].
      apply (covers_bad good). eapply covers_subseteq; [apply slice_subseteq | done]. }
    destruct o1 as [[]|e1].
    2:{ split; [done|]. exists []. rewrite app_nil_r. split_and!; [done..|].
        intros Hg Hb Hc _ _. by specialize (Hok1' Hg Hb Hc). }
    apply wp_bind, wp_call_decider. intros v w' Hdec.
    set (q := Query (deref (heap s1) good_copy) true v).
    set (s2 := State (heap s1) w' (trace s1 ++ [q])).
    assert (touched good_copy s s2) as Ht2 by done.
    apply wp_bind. eapply wp_mono; [apply overwrite_spec|]. simpl.
    intros o3 s3 (Ht3 & Htr3 & Hw3 & Hok3).
    assert (touched good_copy s s3) as Ht3' by (by eapply touched_trans).
    assert (good_copy ≠ good → good_copy ≠ bad → covers s good bad funcs →
            o3 = Ok tt) as Hok3'.
    { intros Hg Hb Hc. apply Hok3; [done|].
      apply (covers_good _ bad). eapply covers_touched; [exact Ht2|done..]. }
    destruct o3 as [[]|e3].
    2:{ split; [done|]. exists [q]. rewrite Htr3. simpl. rewrite Htr1.
        split_and!; [done..|].
        intros Hg Hb Hc _ _. by specialize (Hok3' Hg Hb Hc). }
    pose proof (average_inside lo hi Hdeg) as Hin.
    case_decide as Hv.
    + eapply wp_mono; [apply IH|].
      intros o s' (Ht & t & Htr & Hres & Htot).
      split; [by eapply touched_trans|].
      exists (q :: t). rewrite Htr, Htr3. simpl. rewrite Htr1, <- app_assoc.
      split_and!; [done| |].
      * intros r Hr. rewrite (Hres r Hr). subst v. simpl.
        by rewrite upper_result_bad.
      * intros Hg Hb Hc Hle Hd. apply Htot; [done..| | |].
        -- eapply covers_touched; [exact Ht3'|done..].
        -- specialize (Hin Hle). lia.
        -- specialize (Hin Hle). lia.
    + eapply wp_mono; [apply IH|].
      intros o s' (Ht & t & Htr & Hres & Htot).
      split; [by eapply touched_trans|].
      exists (q :: t). rewrite Htr, Htr3. simpl. rewrite Htr1, <- app_assoc.
      split_and!; [done| |].
      * intros r Hr. rewrite (Hres r Hr). simpl.
        by rewrite upper_result_not_bad.
      * intros Hg Hb Hc Hle Hd. apply Htot; [done..| | |].
        -- eapply covers_touched; [exact Ht3'|done..].
        -- specialize (Hin Hle). lia.
        -- specialize (Hin Hle). lia.
Qed.

Lemma find_lower_border_rec_spec (depth good bad good_copy : nat)
    (funcs : list string) (lo hi : nat) (lbv : option nat) (s : state) :
  wp (find_lower_border_rec depth good bad good_copy funcs lo hi lbv) s
     (border_post good bad good_copy funcs lo hi depth
        (lower_result lo hi lbv) s).
Proof.
  revert lo hi lbv s.
  induction depth as [|depth IH]; intros lo hi lbv s; simpl;
    (case_decide as Hdeg;
     [ apply wp_ret; split; [apply touched_refl|];
       exists []; rewrite app_nil_r; split_and!; [done| |by eauto];
       intros r [= <-]; by rewrite lower_result_degenerate | ]).
  - apply wp_raise. split; [apply touched_refl|].
    exists []. rewrite app_nil_r. split_and!; [done..|].
    intros _ _ _ Hle Hd. destruct Hdeg. apply average_degenerate; lia.
  - apply wp_bind. eapply wp_mono; [apply overwrite_spec|]. simpl.
    intros o1 s1 (Ht1 & Htr1 & Hw1 & Hok1).
    assert (good_copy ≠ good → good_copy ≠ bad → covers s good bad funcs →
            o1 = Ok tt) as Hok1'.
    { intros Hg Hb Hc. apply Hok1; [done|].
      apply (covers_good _ bad). eapply covers_subseteq; [apply slice_subseteq | done]. }
    destruct o1 as [[]|e1].
    2:{ split; [done|]. exists []. rewrite app_nil_r. split_and!; [done..|].
        intros Hg Hb Hc _ _. by specialize (Hok1' Hg Hb Hc). }
    apply wp_bind, wp_call_decider. intros v w' Hdec.
    set (q := Query (deref (heap s1) good_copy) true v).
    set (s2 := State (heap s1) w' (trace s1 ++ [q])).
    assert (touched good_copy s s2) as Ht2 by done.
    apply wp_bind. eapply wp_mono; [apply overwrite_spec|]. simpl.
    intros o3 s3 (Ht3 & Htr3 & Hw3 & Hok3).
    assert (touched good_copy s s3) as Ht3' by (by eapply touched_trans).
    assert (good_copy ≠ good → good_copy ≠ bad → covers s good bad funcs →
            o3 = Ok tt) as Hok3'.
    { intros Hg Hb Hc. apply Hok3; [done|].
      apply (covers_bad good). eapply covers_touched; [exact Ht2|done..]. }
    destruct o3 as [[]|e3].
    2:{ split; [done|]. exists [q]. rewrite Htr3. simpl. rewrite Htr1.
        split_and!; [done..|].
        intros Hg Hb Hc _ _. by specialize (Hok3' Hg Hb Hc). }
    pose proof (average_inside lo hi Hdeg) as Hin.
    case_decide as Hv.
    + eapply wp_mono; [apply IH|].
      intros o s' (Ht & t & Htr & Hres & Htot).
      split; [by eapply touched_trans|].
      exists (q :: t). rewrite Htr, Htr3. simpl. rewrite Htr1, <- app_assoc.
      split_and!; [done| |].
      * intros r Hr. rewrite (Hres r Hr). subst v. simpl.
        by rewrite lower_result_bad.
      * intros Hg Hb Hc Hle Hd. apply Htot; [done..| | |].
        -- eapply covers_touched; [exact Ht3'|done..].
        -- specialize (Hin Hle). lia.
        -- specialize (Hin Hle). lia.
    + eapply wp_mono; [apply IH|].
      intros o s' (Ht & t & Htr & Hres & Htot).
      split; [by eapply touched_trans|].
      exists (q :: t). rewrite Htr, Htr3. simpl. rewrite Htr1, <- app_assoc.
      split_and!; [done| |].
      * intros r Hr. rewrite (Hres r Hr). simpl.
        by rewrite lower_result_not_bad.
      * intros Hg Hb Hc Hle Hd. apply Htot; [done..| | |].
        -- eapply covers_touched; [exact Ht3'|done..].
        -- specialize (Hin Hle). lia.
        -- specialize (Hin Hle). lia.
Qed.

Lemma upper_result_no_bad (lo hi : nat) (lbv : option nat) (vs : list status_enum) :
  Forall (λ v, v ≠ BAD_STATUS) vs → upper_result lo hi lbv vs = py_or lbv hi.
Proof.
  intros Hvs. revert lo. induction Hvs as [|v vs Hv Hvs IH]; intros lo; [done|].
  destruct (decide (average lo hi = lo ∨ average lo hi = hi)) as [Hdeg|Hdeg].
  - by apply upper_result_degenerate.
  - rewrite upper_result_not_bad by done. apply IH.
Qed.

Lemma lower_result_no_bad (lo hi : nat) (lbv : option nat) (vs : list status_enum) :
  Forall (λ v, v ≠ BAD_STATUS) vs → lower_result lo hi lbv vs = py_or lbv lo.
Proof.
  intros Hvs. revert hi. induction Hvs as [|v vs Hv Hvs IH]; intros hi; [done|].
  destruct (decide (average lo hi = lo ∨ average lo hi = hi)) as [Hdeg|Hdeg].
  - by apply lower_result_degenerate.
  - rewrite lower_result_not_bad by done. apply IH.
Qed.

(** The upper border lies strictly inside the interval unless it is the
    default. *)
Lemma upper_result_bounds (lo hi : nat) (lbv : option nat) (vs : list status_enum) :
  lo ≤ hi →
  upper_result lo hi lbv vs = py_or lbv hi ∨
  (lo < upper_result lo hi lbv vs ∧ upper_result lo hi lbv vs < hi).
Proof.
  revert lo hi lbv. induction vs as [|v vs IH]; intros lo hi lbv Hle; [by left|].
  destruct (decide (average lo hi = lo ∨ average lo hi = hi)) as [Hdeg|Hdeg].
  { left. by apply upper_result_degenerate. }
  pose proof (average_inside lo hi Hdeg Hle) as [Hlo Hhi].
  destruct (decide (v = BAD_STATUS)) as [->|Hv].
  - rewrite upper_result_bad by done. right.
    destruct (IH lo (average lo hi) (Some (average lo hi))) as [->|[? ?]];
      [lia| |lia].
    rewrite py_or_pos by lia. lia.
  - rewrite upper_result_not_bad by done.
    destruct (IH (average lo hi) hi lbv) as [->|[? ?]]; [lia|by left|right; lia].
Qed.

(** The lower border lies inside the interval unless it is the default. *)
Lemma lower_result_bounds (lo hi : nat) (lbv : option nat) (vs : list status_enum) :
  lo ≤ hi →
  lower_result lo hi lbv vs = py_or lbv lo ∨
  (lo ≤ lower_result lo hi lbv vs ∧ lower_result lo hi lbv vs < hi).
Proof.
  revert lo hi lbv. induction vs as [|v vs IH]; intros lo hi lbv Hle; [by left|].
  destruct (decide (average lo hi = lo ∨ average lo hi = hi)) as [Hdeg|Hdeg].
  { left. by apply lower_result_degenerate. }
  pose proof (average_inside lo hi Hdeg Hle) as [Hlo Hhi].
  destruct (decide (v = BAD_STATUS)) as [->|Hv].
  - rewrite lower_result_bad by done. right.
    destruct (IH (average lo hi) hi (Some lo)) as [->|[? ?]]; [lia| |lia].
    destruct lo; simpl; lia.
  - rewrite lower_result_not_bad by done.
    destruct (IH lo (average lo hi) lbv) as [->|[? ?]]; [lia|by left|right; lia].
Qed.

Lemma find_upper_border_spec (good bad good_copy : nat)
    (funcs : list string) (lo hi : nat) (lbv : option nat) (s : state) :
  wp (find_upper_border good bad good_copy funcs lo hi lbv) s
     (border_post good bad good_copy funcs lo hi (hi - lo)
        (upper_result lo hi lbv) s).
Proof.
  eapply wp_mono; [apply find_upper_border_rec_spec|].
  intros o s' (Ht & t & Htr & Hres & Htot). split; [done|].
  exists t. split_and!; [done..|].
  intros Hg Hb Hc Hle _. apply Htot; [done..|]. unfold span. lia.
Qed.

Lemma find_lower_border_spec (good bad good_copy : nat)
    (funcs : list string) (lo hi : nat) (lbv : option nat) (s : state) :
  wp (find_lower_border good bad good_copy funcs lo hi lbv) s
     (border_post good bad good_copy funcs lo hi (hi - lo)
        (lower_result lo hi lbv) s).
Proof.
  eapply wp_mono; [apply find_lower_border_rec_spec|].
  intros o s' (Ht & t & Htr & Hres & Htot). split; [done|].
  exists t. split_and!; [done..|].
  intros Hg Hb Hc Hle _. apply Htot; [done..|]. unfold span. lia.
Qed.

(** ** One round of the range search *)

(** The part of a round that finds the two borders, followed by any
    continuation [k]: it allocates one profile and writes to it only;
    the borders it hands to [k] straddle the boundary between the pools;
    and it raises only if the profiles do not define every function. *)
Lemma wp_round_borders {A} (good bad : nat) (L R : list string)
    (k : nat → nat → M A) (s : state) (Q : outcome A → state → Prop) :
  (∀ u lw s' t,
     stable s s' → trace s' = trace s ++ t →
     (L ≠ [] → lw < length L) →
     (R ≠ [] → length L < u ∧ u ≤ length (L ++ R)) →
     (Forall (λ v, v ≠ BAD_STATUS) (verdicts t) → u = length (L ++ R) ∧ lw = 0) →
     wp (k u lw) s' Q) →
  (∀ e s' t,
     stable s s' → trace s' = trace s ++ t →
     ¬ (covers s good bad (L ++ R) ∧
        good < length (heap s) ∧ bad < length (heap s)) →
     Q (Raise e) s') →
  wp (bind (dict_copy good) (λ prof,
      bind (overwrite prof bad L) (λ _,
      bind (find_upper_border good bad prof (L ++ R)
              (length L) (length (L ++ R)) None) (λ upper_border,
      bind (overwrite prof bad
              (L ++ slice (L ++ R) (length L) upper_border)) (λ _,
      bind (find_lower_border good bad prof (L ++ R) 0 (length L) None)
           (λ lower_border, k upper_border lower_border)))))) s Q.
Proof.
  intros HOk HRaise.
  apply wp_bind. unfold wp at 1. simpl.
  set (prof := length (heap s)).
  set (s1 := State (heap s ++ [deref (heap s) good]) (world s) (trace s)).
  assert (stable s s1) as Hst1 by (by eexists).
  assert (∀ s', touched prof s1 s' → stable s s') as Hstable.
  { intros s' Ht. by eapply (touched_new_stable prof s s1 s'). }
  assert (covers s good bad (L ++ R) ∧
          good < length (heap s) ∧ bad < length (heap s) →
          prof ≠ good ∧ prof ≠ bad ∧
          ∀ s', touched prof s1 s' → covers s' good bad (L ++ R)) as Hvalid.
  { intros (Hc & Hg & Hb). split_and!; [unfold prof; lia..|].
    intros s' Ht. eapply covers_touched; [exact Ht|unfold prof; lia..|].
    by eapply covers_stable. }
  (* first splice *)
  apply wp_bind. eapply wp_mono; [apply overwrite_spec|]. simpl.
  intros o2 s2 (Ht2 & Htr2 & _ & Hok2).
  destruct o2 as [[]|e2].
  2:{ apply (HRaise e2 s2 []); [by apply Hstable|by rewrite app_nil_r|].
      intros Hv. destruct (Hvalid Hv) as (Hg & Hb & Hc).
      discriminate Hok2; [done|].
      apply (covers_bad good bad L s1).
      eapply covers_subseteq; [|apply Hc, touched_refl].
      intros x Hx. apply elem_of_app. by left. }
  (* upper border *)
  apply wp_bind. eapply wp_mono; [apply find_upper_border_spec|].
  intros o3 s3 (Ht3 & tu & Htr3 & Hres3 & Htot3).
  assert (touched prof s1 s3) as Ht3' by (by eapply touched_trans).
  assert (trace s3 = trace s ++ tu) as Htr3' by (by rewrite Htr3, Htr2).
  destruct o3 as [u|e3].
  2:{ apply (HRaise e3 s3 tu); [by apply Hstable|done|].
      intros Hv. destruct (Hvalid Hv) as (Hg & Hb & Hc).
      destruct Htot3 as [r Hr]; [done|done|by apply Hc| |done|done].
      rewrite length_app. lia. }
  specialize (Hres3 u eq_refl).
  (* second splice *)
  apply wp_bind. eapply wp_mono; [apply overwrite_spec|]. simpl.
  intros o4 s4 (Ht4 & Htr4 & _ & Hok4).
  assert (touched prof s1 s4) as Ht4' by (by eapply touched_trans).
  destruct o4 as [[]|e4].
  2:{ apply (HRaise e4 s4 tu); [by apply Hstable|by rewrite Htr4|].
      intros Hv. destruct (Hvalid Hv) as (Hg & Hb & Hc).
      discriminate Hok4; [done|].
      apply (covers_bad good). eapply covers_subseteq; [|by apply Hc].
      intros x Hx. apply elem_of_app in Hx as [Hx|Hx].
      - apply elem_of_app. by left.
      - by apply slice_subseteq in Hx. }
  (* lower border *)
  apply wp_bind. eapply wp_mono; [apply find_lower_border_spec|].
  intros o5 s5 (Ht5 & tl & Htr5 & Hres5 & Htot5).
  assert (touched prof s1 s5) as Ht5' by (by eapply touched_trans).
  assert (trace s5 = trace s ++ (tu ++ tl)) as Htr5'.
  { by rewrite Htr5, Htr4, Htr3', app_assoc. }
  destruct o5 as [lw|e5].
  2:{ apply (HRaise e5 s5 (tu ++ tl)); [by apply Hstable|done|].
      intros Hv. destruct (Hvalid Hv) as (Hg & Hb & Hc).
      destruct Htot5 as [r Hr]; [done|done|by apply Hc|lia|lia|done]. }
  specialize (Hres5 lw eq_refl).
  apply (HOk u lw s5 (tu ++ tl)); [by apply Hstable|done|..].
  - intros HL. assert (0 < length L) by (destruct L; [done|simpl; lia]).
    destruct (lower_result_bounds 0 (length L) None (verdicts tl)) as [Hlw|Hlw];
      [lia| |]; rewrite <- Hres5 in Hlw; simpl in Hlw; lia.
  - intros HR. assert (0 < length R) by (destruct R; [done|simpl; lia]).
    rewrite length_app in *.
    destruct (upper_result_bounds (length L) (length L + length R) None
                (verdicts tu)) as [Hu|Hu];
      [lia| |]; rewrite <- Hres3 in Hu; simpl in Hu; lia.
  - unfold verdicts. rewrite fmap_app, Forall_app. intros [Hu Hl].
    rewrite Hres3, Hres5.
    by rewrite upper_result_no_bad, lower_result_no_bad.
Qed.

(** The pools a round works on: the starting pools, shuffled unless
    this is the first round. *)
Lemma wp_round_pools (common_funcs : list string) (lo hi : nat)
    (L R min : list string) (s : state)
    (Q : outcome (list string * list string) → state → Prop) :
  (∀ L' R' w',
     (shuffle_permutes →
      L' ≡ₚ (start_pools common_funcs lo hi L R min).1 ∧
      R' ≡ₚ (start_pools common_funcs lo hi L R min).2) →
     (min = [] → (L', R') = start_pools common_funcs lo hi L R min) →
     Q (Ok (L', R')) (State (heap s) w' (trace s))) →
  wp (match min with
      | _ :: _ =>
          bind (random_shuffle L) (λ l,
          bind (random_shuffle R) (λ r, ret (l, r)))
      | [] =>
          let mid := (lo + hi) / 2 in
          ret (slice common_funcs lo mid, slice common_funcs mid hi)
      end) s Q.
Proof.
  intros HQ. destruct min as [|m min]; simpl.
  - apply wp_ret. destruct s. by apply HQ.
  - apply wp_bind, wp_random_shuffle. intros L' w1 HL.
    apply wp_bind, wp_random_shuffle. intros R' w2 HR. simpl in *.
    apply wp_ret. apply HQ; [|done].
    intros Hperm. split.
    + rewrite <- (Hperm L (world s)). by rewrite HL.
    + rewrite <- (Hperm R w1). by rewrite HR.
Qed.

Lemma last_slice {A} (l : list A) (a b : nat) :
  a < b → b ≤ length l → last (slice l a b) = l !! (b - 1).
Proof.
  intros Hab Hb. rewrite last_lookup, slice_length by done.
  rewrite slice_lookup by lia. f_equal. lia.
Qed.

Lemma nonempty_length {A} (l : list A) : l ≠ [] ↔ 0 < length l.
Proof. destruct l; simpl; split; (done || lia). Qed.

Lemma covers_valid (good bad : nat) (funcs : list string) (s : state) :
  covers s good bad funcs → funcs ≠ [] →
  good < length (heap s) ∧ bad < length (heap s).
Proof.
  intros Hc Hne. destruct funcs as [|func funcs]; [done|].
  apply Forall_cons in Hc as [[Hg Hb] _].
  destruct (deref_is_Some _ _ _ Hg) as [pg Hpg].
  destruct (deref_is_Some _ _ _ Hb) as [pb Hpb].
  split; by eapply lookup_lt_Some.
Qed.

Lemma covers_perm (good bad : nat) (funcs funcs' : list string) (s : state) :
  funcs' ≡ₚ funcs → covers s good bad funcs → covers s good bad funcs'.
Proof. intros Hp. apply covers_subseteq. intros x. by rewrite Hp. Qed.

Lemma perm_nonempty {A} (l l' : list A) : l' ≡ₚ l → l ≠ [] → l' ≠ [].
Proof. intros Hp. rewrite !nonempty_length. by rewrite Hp. Qed.

Lemma start_pools_narrowed (common_funcs : list string) (lo hi : nat)
    (L R min : list string) :
  min ≠ [] → start_pools common_funcs lo hi L R min = (L, R).
Proof. by destruct min. Qed.

Lemma range_search_rounds_spec (rounds good bad : nat)
    (common_funcs : list string) (lo hi : nat) (L R min : list string)
    (s : state) :
  wp (range_search_rounds rounds good bad common_funcs lo hi L R min) s
     (rounds_post rounds good bad common_funcs lo hi L R min s).
Proof.
  revert lo hi L R min s.
  induction rounds as [|rounds IH]; intros lo hi L R min s.
  { apply wp_ret. split; [apply stable_refl|].
    exists []. rewrite app_nil_r. split_and!; [done| |by eauto|].
    - intros Hinv l [= <-]. rewrite sorted_length.
      destruct Hinv as [->|?]; [by right | by left].
    - intros _ Hc _ l [= <-]. destruct min; [lia|done]. }
  simpl. apply wp_bind, wp_round_pools.
  intros L' R' w' Hperm Hfirst.
  set (s1 := State (heap s) w' (trace s)).
  set (pools := start_pools common_funcs lo hi L R min) in *.
  simpl.
  (* what a valid start gives for this round *)
  assert (shuffle_permutes → pools.1 ≠ [] → pools.2 ≠ [] →
          covers s good bad (pools.1 ++ pools.2) →
          L' ≠ [] ∧ R' ≠ [] ∧
          ∀ s', stable s s' → covers s' good bad (L' ++ R')) as Hvalid.
  { intros Hsh H1 H2 Hc. destruct (Hperm Hsh) as [HL HR].
    split_and!; [by eapply perm_nonempty..|].
    intros s' Hst. eapply covers_stable; [exact Hst|].
    eapply covers_perm; [|exact Hc]. by rewrite HL, HR. }
  apply wp_round_borders.
  2:{ intros e s2 t Hst2 Htr2 Hnv. split; [exact Hst2|].
      exists t. split_and!; [exact Htr2|done| |done].
      intros Hsh H1 H2 Hc. destruct Hnv.
      destruct (Hvalid Hsh H1 H2 Hc) as (HL' & HR' & Hc').
      split; [apply (Hc' s1); exact (stable_refl s)|].
      refine (covers_valid good bad (pools.1 ++ pools.2) s Hc _).
      by destruct (pools.1). }
  intros u lw s2 t Hst2 Htr2 Hlw Hu Hquiet.
  assert (stable s s2) as Hst2' by exact Hst2.
  assert (trace s2 = trace s ++ t) as Htr2' by exact Htr2.
  set (curr := slice (L' ++ R') lw u).
  (* facts that hold once both pools are known to be non-empty *)
  assert (L' ≠ [] → R' ≠ [] →
          2 ≤ length curr ∧
          curr !! 0 = L' !! lw ∧ lw < length L' ∧
          last curr = R' !! (u - 1 - length L') ∧
          u - 1 - length L' < length R') as Hcurr.
  { intros HL' HR'. specialize (Hlw HL'). specialize (Hu HR').
    rewrite length_app in Hu.
    assert (u ≤ length (L' ++ R')) by (rewrite length_app; lia).
    unfold curr. rewrite slice_length, last_slice by (done || lia).
    rewrite slice_lookup by lia.
    rewrite Nat.add_0_r, lookup_app_l by lia.
    rewrite lookup_app_r by lia.
    split_and!; (done || lia). }
  case_decide as Hupd.
  - (* a new minimum *)
    apply wp_bind. unfold list_get at 1.
    destruct (curr !! 0) as [first|] eqn:Hfirst0.
    2:{ apply wp_raise. split; [done|]. exists t.
        split_and!; [done..| |done].
        intros Hsh H1 H2 Hc.
        destruct (Hvalid Hsh H1 H2 Hc) as (HL' & HR' & Hc').
        destruct (Hcurr HL' HR') as (_ & Heq & Hlt & _).
        rewrite ?Hfirst0 in Heq. symmetry in Heq.
        apply lookup_ge_None in Heq. lia. }
    apply wp_ret, wp_bind. unfold list_index at 1.
    destruct (index_of first L') as [i|] eqn:Hi.
    2:{ apply wp_raise. split; [done|]. exists t.
        split_and!; [done..| |done].
        intros Hsh H1 H2 Hc.
        destruct (Hvalid Hsh H1 H2 Hc) as (HL' & HR' & Hc').
        destruct (Hcurr HL' HR') as (_ & Heq & Hlt & _).
        rewrite ?Hfirst0 in Heq. symmetry in Heq.
        destruct (index_of_first _ _ _ Heq) as (i & Hi' & _). congruence. }
    apply wp_ret, wp_bind. unfold list_get_last at 1.
    pose proof (index_of_Some _ _ _ Hi) as HLi.
    assert (L' ≠ []) as HL' by (intros ->; done).
    destruct (last curr) as [final|] eqn:Hfinal.
    2:{ apply wp_raise. split; [done|]. exists t.
        split_and!; [done..| |done].
        intros _ _ _ _. apply last_None in Hfinal.
        rewrite Hfinal in Hfirst0. done. }
    apply wp_ret, wp_bind. unfold list_index at 1.
    destruct (index_of final R') as [j|] eqn:Hj.
    2:{ apply wp_raise. split; [done|]. exists t.
        split_and!; [done..| |done].
        intros Hsh H1 H2 Hc.
        destruct (Hvalid Hsh H1 H2 Hc) as (_ & HR' & Hc').
        destruct (Hcurr HL' HR') as (_ & _ & _ & Heq & Hlt).
        rewrite ?Hfinal in Heq. symmetry in Heq.
        destruct (index_of_first _ _ _ Heq) as (j & Hj' & _). congruence. }
    apply wp_ret.
    pose proof (index_of_Some _ _ _ Hj) as HRj.
    assert (R' ≠ []) as HR' by (intros ->; done).
    destruct (Hcurr HL' HR') as (Hlen & Hc0 & Hlwlt & Hlast & Hult).
    (* without a BAD verdict the round keeps everything *)
    assert (shuffle_permutes →
            match min with
            | [] => 0 < S rounds ∧ NoDup pools.2
            | _ :: _ => length min ≤ length (pools.1 ++ pools.2)
            end →
            Forall (λ v, v ≠ BAD_STATUS) (verdicts t) →
            min = [] ∧ curr = pools.1 ++ pools.2 ∧
            drop i L' = L' ∧ take (j + 1) R' = R' ∧
            pools = (L', R')) as Hkeep.
    { intros Hsh Hcond Hq. destruct (Hquiet Hq) as [-> ->].
      assert (curr = L' ++ R') as Hall by apply slice_all.
      destruct min as [|m min'].
      - destruct Hcond as [_ Hnd]. specialize (Hfirst eq_refl).
        rewrite <- Hfirst in *. simpl in *.
        split_and!; [done|done| | |done].
        + rewrite ?Hfirst0 in Hc0. symmetry in Hc0.
          destruct (index_of_first _ _ _ Hc0) as (i' & Hi' & Hle).
          assert (i = 0) as -> by (rewrite Hi in Hi'; injection Hi'; lia).
          done.
        + rewrite ?Hfinal in Hlast. symmetry in Hlast.
          rewrite (index_of_NoDup _ _ _ Hnd Hlast) in Hj.
          injection Hj as <-. apply take_ge.
          rewrite length_app in *. lia.
      - exfalso. destruct (Hperm Hsh) as [HpL HpR].
        destruct Hupd as [?|Hlt]; [done|].
        rewrite Hall in Hlt. rewrite !length_app in *.
        rewrite HpL, HpR in Hlt. lia. }
    case_decide as Htwo.
    + apply wp_ret. split; [done|]. exists t.
      split_and!; [done| |by eauto|].
      * intros _ l [= <-]. left. rewrite sorted_length. lia.
      * intros Hsh Hcond Hq l [= <-].
        destruct (Hkeep Hsh Hcond Hq) as (Hmin & Hcurr' & _).
        rewrite Hcurr'. unfold pools. by rewrite Hmin.
    + eapply wp_mono; [apply IH|].
      intros o s3 (Hst3 & t' & Htr3 & HA & HB & HC).
      assert (curr ≠ []) as Hcne by (intros Hnil; by rewrite Hnil in Hfirst0).
      rewrite (start_pools_narrowed _ _ _ _ _ _ Hcne) in HB, HC.
      simpl in HB, HC.
      split; [by eapply stable_trans|].
      exists (t ++ t'). rewrite Htr3, Htr2', app_assoc.
      split_and!; [done| | |].
      * intros _ l Hl. left.
        destruct (HA (or_intror Hlen) l Hl) as [?|[? _]]; done.
      * intros Hsh H1 H2 Hc.
        destruct (Hvalid Hsh H1 H2 Hc) as (_ & _ & Hc').
        apply HB; [done| | |].
        -- apply nonempty_length. rewrite length_drop.
           apply lookup_lt_Some in HLi. lia.
        -- apply nonempty_length. rewrite length_take.
           apply lookup_lt_Some in HRj. lia.
        -- eapply covers_subseteq; [|by apply Hc'].
           intros x Hx. apply elem_of_app in Hx as [Hx|Hx]; apply elem_of_app.
           ++ left. by eapply subseteq_drop.
           ++ right. by eapply subseteq_take.
      * intros Hsh Hcond Hq l Hl.
        unfold verdicts in Hq. rewrite fmap_app, Forall_app in Hq.
        destruct Hq as [Hq Hq'].
        destruct (Hkeep Hsh Hcond Hq) as (Hmin & Hcurr' & Hi0 & Hj0 & Hpools).
        assert (l = sorted curr) as ->.
        { destruct curr as [|c cs] eqn:Hc; [done|].
          apply HC; [done| |done|done].
          rewrite Hi0, Hj0, Hcurr', Hpools. done. }
        rewrite Hcurr'. unfold pools. by rewrite Hmin.
  - (* no improvement *)
    assert (min ≠ [] ∧ length min ≤ length curr) as [Hmne Hmin].
    { split; [tauto|]. destruct (decide (length curr < length min)); [tauto|lia]. }
    eapply wp_mono; [apply IH|].
    intros o s3 (Hst3 & t' & Htr3 & HA & HB & HC).
    rewrite (start_pools_narrowed _ _ _ _ _ _ Hmne) in HB, HC.
    simpl in HB, HC.
    assert (pools = (L, R)) as Hpools by (by apply start_pools_narrowed).
    split; [by eapply stable_trans|].
    exists (t ++ t'). rewrite Htr3, Htr2', app_assoc.
    split_and!; [done| | |].
    + intros Hinv l Hl. left.
      destruct (HA Hinv l Hl) as [?|[? _]]; done.
    + intros Hsh H1 H2 Hc.
      destruct (Hvalid Hsh H1 H2 Hc) as (HL' & HR' & Hc').
      apply HB; [done..|]. by apply Hc'.
    + intros Hsh Hcond Hq l Hl.
      unfold verdicts in Hq. rewrite fmap_app, Forall_app in Hq.
      destruct Hq as [Hq Hq'].
      destruct min as [|m min']; [done|].
      apply HC; [done| |done|done].
      destruct (Hperm Hsh) as [HpL HpR].
      rewrite length_app, HpL, HpR, <- length_app. done.
Qed.

Lemma range_search_spec (good bad : nat) (common_funcs : list string)
    (lo hi : nat) (s : state) :
  wp (range_search good bad common_funcs lo hi) s
     (range_search_post good bad common_funcs lo hi s).
Proof.
  eapply wp_mono; [apply range_search_rounds_spec|].
  intros o s' (Hst & t & Htr & HA & HB & HC).
  unfold start_pools in HB, HC. cbn [fst snd] in HB, HC.
  split; [done|]. exists t. split_and!; [done| | |].
  - intros l Hl. destruct (HA (or_introl eq_refl) l Hl) as [?|[_ ?]]; done.
  - intros Hsh Hbig Hhi Hc. pose proof (midpoint_inside lo hi Hbig) as [? ?].
    apply HB; [done| | |].
    + apply nonempty_length. rewrite slice_length; lia.
    + apply nonempty_length. rewrite slice_length; lia.
    + rewrite slice_app by lia.
      eapply covers_subseteq; [apply slice_subseteq|done].
  - intros Hsh Hle Hnd Hq l Hl.
    pose proof (half_bounds (lo + hi)) as [? ?].
    rewrite <- (slice_app common_funcs lo ((lo + hi) / 2) hi) in * by lia.
    apply HC; [done| |done..]. split; [unfold _NUM_RUNS_RANGE_SEARCH; lia|].
    by apply NoDup_app in Hnd as (_ & _ & ?).
Qed.

(** ** Bisection *)

Lemma wp_eqn {A} (m : M A) (s : state) (Q : outcome A → state → Prop) :
  (∀ o s', m s = (o, s') → Q o s') → wp m s Q.
Proof. intros HQ. unfold wp. apply HQ. by destruct (m s). Qed.

#[local] Arguments Nat.div : simpl never.

Lemma bisect_base_spec (good bad : nat) (common_funcs : list string)
    (lo hi depth : nat) (s : state) :
  hi - lo ≤ 1 →
  wp (bind (list_get common_funcs lo) (λ func, ret (Results [func] []))) s
     (bisect_post good bad common_funcs lo hi depth s).
Proof.
  intros Hsmall. apply wp_bind. unfold list_get.
  destruct (common_funcs !! lo) as [func|] eqn:Hlo.
  - apply wp_ret, wp_ret. split; [apply stable_refl|].
    exists []. rewrite app_nil_r. split_and!; [done| |by eauto|].
    + intros res [= <-]. simpl. constructor.
    + intros oracle g b _ Hlt Hhi Hor res [= <-] f. simpl.
      assert (hi = S lo) as -> by lia.
      rewrite (slice_singleton _ _ _ Hlo) in *.
      destruct Hor as [?|Hbad]; [lia|].
      rewrite list_elem_of_singleton. split; [by intros ->|by intros [? _]].
  - apply wp_raise. split; [apply stable_refl|].
    exists []. rewrite app_nil_r. split_and!; [done..| |done].
    intros _ Hlt Hhi _ _. apply lookup_ge_None in Hlo. lia.
Qed.

Lemma oracle_setting_stable (oracle : gmap string string → status_enum)
    (g b : gmap string string) (good bad : nat) (common_funcs : list string)
    (s s' : state) :
  stable s s' →
  oracle_setting oracle g b good bad common_funcs s →
  oracle_setting oracle g b good bad common_funcs s'.
Proof.
  intros Hst (Hp & Hg & Hb & Hdef & Hmono).
  split_and!; [done| | |done..]; by eapply stable_lookup.
Qed.

(** One half of a bisection step: recurse if and only if the half was
    ruled BAD, and merge the result into [acc]. *)
Lemma bisect_half_spec (depth good bad : nat) (common_funcs : list string)
    (a c : nat) (v : status_enum) (acc : results) (s0 s : state) :
  (∀ lo hi s1,
     wp (bisect_profiles_rec depth good bad common_funcs lo hi) s1
        (bisect_post good bad common_funcs lo hi depth s1)) →
  stable s0 s →
  wp (if decide (v = BAD_STATUS)
      then bind (bisect_profiles_rec depth good bad common_funcs a c)
             (λ result, ret (extend_results acc result))
      else ret acc) s
    (λ o s',
      stable s0 s' ∧
      ∃ t, trace s' = trace s ++ t ∧
        (Forall (λ r, 2 ≤ length r) (ranges acc) →
         ∀ res, o = Ok res → Forall (λ r, 2 ≤ length r) (ranges res)) ∧
        (shuffle_permutes → a < c → c ≤ length common_funcs →
         c - a ≤ depth → covers s good bad common_funcs → ∃ res, o = Ok res) ∧
        (∀ oracle g b,
           oracle_setting oracle g b good bad common_funcs s →
           a < c → c ≤ length common_funcs →
           v = oracle (splice g b (slice common_funcs a c)) →
           ∀ res, o = Ok res →
           ∀ func, func ∈ individuals res ↔
                   func ∈ individuals acc ∨
                   (func ∈ slice common_funcs a c ∧
                    oracle (splice g b [func]) = BAD_STATUS))).
Proof.
  intros IH Hst0. case_decide as Hv.
  - apply wp_bind. eapply wp_mono; [apply IH|].
    intros o s' (Hst & t & Htr & HA & HB & HC).
    destruct o as [result|e].
    + apply wp_ret. split; [by eapply stable_trans|].
      exists t. split_and!; [done| |by eauto|].
      * intros Hacc res [= <-]. simpl. apply Forall_app. by split; [|apply HA].
      * intros oracle g b Hset Hac Hc Hveq res [= <-] func. simpl.
        rewrite elem_of_app.
        rewrite (HC oracle g b Hset Hac Hc (or_intror (eq_trans (eq_sym Hveq) Hv))
                   result eq_refl func).
        done.
    + split; [by eapply stable_trans|].
      exists t. split_and!; [done|done| |done].
      intros Hsh Hac Hc Hd Hcov. by apply HB.
  - apply wp_ret. split; [done|].
    exists []. rewrite app_nil_r. split_and!; [done| |by eauto|].
    + by intros Hacc res [= <-].
    + intros oracle g b (Hp & Hg & Hb & Hdef & Hmono) Hac Hc Hveq res [= <-] func.
      split; [by left|]. intros [?|[Hin Hbad]]; [done|].
      destruct Hv. rewrite Hveq.
      apply (Hmono [func]); [|apply slice_subseteq|done].
      intros x Hx. apply list_elem_of_singleton in Hx. by subst.
Qed.

Lemma bisect_profiles_rec_spec (depth good bad : nat)
    (common_funcs : list string) (lo hi : nat) (s : state) :
  wp (bisect_profiles_rec depth good bad common_funcs lo hi) s
     (bisect_post good bad common_funcs lo hi depth s).
Proof.
  revert lo hi s. induction depth as [|depth IH]; intros lo hi s; simpl;
    (case_decide as Hsmall; [by apply bisect_base_spec|]).
  { apply wp_raise. split; [apply stable_refl|].
    exists []. rewrite app_nil_r. split_and!; [done..| |done].
    intros _ _ _ Hd _. lia. }
  assert (2 ≤ hi - lo) as Hbig by lia.
  pose proof (midpoint_inside lo hi Hbig) as [Hlm Hmh].
  set (mid := (lo + hi) / 2) in *.
  (* the two copies of [good] *)
  apply wp_bind. unfold wp at 1. simpl.
  apply wp_bind. unfold wp at 1. simpl.
  set (dg := deref (heap s) good).
  set (h2 := (heap s ++ [dg]) ++ [deref (heap s ++ [dg]) good]).
  set (p1 := length (heap s)).
  set (p2 := length (heap s ++ [dg])).
  set (s2 := State h2 (world s) (trace s)).
  assert (stable s s2) as Hst2.
  { exists [dg; deref (heap s ++ [dg]) good]. unfold s2, h2. simpl.
    by rewrite <- app_assoc. }
  assert (p2 = S p1) as Hp2 by (unfold p2; rewrite length_app; simpl; lia).
  assert (∀ d s', p1 ≤ d → touched d s2 s' → stable s s') as Hnew.
  { intros d s' Hd Ht. by eapply (touched_new_stable d s s2 s'). }
  (* validity, transported along the run *)
  assert (covers s good bad common_funcs → hi ≤ length common_funcs →
          good < p1 ∧ bad < p1 ∧
          ∀ s', stable s s' → covers s' good bad common_funcs) as Hvalid.
  { intros Hc Hhi.
    destruct (covers_valid good bad common_funcs s Hc) as [? ?].
    { apply nonempty_length. lia. }
    split_and!; [done..|]. intros s' Hst. by eapply covers_stable. }
  (* the contents of the two candidates *)
  assert (∀ oracle g b,
            oracle_setting oracle g b good bad common_funcs s →
            h2 !! p1 = Some g ∧ h2 !! p2 = Some g ∧ h2 !! bad = Some b ∧
            p1 ≠ bad ∧ p2 ≠ bad) as Hcopies.
  { intros oracle g b (_ & Hg & Hb & _ & _).
    pose proof (lookup_lt_Some _ _ _ Hb) as Hblt.
    assert (dg = g) as Hdg by (by apply deref_Some).
    assert (deref (heap s ++ [dg]) good = g) as Hdg'.
    { apply deref_Some. by rewrite lookup_app_l by (by eapply lookup_lt_Some). }
    unfold h2. rewrite Hdg', Hdg. split_and!.
    - rewrite lookup_app_l by (rewrite length_app; simpl; unfold p1; lia).
      by rewrite lookup_app_r, Nat.sub_diag by (unfold p1; lia).
    - rewrite lookup_app_r by (unfold p2; rewrite Hdg; lia).
      unfold p2. by rewrite Hdg, Nat.sub_diag.
    - rewrite <- app_assoc. by rewrite lookup_app_l.
    - unfold p1. lia.
    - unfold p1 in Hp2. lia. }
  (* first candidate *)
  apply wp_bind, wp_eqn. intros o3 s3 Hrun3.
  destruct (wp_run _ _ _ _ _ (overwrite_spec p1 bad (slice common_funcs lo mid) s2)
              Hrun3) as (Ht3 & Htr3 & Hw3 & Hok3).
  assert (stable s s3) as Hst3 by (by apply (Hnew p1)).
  destruct o3 as [[]|e3].
  2:{ split; [done|]. exists []. rewrite app_nil_r.
      split_and!; [done|done| |done].
      intros _ _ Hhi _ Hc. destruct (Hvalid Hc Hhi) as (Hg & Hb & Hc').
      discriminate Hok3; [lia|].
      apply (covers_bad good bad _ s2).
      eapply covers_subseteq; [apply slice_subseteq|by apply Hc']. }
  (* second candidate *)
  apply wp_bind, wp_eqn. intros o4 s4 Hrun4.
  destruct (wp_run _ _ _ _ _ (overwrite_spec p2 bad (slice common_funcs mid hi) s3)
              Hrun4) as (Ht4 & Htr4 & Hw4 & Hok4).
  assert (stable s s4) as Hst4.
  { destruct Hst3 as [ext3 Hext3]. destruct Ht4 as [Hl4 Ho4].
    exists (drop p1 (heap s4)). apply list_eq. intros i.
    destruct (decide (i < p1)) as [Hi|Hi].
    - rewrite lookup_app_l by done. rewrite Ho4 by lia.
      rewrite Hext3. by rewrite lookup_app_l.
    - rewrite lookup_app_r by (unfold p1 in Hi; lia).
      rewrite lookup_drop. f_equal. unfold p1 in *. lia. }
  destruct o4 as [[]|e4].
  2:{ split; [done|]. exists []. rewrite app_nil_r.
      split_and!; [by rewrite Htr4|done| |done].
      intros _ _ Hhi _ Hc. destruct (Hvalid Hc Hhi) as (Hg & Hb & Hc').
      discriminate Hok4; [lia|].
      apply (covers_bad good bad _ s3).
      eapply covers_subseteq; [apply slice_subseteq|by apply Hc']. }
  assert (∀ oracle g b,
            oracle_setting oracle g b good bad common_funcs s →
            hi ≤ length common_funcs →
            deref (heap s4) p1 = splice g b (slice common_funcs lo mid) ∧
            deref (heap s4) p2 = splice g b (slice common_funcs mid hi))
    as Hcontents.
  { intros oracle g b Hset Hhi.
    destruct (Hcopies oracle g b Hset) as (H1 & H2 & Hb & Hn1 & Hn2).
    destruct Hset as (_ & _ & _ & Hdef & _).
    assert (∀ a c, Forall (λ func, is_Some (b !! func)) (slice common_funcs a c))
      as Hdef'.
    { intros a c. rewrite Forall_forall in *. intros x Hx.
      by apply Hdef, (slice_subseteq common_funcs a c). }
    rewrite (overwrite_run p1 bad _ s2 g b Hn1 H1 Hb (Hdef' _ _)) in Hrun3.
    injection Hrun3 as <-.
    assert (p1 < length h2) by (by eapply lookup_lt_Some).
    rewrite (overwrite_run p2 bad _ _ g b Hn2) in Hrun4; simpl.
    - injection Hrun4 as <-. simpl. unfold deref. split.
      + rewrite list_lookup_insert_ne by lia.
        by rewrite list_lookup_insert_eq.
      + rewrite list_lookup_insert_eq; [done|].
        rewrite length_insert. by eapply lookup_lt_Some.
    - by rewrite list_lookup_insert_ne by lia.
    - by rewrite list_lookup_insert_ne by done.
    - apply Hdef'. }
  (* the two verdicts *)
  apply wp_bind, wp_call_decider. intros v1 w5 Hdec1.
  set (q1 := Query (deref (heap s4) p1) true v1).
  apply wp_bind, wp_call_decider. intros v2 w6 Hdec2. simpl in Hdec2 |- *.
  set (q2 := Query (deref (heap s4) p2) true v2).
  set (s6 := State (heap s4) w6 ((trace s4 ++ [q1]) ++ [q2])).
  assert (stable s s6) as Hst6 by exact Hst4.
  assert (trace s6 = trace s ++ [q1; q2]) as Htr6.
  { unfold s6. simpl. rewrite Htr4, Htr3. simpl. by rewrite <- app_assoc. }
  assert (∀ oracle g b,
            oracle_setting oracle g b good bad common_funcs s →
            hi ≤ length common_funcs →
            v1 = oracle (splice g b (slice common_funcs lo mid)) ∧
            v2 = oracle (splice g b (slice common_funcs mid hi))) as Hverdicts.
  { intros oracle g b Hset Hhi.
    destruct (Hcontents oracle g b Hset Hhi) as [<- <-].
    destruct Hset as (Hpure & _). split.
    - by rewrite <- (Hpure (deref (heap s4) p1) true (world s4)), Hdec1.
    - by rewrite <- (Hpure (deref (heap s4) p2) true w5), Hdec2. }
  (* the low half *)
  apply wp_bind.
  eapply wp_mono;
    [apply (bisect_half_spec depth good bad common_funcs lo mid v1
              (Results [] []) s s6 IH Hst6)|].
  intros o7 s7 (Hst7 & t7 & Htr7 & HA7 & HB7 & HC7).
  destruct o7 as [res1|e7].
  2:{ split; [done|]. exists ([q1; q2] ++ t7).
      rewrite Htr7, Htr6, <- app_assoc.
      split_and!; [done|done| |done].
      intros Hsh _ Hhi Hd Hc. destruct (Hvalid Hc Hhi) as (Hg & Hb & Hc').
      apply HB7; [done|lia|lia|lia|by apply Hc']. }
  (* the high half *)
  apply wp_bind.
  eapply wp_mono;
    [apply (bisect_half_spec depth good bad common_funcs mid hi v2
              res1 s s7 IH Hst7)|].
  intros o8 s8 (Hst8 & t8 & Htr8 & HA8 & HB8 & HC8).
  destruct o8 as [res2|e8].
  2:{ split; [done|]. exists (([q1; q2] ++ t7) ++ t8).
      rewrite Htr8, Htr7, Htr6, <- !app_assoc.
      split_and!; [done|done| |done].
      intros Hsh _ Hhi Hd Hc. destruct (Hvalid Hc Hhi) as (Hg & Hb & Hc').
      apply HB8; [done|lia|lia|lia|by apply Hc']. }
  assert (trace s8 = trace s ++ ([q1; q2] ++ t7 ++ t8)) as Htr8'.
  { by rewrite Htr8, Htr7, Htr6, <- !app_assoc. }
  assert (Forall (λ r, 2 ≤ length r) (ranges res2)) as Hranges2.
  { apply HA8; [|done]. apply HA7; [|done]. constructor. }
  assert (∀ oracle g b,
            oracle_setting oracle g b good bad common_funcs s →
            hi ≤ length common_funcs →
            ∀ func, func ∈ individuals res2 ↔
                    func ∈ slice common_funcs lo hi ∧
                    oracle (splice g b [func]) = BAD_STATUS) as Hind2.
  { intros oracle g b Hset Hhi func.
    destruct (Hverdicts oracle g b Hset Hhi) as [Hv1 Hv2].
    rewrite (HC8 oracle g b (oracle_setting_stable _ _ _ _ _ _ _ _ Hst7 Hset)
               Hmh Hhi Hv2 res2 eq_refl func).
    rewrite (HC7 oracle g b (oracle_setting_stable _ _ _ _ _ _ _ _ Hst6 Hset)
               Hlm ltac:(lia) Hv1 res1 eq_refl func).
    rewrite <- (slice_app common_funcs lo mid hi) by lia.
    rewrite elem_of_app. simpl. rewrite elem_of_nil. tauto. }
  (* neither half is bad: the range search *)
  case_decide as Hgood.
  - apply wp_bind. eapply wp_mono; [apply range_search_spec|].
    intros o9 s9 (Hst9 & t9 & Htr9 & HA9 & HB9 & _).
    destruct o9 as [problem_range|e9].
    2:{ split; [by eapply stable_trans|]. exists (([q1; q2] ++ t7 ++ t8) ++ t9).
        rewrite Htr9, Htr8', <- !app_assoc.
        split_and!; [done|done| |done].
        intros Hsh _ Hhi Hd Hc. destruct (Hvalid Hc Hhi) as (Hg & Hb & Hc').
        destruct HB9 as [l Hl]; [done..|by apply Hc'|done]. }
    assert (wp (ret (Results (individuals res2) (ranges res2 ++ [problem_range])))
              s9 (bisect_post good bad common_funcs lo hi (S depth) s)) as Hret.
    { apply wp_ret. split; [by eapply stable_trans|].
      exists (([q1; q2] ++ t7 ++ t8) ++ t9).
      rewrite Htr9, Htr8', <- !app_assoc.
      split_and!; [done| |by eauto|].
      - intros res [= <-]. simpl. apply Forall_app. split; [done|].
        constructor; [by apply HA9|constructor].
      - intros oracle g b Hset _ Hhi _ res [= <-]. simpl. by apply Hind2. }
    destruct problem_range as [|x xs]; [|exact Hret].
    specialize (HA9 [] eq_refl). simpl in HA9. lia.
  - apply wp_ret. split; [done|]. exists ([q1; q2] ++ t7 ++ t8).
    split_and!; [done| |by eauto|].
    + by intros res [= <-].
    + intros oracle g b Hset _ Hhi _ res [= <-]. by apply Hind2.
Qed.

Lemma bisect_profiles_spec (good bad : nat)
    (common_funcs : list string) (lo hi : nat) (s : state) :
  wp (bisect_profiles good bad common_funcs lo hi) s
     (bisect_post good bad common_funcs lo hi (hi - lo) s).
Proof. apply bisect_profiles_rec_spec. Qed.

(** ** The wrapper *)

Lemma common_of_elem (g b : gmap string string) (func : string) :
  func ∈ common_of g b ↔ is_Some (g !! func) ∧ is_Some (b !! func).
Proof.
  unfold common_of. rewrite sorted_perm, list_elem_of_filter.
  rewrite list_elem_of_fmap. split.
  - intros [Hb ([k v] & -> & Hin)]. apply elem_of_map_to_list in Hin.
    split; [by eexists|done].
  - intros [[v Hg] Hb]. split; [done|].
    exists (func, v). split; [done|]. by apply elem_of_map_to_list.
Qed.

Lemma common_of_NoDup (g b : gmap string string) : NoDup (common_of g b).
Proof.
  unfold common_of. rewrite sorted_perm.
  apply NoDup_filter, NoDup_fst_map_to_list.
Qed.

Lemma filter_m_dict_has (bad : nat) (l : list string) (s : state) :
  filter_m (dict_has bad) l s =
    (Ok (filter (λ func, is_Some (deref (heap s) bad !! func)) l), s).
Proof.
  induction l as [|x l IH]; [done|].
  simpl. unfold bind at 1. simpl. unfold bind at 1. rewrite IH. simpl.
  rewrite filter_cons. unfold ret. by repeat case_decide; case_bool_decide.
Qed.

Lemma monotone_perm (oracle : gmap string string → status_enum)
    (g b : gmap string string) (common common' : list string) :
  common' ≡ₚ common → monotone oracle g b common → monotone oracle g b common'.
Proof.
  intros Hp Hmono funcs1 funcs2 H12 H2. apply Hmono; [done|].
  intros x Hx. rewrite <- Hp. by apply H2.
Qed.

(** On a single function the bisection attributes it at once. *)
Lemma bisect_profiles_single (good bad : nat) (func : string) (s : state) :
  bisect_profiles good bad [func] 0 1 s = (Ok (Results [func] []), s).
Proof.
  unfold bisect_profiles. simpl. done.
Qed.

Lemma wrapper_search_spec (good bad : nat) (s : state) :
  wp (bisect_profiles_wrapper good bad false) s (wrapper_post good bad s).
Proof.
  unfold bisect_profiles_wrapper.
  apply wp_bind, wp_ret, wp_bind. unfold wp at 1. simpl.
  apply wp_bind. unfold wp at 1. rewrite filter_m_dict_has. simpl.
  set (g0 := deref (heap s) good). set (b0 := deref (heap s) bad).
  change (sorted (filter (λ func, is_Some (b0 !! func)) (map_to_list g0).*1))
    with (common_of g0 b0).
  assert (∀ g b, heap s !! good = Some g → heap s !! bad = Some b →
                 common_of g b = common_of g0 b0) as Hcommon.
  { intros g b Hg Hb. unfold g0, b0.
    by rewrite (deref_Some _ _ _ Hg), (deref_Some _ _ _ Hb). }
  destruct (common_of g0 b0) as [|c cs] eqn:Hc0.
  { apply wp_ret. split; [apply stable_refl|].
    exists []. rewrite app_nil_r. split_and!; [done| |by eauto| |].
    - intros res [= <-]. constructor.
    - intros oracle g b _ _ Hg Hb _ _ res [= <-] func.
      rewrite (Hcommon g b Hg Hb). simpl. rewrite elem_of_nil. tauto.
    - intros func _ Hone. change (common_of g0 b0 = [func]) in Hone.
      congruence. }
  rewrite <- Hc0.
  apply wp_bind, wp_random_shuffle. intros common' w' Hshuf.
  set (s1 := State (heap s) w' (trace s)).
  assert (shuffle_permutes → common' ≡ₚ common_of g0 b0) as Hperm.
  { intros Hsh. rewrite <- (Hsh (common_of g0 b0) (world s)). by rewrite Hshuf. }
  apply wp_bind, wp_eqn. intros o2 s2 Hrun.
  destruct (wp_run _ _ _ _ _ (bisect_profiles_spec good bad common' 0
                                (length common') s1) Hrun)
    as (Hst2 & t & Htr2 & HA & HB & HC).
  assert (shuffle_permutes → covers s1 good bad common') as Hcov.
  { intros Hsh. unfold covers. rewrite Forall_forall. intros func Hin.
    rewrite (Hperm Hsh) in Hin. by apply common_of_elem in Hin. }
  assert (shuffle_permutes → 0 < length common') as Hpos.
  { intros Hsh. rewrite (Hperm Hsh), Hc0. simpl. lia. }
  destruct o2 as [res|e].
  2:{ split; [exact Hst2|]. exists t. split_and!; [exact Htr2|done| |done|].
      - intros Hsh. rewrite Nat.sub_0_r in HB.
        apply HB; [done|by apply Hpos|done|done|by apply Hcov].
      - intros func Hsh Hone. exfalso.
        change (common_of g0 b0 = [func]) in Hone.
        assert (common' = [func]) as Hc'.
        { apply Permutation_singleton_r. by rewrite (Hperm Hsh), Hone. }
        rewrite Hc' in Hrun. change (length [func]) with 1 in Hrun.
        rewrite bisect_profiles_single in Hrun. discriminate Hrun. }
  apply wp_ret. split; [exact Hst2|]. exists t.
  split_and!; [exact Htr2| |by eauto| |].
  - intros res' [= <-]. simpl. rewrite sorted_lists_perm. by apply HA.
  - intros oracle g b Hsh Hpure Hg Hb Hmono Hlen res' [= <-] func.
    cbn [individuals].
    pose proof (Hcommon g b Hg Hb) as Hgb. rewrite <- Hc0 in Hgb.
    pose proof (Hperm Hsh) as Hp.
    pose proof (Permutation_length Hp) as Hplen.
    assert (2 ≤ length common') as Hbig.
    { rewrite Hplen. rewrite Hgb, Hc0 in Hlen. rewrite Hc0.
      simpl in *. lia. }
    assert (oracle_setting oracle g b good bad common' s1) as Hset.
    { split_and!; [done|exact Hg|exact Hb| |].
      - rewrite Forall_forall. intros x Hx.
        assert (x ∈ common_of g b) as Hx' by (by rewrite Hgb, <- Hp).
        by apply common_of_elem in Hx' as [_ ?].
      - apply (monotone_perm _ _ _ (common_of g b)); [by rewrite Hgb|done]. }
    assert (0 < length common') as Hpos' by lia.
    assert (2 ≤ length common' - 0) as Hbig' by lia.
    pose proof (HC oracle g b Hset Hpos' (Nat.le_refl _)
                  (or_introl Hbig') res eq_refl func) as Hiff.
    rewrite slice_all in Hiff.
    assert (func ∈ sorted (individuals res) ↔ func ∈ individuals res) as ->.
    { by rewrite sorted_perm. }
    assert (func ∈ common_of g b ↔ func ∈ common') as ->.
    { by rewrite Hgb, <- Hp. }
    exact Hiff.
  - intros func Hsh Hone. change (common_of g0 b0 = [func]) in Hone.
    assert (common' = [func]) as Hc'.
    { apply Permutation_singleton_r. by rewrite (Hperm Hsh), Hone. }
    rewrite Hc' in Hrun. change (length [func]) with 1 in Hrun.
    rewrite bisect_profiles_single in Hrun. injection Hrun as <- <-.
    split; [done|]. unfold s1 in Htr2. simpl in Htr2.
    symmetry. apply (app_inv_head (trace s)). by rewrite app_nil_r.
Qed.

Lemma validate_run (good bad : nat) (s : state) :
  validate good bad s =
    if decide (good_verdict good s ≠ GOOD_STATUS)
    then (Raise (ValueError "Supplied good profile is not actually GOOD"),
          after_good good s)
    else if decide (bad_verdict good bad s ≠ BAD_STATUS)
    then (Raise (ValueError "Supplied bad profile is not actually BAD"),
          after_bad good bad s)
    else (Ok tt, after_bad good bad s).
Proof.
  unfold validate, bad_verdict, after_bad, after_good, good_verdict.
  unfold bind at 1, call_decider at 1.
  destruct (decider (deref (heap s) good) false (world s)) as [v1 w1]. simpl.
  destruct (decide (v1 ≠ GOOD_STATUS)); [reflexivity|].
  unfold bind at 1, call_decider at 1. simpl.
  destruct (decider (deref (heap s) bad) false w1) as [v2 w2]. simpl.
  destruct (decide (v2 ≠ BAD_STATUS)); reflexivity.
Qed.

Lemma wrapper_check_unfold (good bad : nat) (s : state) :
  bisect_profiles_wrapper good bad true s =
    bind (validate good bad) (λ _, bisect_profiles_wrapper good bad false) s.
Proof. reflexivity. Qed.

Lemma wrapper_stable (good bad : nat) (perform_check : bool) (s : state) :
  stable s (bisect_profiles_wrapper good bad perform_check s).2.
Proof.
  destruct perform_check.
  - rewrite wrapper_check_unfold. unfold bind. rewrite validate_run.
    repeat case_decide; simpl; [exact (stable_refl s)..|].
    destruct (wrapper_search_spec good bad (after_bad good bad s)) as [Hst _].
    exact Hst.
  - by destruct (wrapper_search_spec good bad s) as [Hst _].
Qed.

(** ** The boundary checks keep their inputs *)

Lemma check_loop_touched (dst src other : nat) (keys : list string) (s : state) :
  wp (for_each keys (λ func,
        bind (dict_has other func) (λ present,
          if present : bool then ret tt
          else bind (dict_get src func) (λ v, dict_set dst func v)))) s
     (λ o s', touched dst s s').
Proof.
  revert s. induction keys as [|func keys IH]; intros s; simpl.
  - apply wp_ret, touched_refl.
  - apply wp_bind, wp_bind. unfold wp at 1, dict_has. simpl.
    case_bool_decide.
    + apply wp_ret. apply IH.
    + apply wp_bind. unfold wp at 1, dict_get.
      destruct (deref (heap s) src !! func) as [v|]; simpl; [|apply touched_refl].
      unfold wp at 1. simpl.
      eapply wp_mono; [apply IH|]. intros o s' Ht.
      eapply touched_trans; [apply (dict_set_touched dst func v s)|done].
Qed.

Lemma check_good_not_bad_stable (good bad : nat) (s : state) :
  stable s (check_good_not_bad good bad s).2.
Proof.
  assert (wp (check_good_not_bad good bad) s (λ _ s', stable s s')) as Hwp;
    [|exact Hwp].
  unfold check_good_not_bad.
  apply wp_bind. unfold wp at 1. simpl.
  set (s1 := State (heap s ++ [deref (heap s) bad]) (world s) (trace s)).
  assert (stable s s1) as Hst1 by (by eexists).
  apply wp_bind. unfold wp at 1. simpl.
  apply wp_bind. eapply wp_mono; [apply check_loop_touched|].
  intros o2 s2 Ht2.
  assert (stable s s2) as Hst2.
  { by eapply (touched_new_stable (length (heap s)) s s1 s2). }
  destruct o2 as [[]|e]; [|done].
  apply wp_bind, wp_call_decider. intros v w' _. apply wp_ret. exact Hst2.
Qed.

Lemma check_bad_not_good_stable (good bad : nat) (s : state) :
  stable s (check_bad_not_good good bad s).2.
Proof.
  assert (wp (check_bad_not_good good bad) s (λ _ s', stable s s')) as Hwp;
    [|exact Hwp].
  unfold check_bad_not_good.
  apply wp_bind. unfold wp at 1. simpl.
  set (s1 := State (heap s ++ [deref (heap s) good]) (world s) (trace s)).
  assert (stable s s1) as Hst1 by (by eexists).
  apply wp_bind. unfold wp at 1. simpl.
  apply wp_bind. eapply wp_mono; [apply check_loop_touched|].
  intros o2 s2 Ht2.
  assert (stable s s2) as Hst2.
  { by eapply (touched_new_stable (length (heap s)) s s1 s2). }
  destruct o2 as [[]|e]; [|done].
  apply wp_bind, wp_call_decider. intros v w' _. apply wp_ret. exact Hst2.
Qed.

(** ** Candidates *)

Lemma splice_lookup (g b : gmap string string) (funcs : list string) (k : string) :
  Forall (λ func, is_Some (b !! func)) funcs →
  splice g b funcs !! k = if decide (k ∈ funcs) then b !! k else g !! k.
Proof.
  intros Hall. revert g. induction Hall as [|func funcs [v Hv] _ IH]; intros g.
  - case_decide as Hin; [by apply elem_of_nil in Hin|done].
  - unfold splice in *. simpl. rewrite Hv, IH.
    destruct (decide (k ∈ funcs)) as [Hin|Hin];
      destruct (decide (k ∈ func :: funcs)) as [Hin'|Hin'].
    + done.
    + destruct Hin'. by right.
    + apply elem_of_cons in Hin' as [->|?]; [|done].
      by rewrite lookup_insert_eq.
    + rewrite lookup_insert_ne; [done|]. intros ->. apply Hin'. by left.
Qed.

(** ** The depth budget of the bisection never runs out *)

Lemma bisect_depth_irrelevant (d1 d2 good bad : nat)
    (common_funcs : list string) (lo hi : nat) :
  hi - lo ≤ d1 → hi - lo ≤ d2 →
  bisect_profiles_rec d1 good bad common_funcs lo hi =
  bisect_profiles_rec d2 good bad common_funcs lo hi.
Proof.
  revert d2 lo hi. induction d1 as [|d1 IH]; intros [|d2] lo hi H1 H2; simpl;
    (case_decide as Hsmall; [done|]); try lia.
  pose proof (half_bounds (lo + hi)) as [? ?].
  rewrite (IH d2 lo ((lo + hi) / 2)) by lia.
  rewrite (IH d2 ((lo + hi) / 2) hi) by lia.
  done.
Qed.

Lemma slice_NoDup {A} (l : list A) (a b : nat) : NoDup l → NoDup (slice l a b).
Proof.
  intros Hnd. eapply sublist_NoDup; [exact Hnd|].
  unfold slice. etrans; [apply sublist_take|apply sublist_drop].
Qed.

(** * The claims *)

(** Claim C1, as amended.  With a decider that computes a monotone
    oracle (a BAD candidate stays BAD when more functions take their bad
    value), [bisect_profiles_wrapper] returns once validation passes.
    Unless there is exactly one common function, its [individuals] are
    exactly the common functions whose solitary substitution into [good]
    the oracle rules BAD.  When there is exactly one common function, it
    is the only individual, there is no range, and the oracle is not
    asked about its candidate: the trace ends with the validation
    queries. *)
Theorem C1_individuals_of_monotone_oracle
    (oracle : gmap string string → status_enum) (g b : gmap string string)
    (good bad : nat) (perform_check : bool) (s : state) :
  shuffle_permutes → pure_decider oracle →
  heap s !! good = Some g → heap s !! bad = Some b →
  monotone oracle g b (common_of g b) →
  (perform_check = true → oracle g = GOOD_STATUS ∧ oracle b = BAD_STATUS) →
  ∃ res s',
    bisect_profiles_wrapper good bad perform_check s = (Ok res, s') ∧
    (length (common_of g b) ≠ 1 →
     ∀ func, func ∈ individuals res ↔
             func ∈ common_of g b ∧ oracle (splice g b [func]) = BAD_STATUS) ∧
    (∀ func, common_of g b = [func] →
       res = Results [func] [] ∧
       trace s' = trace (if perform_check then after_bad good bad s else s)).
Proof.
  intros Hsh Hpure Hg Hb Hmono Hcheck.
  assert (∀ s0, heap s0 = heap s →
            ∃ res s',
              bisect_profiles_wrapper good bad false s0 = (Ok res, s') ∧
              (length (common_of g b) ≠ 1 →
               ∀ func, func ∈ individuals res ↔
                       func ∈ common_of g b ∧
                       oracle (splice g b [func]) = BAD_STATUS) ∧
              (∀ func, common_of g b = [func] →
                 res = Results [func] [] ∧ trace s' = trace s0)) as Hsearch.
  { intros s0 Hheap.
    destruct (wp_result _ _ _ (wrapper_search_spec good bad s0))
      as (o & s' & Hrun & _ & t & Htr & _ & HB & HC & HD).
    destruct (HB Hsh) as [res ->]. exists res, s'. split_and!; [done| |].
    - intros Hlen. apply (HC oracle g b); (done || by rewrite Hheap).
    - intros func Hone. destruct (HD func Hsh) as [Hres ->].
      { by rewrite Hheap, (deref_Some _ _ _ Hg), (deref_Some _ _ _ Hb). }
      injection Hres as ->. split; [done|]. by rewrite Htr, app_nil_r. }
  destruct perform_check; [|by apply Hsearch].
  destruct (Hcheck eq_refl) as [Hgood Hbad].
  rewrite wrapper_check_unfold. unfold bind. rewrite validate_run.
  assert (good_verdict good s = GOOD_STATUS) as ->.
  { unfold good_verdict. by rewrite Hpure, (deref_Some _ _ _ Hg). }
  assert (bad_verdict good bad s = BAD_STATUS) as ->.
  { unfold bad_verdict, good_verdict. rewrite Hpure. simpl.
    by rewrite (deref_Some _ _ _ Hb). }
  rewrite decide_False by (by intros ?). rewrite decide_False by (by intros ?).
  by apply Hsearch.
Qed.

(** Claim C2, as amended.  On an interval of at least two distinct
    functions defined in both profiles, [range_search] returns a range
    of at least two functions, whatever the decider answers; and if no
    probe of the run is ruled BAD, the range is the whole interval
    [common_funcs[lo:hi]], sorted, never the empty list. *)
Theorem C2_quiet_range_search_returns_interval (good bad : nat)
    (common_funcs : list string) (lo hi : nat) (s : state) :
  shuffle_permutes → 2 ≤ hi - lo → hi ≤ length common_funcs →
  NoDup (slice common_funcs lo hi) →
  covers s good bad (slice common_funcs lo hi) →
  ∃ l s' t,
    range_search good bad common_funcs lo hi s = (Ok l, s') ∧
    trace s' = trace s ++ t ∧
    2 ≤ length l ∧
    (Forall (λ v, v ≠ BAD_STATUS) (verdicts t) →
     l = sorted (slice common_funcs lo hi)).
Proof.
  intros Hsh Hbig Hhi Hnd Hc.
  pose proof (midpoint_inside lo hi Hbig) as [Hlm Hmh].
  assert (wp (range_search good bad common_funcs lo hi) s
            (rounds_post _NUM_RUNS_RANGE_SEARCH good bad common_funcs lo hi
               [] [] [] s)) as Hwp by apply range_search_rounds_spec.
  destruct (wp_result _ _ _ Hwp)
    as (o & s' & Hrun & _ & t & Htr & HA & HB & HC).
  unfold start_pools in HB, HC. cbn [fst snd] in HB, HC.
  rewrite <- (slice_app common_funcs lo ((lo + hi) / 2) hi) in Hnd, Hc by lia.
  destruct (HB Hsh) as [l ->]; [| |done|].
  { apply nonempty_length. rewrite slice_length; lia. }
  { apply nonempty_length. rewrite slice_length; lia. }
  exists l, s', t. split_and!; [done|done| |].
  - destruct (HA (or_introl eq_refl) l eq_refl) as [?|[_ Hzero]]; [done|].
    unfold _NUM_RUNS_RANGE_SEARCH in Hzero. discriminate Hzero.
  - intros Hq. rewrite <- (slice_app common_funcs lo ((lo + hi) / 2) hi) by lia.
    apply HC; [done| |done..]. split; [unfold _NUM_RUNS_RANGE_SEARCH; lia|].
    by apply NoDup_app in Hnd as (_ & _ & ?).
Qed.

(** Claim C3.  Every list in the [ranges] that
    [bisect_profiles_wrapper] returns has at least two elements; an
    interval of length one only ever reaches [individuals]. *)
Theorem C3_ranges_have_two_elements (good bad : nat) (perform_check : bool)
    (s : state) (res : results) (s' : state) :
  bisect_profiles_wrapper good bad perform_check s = (Ok res, s') →
  Forall (λ r, 2 ≤ length r) (ranges res).
Proof.
  assert (∀ s0, bisect_profiles_wrapper good bad false s0 = (Ok res, s') →
                Forall (λ r, 2 ≤ length r) (ranges res)) as Hsearch.
  { intros s0 Hrun.
    destruct (wp_run _ _ _ _ _ (wrapper_search_spec good bad s0) Hrun)
      as (_ & t & _ & HA & _). by apply HA. }
  destruct perform_check; [|by apply Hsearch].
  rewrite wrapper_check_unfold. unfold bind. rewrite validate_run.
  repeat case_decide; try done. apply Hsearch.
Qed.

(** Claim C5.  With [perform_check] enabled, [bisect_profiles_wrapper]
    raises before any search step (the final state is the one the
    validation queries left: nothing shuffled, nothing allocated, no
    further query) if and only if the decider rules the unmodified good
    profile not GOOD or the unmodified bad profile not BAD. *)
Theorem C5_validation_raises_iff_mislabeled (good bad : nat) (s : state) :
  shuffle_permutes →
  let '(o, s') := bisect_profiles_wrapper good bad true s in
  ((∃ e, o = Raise e) ↔
   (good_verdict good s ≠ GOOD_STATUS ∨ bad_verdict good bad s ≠ BAD_STATUS)) ∧
  ((∃ e, o = Raise e) →
   s' = after_good good s ∨ s' = after_bad good bad s).
Proof.
  intros Hsh. rewrite wrapper_check_unfold. unfold bind. rewrite validate_run.
  destruct (decide (good_verdict good s ≠ GOOD_STATUS)) as [Hg|Hg].
  { split; [|by left]. split; [by left|by eexists]. }
  destruct (decide (bad_verdict good bad s ≠ BAD_STATUS)) as [Hb|Hb].
  { split; [|by right]. split; [by right|by eexists]. }
  destruct (wp_result _ _ _ (wrapper_search_spec good bad (after_bad good bad s)))
    as (o & s' & -> & _ & t & _ & _ & HB & _).
  destruct (HB Hsh) as [res ->].
  split; [split|]; [by intros [e ?]|intros [?|?]; done|by intros [e ?]].
Qed.

(** Claim C6.  [bisect_profiles_wrapper], [range_search],
    [check_good_not_bad] and [check_bad_not_good] leave the good and the
    bad mapping as they found them, whatever the decider and the outcome:
    candidates are spliced into copies. *)
Theorem C6_inputs_unchanged (good bad : nat) (g b : gmap string string)
    (perform_check : bool) (common_funcs : list string) (lo hi : nat)
    (s : state) :
  heap s !! good = Some g → heap s !! bad = Some b →
  let kept (s' : state) :=
    heap s' !! good = Some g ∧ heap s' !! bad = Some b in
  kept (bisect_profiles_wrapper good bad perform_check s).2 ∧
  kept (range_search good bad common_funcs lo hi s).2 ∧
  kept (check_good_not_bad good bad s).2 ∧
  kept (check_bad_not_good good bad s).2.
Proof.
  intros Hg Hb kept.
  assert (∀ s', stable s s' → kept s') as Hkept.
  { intros s' Hst. split; by eapply stable_lookup. }
  split_and!; apply Hkept.
  - apply wrapper_stable.
  - by destruct (range_search_spec good bad common_funcs lo hi s) as [Hst _].
  - apply check_good_not_bad_stable.
  - apply check_bad_not_good_stable.
Qed.

(** Claim C7.  The candidate built as [bisect_profiles] builds it, by
    copying [good] and overwriting the given functions with their values
    in [bad], equals [good] for no functions, and for all the common
    functions agrees with [bad] on every one of them. *)
Theorem C7_candidate_round_trip (good bad : nat) (g b : gmap string string)
    (s : state) :
  heap s !! good = Some g → heap s !! bad = Some b →
  let candidate (funcs : list string) : M nat :=
    prof <- dict_copy good ;; overwrite prof bad funcs ;;; ret prof in
  (∃ prof s', candidate [] s = (Ok prof, s') ∧ heap s' !! prof = Some g) ∧
  (∃ prof s' p,
     candidate (common_of g b) s = (Ok prof, s') ∧
     heap s' !! prof = Some p ∧
     ∀ func, func ∈ common_of g b → p !! func = b !! func).
Proof.
  intros Hg Hb candidate.
  assert (Forall (λ func, is_Some (b !! func)) (common_of g b)) as Hdef.
  { rewrite Forall_forall. intros x Hx. by apply common_of_elem in Hx as [_ ?]. }
  assert (∀ funcs, Forall (λ func, is_Some (b !! func)) funcs →
            ∃ s', candidate funcs s = (Ok (length (heap s)), s') ∧
                  heap s' !! length (heap s) = Some (splice g b funcs)) as Hrun.
  { intros funcs Hall. unfold candidate, bind at 1, dict_copy.
    rewrite (deref_Some _ _ _ Hg). unfold bind at 1.
    pose proof (lookup_lt_Some _ _ _ Hb) as Hlt.
    rewrite (overwrite_run _ _ _ _ g b); simpl.
    - eexists. split; [reflexivity|]. simpl.
      rewrite list_lookup_insert_eq; [done|]. rewrite length_app. simpl. lia.
    - lia.
    - by rewrite lookup_app_r, Nat.sub_diag by lia.
    - by rewrite lookup_app_l.
    - done. }
  split.
  - destruct (Hrun []) as (s' & ? & ?); [constructor|]. by exists (length (heap s)), s'.
  - destruct (Hrun (common_of g b) Hdef) as (s' & ? & ?).
    exists (length (heap s)), s', (splice g b (common_of g b)).
    split_and!; [done..|]. intros func Hin.
    rewrite splice_lookup by done. by rewrite decide_True.
Qed.

(** What the border searches return, in full.  Both searches return.
    [find_upper_border] returns the midpoint of the last probe ruled
    BAD, or the original [hi] if no probe was.  [find_lower_border]
    returns the original [lo] if no probe was ruled BAD; otherwise it
    returns the lower end of the interval the last BAD probe was made
    on, except that when this lower end is zero it returns that probe's
    midpoint. *)
Theorem border_results_exact (good bad good_copy : nat) (funcs : list string)
    (lo hi : nat) (s : state) :
  good_copy ≠ good → good_copy ≠ bad → covers s good bad funcs → lo ≤ hi →
  (∃ r s' t,
     find_upper_border good bad good_copy funcs lo hi None s = (Ok r, s') ∧
     trace s' = trace s ++ t ∧
     r = claimed_upper lo hi (verdicts t)) ∧
  (∃ r s' t,
     find_lower_border good bad good_copy funcs lo hi None s = (Ok r, s') ∧
     trace s' = trace s ++ t ∧
     r = match last_bad (lower_probes lo hi (verdicts t)) with
         | None => lo
         | Some p => if decide (p_lo p = 0) then p_mid p else p_lo p
         end).
Proof.
  intros Hg Hb Hc Hle. split.
  - destruct (wp_result _ _ _
                (find_upper_border_spec good bad good_copy funcs lo hi None s))
      as (o & s' & Hrun & _ & t & Htr & Hres & Htot).
    destruct (Htot Hg Hb Hc Hle (Nat.le_refl _)) as [r ->].
    exists r, s', t. split_and!; [done..|]. by apply Hres.
  - destruct (wp_result _ _ _
                (find_lower_border_spec good bad good_copy funcs lo hi None s))
      as (o & s' & Hrun & _ & t & Htr & Hres & Htot).
    destruct (Htot Hg Hb Hc Hle (Nat.le_refl _)) as [r ->].
    exists r, s', t. split_and!; [done..|].
    rewrite (Hres r eq_refl). unfold lower_result.
    destruct (last_bad _) as [p|]; [|done].
    case_decide as Hp.
    + by rewrite Hp.
    + by apply py_or_pos, Nat.neq_0_lt_0.
Qed.

(** Claim C10.  When [good] and [bad] have exactly one function in
    common, [bisect_profiles_wrapper], once past validation, returns that
    function as the only individual and no range, whatever the decider
    would say of its candidate: beyond the validation queries the trace
    records no query. *)
Theorem C10_single_common_function (good bad : nat) (g b : gmap string string)
    (func : string) (perform_check : bool) (s : state) :
  shuffle_permutes →
  heap s !! good = Some g → heap s !! bad = Some b →
  (∀ x, is_Some (g !! x) ∧ is_Some (b !! x) ↔ x = func) →
  (perform_check = true →
   good_verdict good s = GOOD_STATUS ∧ bad_verdict good bad s = BAD_STATUS) →
  ∃ s',
    bisect_profiles_wrapper good bad perform_check s =
      (Ok (Results [func] []), s') ∧
    trace s' = trace (if perform_check then after_bad good bad s else s).
Proof.
  intros Hsh Hg Hb Hone Hcheck.
  assert (common_of g b = [func]) as Hcommon.
  { pose proof (common_of_NoDup g b) as Hnd.
    assert (∀ x, x ∈ common_of g b ↔ x = func) as Hin.
    { intros x. by rewrite common_of_elem. }
    destruct (common_of g b) as [|x [|y l]].
    - by pose proof (proj2 (Hin func) eq_refl) as ?%elem_of_nil.
    - f_equal. apply Hin. by left.
    - exfalso. apply NoDup_cons in Hnd as [Hx _]. apply Hx.
      rewrite (proj1 (Hin x)) by (by left).
      rewrite <- (proj1 (Hin y)) by (right; by left). by left. }
  assert (∀ s0, heap s0 = heap s →
            ∃ s', bisect_profiles_wrapper good bad false s0 =
                    (Ok (Results [func] []), s') ∧ trace s' = trace s0)
    as Hsearch.
  { intros s0 Hheap.
    destruct (wp_result _ _ _ (wrapper_search_spec good bad s0))
      as (o & s' & Hrun & _ & t & Htr & _ & _ & _ & HD).
    destruct (HD func Hsh) as [-> ->].
    { by rewrite Hheap, (deref_Some _ _ _ Hg), (deref_Some _ _ _ Hb). }
    exists s'. split; [done|]. by rewrite Htr, app_nil_r. }
  destruct perform_check; [|by apply Hsearch].
  destruct (Hcheck eq_refl) as [Hgood Hbad].
  rewrite wrapper_check_unfold. unfold bind. rewrite validate_run.
  rewrite Hgood, Hbad.
  rewrite decide_False by (by intros ?). rewrite decide_False by (by intros ?).
  by apply Hsearch.
Qed.

(** * Further properties of the search procedures *)

(** ** The boundary checks as single queries *)

(** The loop of a boundary check, when the copy, the source and the
    profile tested for membership are distinct objects and the source
    defines every key: the copy receives the source's value at each key
    the tested profile lacks, and nothing else changes. *)
Lemma check_loop_run (dst src other : nat) (keys : list string) (s : state)
    (acc sp op : gmap string string) :
  dst ≠ src → dst ≠ other →
  heap s !! dst = Some acc → heap s !! src = Some sp → heap s !! other = Some op →
  Forall (λ k, is_Some (sp !! k)) keys →
  ∃ acc',
    for_each keys (λ func,
      bind (dict_has other func) (λ present,
        if present : bool then ret tt
        else bind (dict_get src func) (λ v, dict_set dst func v))) s
    = (Ok tt, State (<[dst := acc']> (heap s)) (world s) (trace s)) ∧
    ∀ k, acc' !! k =
         if decide (k ∈ keys ∧ op !! k = None) then sp !! k else acc !! k.
Proof.
  intros Hsrc Hother.
  set (body := λ func : string,
         bind (dict_has other func) (λ present : bool,
           if present then ret tt
           else bind (dict_get src func) (λ v, dict_set dst func v))).
  revert s acc.
  induction keys as [|k0 keys IH]; intros s acc Hd Hs Ho Hall.
  - exists acc. split.
    + simpl. unfold ret. rewrite list_insert_id by done. by destruct s.
    + intros k. rewrite decide_False; [done|]. by intros [?%elem_of_nil _].
  - apply Forall_cons in Hall as [[v Hv] Hall].
    simpl. unfold bind at 1. unfold body at 1. unfold bind at 1, dict_has. simpl.
    rewrite (deref_Some _ _ _ Ho).
    destruct (op !! k0) as [w|] eqn:Hk0.
    + rewrite bool_decide_true by (by eexists). simpl.
      destruct (IH s acc Hd Hs Ho Hall) as (acc' & Hrun & Hacc).
      exists acc'. split; [exact Hrun|].
      intros k. rewrite Hacc.
      destruct (decide (k ∈ keys ∧ op !! k = None)) as [[Hin Hk]|Hn];
        destruct (decide (k ∈ k0 :: keys ∧ op !! k = None)) as [[Hin' Hk']|Hn'];
        try done.
      * destruct Hn'. split; [by right|done].
      * apply elem_of_cons in Hin' as [->|Hin']; [congruence|].
        destruct Hn. by split.
    + rewrite bool_decide_false by (by intros [? ?]). simpl.
      unfold bind at 1, dict_get. rewrite (deref_Some _ _ _ Hs), Hv. simpl.
      set (s1 := State (alter (insert k0 v) dst (heap s)) (world s) (trace s)).
      destruct (IH s1 (<[k0:=v]> acc)) as (acc' & Hrun & Hacc); [| | |done|].
      { simpl. by rewrite list_lookup_alter_eq, Hd. }
      { simpl. by rewrite list_lookup_alter_ne. }
      { simpl. by rewrite list_lookup_alter_ne. }
      exists acc'. split.
      * rewrite Hrun. simpl. f_equal. f_equal.
        apply list_eq. intros i. destruct (decide (i = dst)) as [->|Hi].
        -- rewrite !list_lookup_insert_eq; [done|..].
           ++ by eapply lookup_lt_Some.
           ++ rewrite length_alter. by eapply lookup_lt_Some.
        -- rewrite !list_lookup_insert_ne by done.
           by rewrite list_lookup_alter_ne.
      * intros k. rewrite Hacc.
        destruct (decide (k ∈ keys ∧ op !! k = None)) as [[Hin Hk]|Hn];
          destruct (decide (k ∈ k0 :: keys ∧ op !! k = None)) as [[Hin' Hk']|Hn'];
          try done.
        -- destruct Hn'. split; [by right|done].
        -- apply elem_of_cons in Hin' as [->|Hin'].
           ++ by rewrite lookup_insert_eq.
           ++ destruct Hn. by split.
        -- rewrite lookup_insert_ne; [done|]. intros <-.
           apply Hn'. split; [by left|done].
Qed.

(** What the loop leaves in the copy of [op] when [keys] are all the keys
    of [sp]: the union in which [op]'s values win. *)
Lemma union_by_lookup (op sp acc' : gmap string string) :
  (∀ k, acc' !! k =
        if decide (k ∈ (map_to_list sp).*1 ∧ op !! k = None)
        then sp !! k else op !! k) →
  acc' = op ∪ sp.
Proof.
  intros Hacc. apply map_eq. intros k. rewrite Hacc, lookup_union.
  destruct (op !! k) as [w|] eqn:Hk.
  - rewrite decide_False by (by intros [_ ?]). by destruct (sp !! k).
  - destruct (sp !! k) as [v|] eqn:Hv.
    + rewrite decide_True; [done|]. split; [|done].
      apply list_elem_of_fmap. exists (k, v). split; [done|].
      by apply elem_of_map_to_list.
    + by case_decide.
Qed.

Lemma map_keys_defined (sp : gmap string string) :
  Forall (λ k, is_Some (sp !! k)) (map_to_list sp).*1.
Proof.
  rewrite Forall_forall. intros k Hk.
  apply list_elem_of_fmap in Hk as ([k' v] & -> & Hin).
  apply elem_of_map_to_list in Hin. by eexists.
Qed.

(** [check_good_not_bad] asks the decider once, with the counter, about
    the bad profile completed by the functions only the good profile has
    (the union in which [bad]'s values win); it returns whether the verdict
    is GOOD, allocates that one candidate, and never raises. *)
Theorem check_good_not_bad_spec (good bad : nat) (g b : gmap string string)
    (s : state) :
  heap s !! good = Some g → heap s !! bad = Some b →
  check_good_not_bad good bad s =
    (Ok (bool_decide ((decider (b ∪ g) true (world s)).1 = GOOD_STATUS)),
     State (heap s ++ [b ∪ g]) (decider (b ∪ g) true (world s)).2
       (trace s ++ [Query (b ∪ g) true (decider (b ∪ g) true (world s)).1])).
Proof.
  intros Hg Hb. unfold check_good_not_bad.
  pose proof (lookup_lt_Some _ _ _ Hg) as Hglt.
  pose proof (lookup_lt_Some _ _ _ Hb) as Hblt.
  unfold bind at 1, dict_copy. rewrite (deref_Some _ _ _ Hb).
  unfold bind at 1, dict_keys. simpl.
  rewrite (deref_Some (heap s ++ [b]) good g) by (by rewrite lookup_app_l).
  unfold bind at 1.
  destruct (check_loop_run (length (heap s)) good bad (map_to_list g).*1
              (State (heap s ++ [b]) (world s) (trace s)) b g b)
    as (acc' & -> & Hacc); simpl.
  { lia. } { lia. }
  { by rewrite lookup_app_r, Nat.sub_diag by lia. }
  { by rewrite lookup_app_l. } { by rewrite lookup_app_l. }
  { apply map_keys_defined. }
  apply union_by_lookup in Hacc as ->.
  assert (<[length (heap s) := b ∪ g]> (heap s ++ [b]) = heap s ++ [b ∪ g]) as ->.
  { rewrite insert_app_r_alt by lia. by rewrite Nat.sub_diag. }
  unfold bind at 1, call_decider. simpl.
  assert (deref (heap s ++ [b ∪ g]) (length (heap s)) = b ∪ g) as ->.
  { apply deref_Some. by rewrite lookup_app_r, Nat.sub_diag by lia. }
  by destruct (decider (b ∪ g) true (world s)) as [v w'].
Qed.

(** [check_bad_not_good] asks the decider once, with the counter, about
    the good profile completed by the functions only the bad profile has;
    it returns whether the verdict is BAD, and never raises. *)
Theorem check_bad_not_good_spec (good bad : nat) (g b : gmap string string)
    (s : state) :
  heap s !! good = Some g → heap s !! bad = Some b →
  check_bad_not_good good bad s =
    (Ok (bool_decide ((decider (g ∪ b) true (world s)).1 = BAD_STATUS)),
     State (heap s ++ [g ∪ b]) (decider (g ∪ b) true (world s)).2
       (trace s ++ [Query (g ∪ b) true (decider (g ∪ b) true (world s)).1])).
Proof.
  intros Hg Hb. unfold check_bad_not_good.
  pose proof (lookup_lt_Some _ _ _ Hg) as Hglt.
  pose proof (lookup_lt_Some _ _ _ Hb) as Hblt.
  unfold bind at 1, dict_copy. rewrite (deref_Some _ _ _ Hg).
  unfold bind at 1, dict_keys. simpl.
  rewrite (deref_Some (heap s ++ [g]) bad b) by (by rewrite lookup_app_l).
  unfold bind at 1.
  destruct (check_loop_run (length (heap s)) bad good (map_to_list b).*1
              (State (heap s ++ [g]) (world s) (trace s)) g b g)
    as (acc' & -> & Hacc); simpl.
  { lia. } { lia. }
  { by rewrite lookup_app_r, Nat.sub_diag by lia. }
  { by rewrite lookup_app_l. } { by rewrite lookup_app_l. }
  { apply map_keys_defined. }
  apply union_by_lookup in Hacc as ->.
  assert (<[length (heap s) := g ∪ b]> (heap s ++ [g]) = heap s ++ [g ∪ b]) as ->.
  { rewrite insert_app_r_alt by lia. by rewrite Nat.sub_diag. }
  unfold bind at 1, call_decider. simpl.
  assert (deref (heap s ++ [g ∪ b]) (length (heap s)) = g ∪ b) as ->.
  { apply deref_Some. by rewrite lookup_app_r, Nat.sub_diag by lia. }
  by destruct (decider (g ∪ b) true (world s)) as [v w'].
Qed.

(** ** Edge cases of the search *)

(** With no function common to both profiles the wrapper, once past
    validation, returns empty results at once: nothing is shuffled,
    copied or asked. *)
Theorem wrapper_no_common_function (good bad : nat) (g b : gmap string string)
    (perform_check : bool) (s : state) :
  heap s !! good = Some g → heap s !! bad = Some b →
  (∀ x, ¬ (is_Some (g !! x) ∧ is_Some (b !! x))) →
  (perform_check = true →
   good_verdict good s = GOOD_STATUS ∧ bad_verdict good bad s = BAD_STATUS) →
  bisect_profiles_wrapper good bad perform_check s =
    (Ok (Results [] []), if perform_check then after_bad good bad s else s).
Proof.
  intros Hg Hb Hnone Hcheck.
  assert (common_of g b = []) as Hcommon.
  { destruct (common_of g b) as [|x l] eqn:Hc; [done|].
    destruct (Hnone x). apply common_of_elem. rewrite Hc. by left. }
  assert (∀ s0, heap s0 = heap s →
            bisect_profiles_wrapper good bad false s0 = (Ok (Results [] []), s0))
    as Hsearch.
  { intros s0 Hheap. unfold bisect_profiles_wrapper.
    unfold bind at 1. simpl. unfold bind at 1, dict_keys. simpl.
    unfold bind at 1. rewrite filter_m_dict_has. simpl.
    rewrite Hheap, (deref_Some _ _ _ Hg), (deref_Some _ _ _ Hb).
    change (sorted (filter (λ func, is_Some (b !! func)) (map_to_list g).*1))
      with (common_of g b).
    by rewrite Hcommon. }
  destruct perform_check; [|by apply Hsearch].
  destruct (Hcheck eq_refl) as [Hgood Hbad].
  rewrite wrapper_check_unfold. unfold bind. rewrite validate_run.
  rewrite Hgood, Hbad.
  rewrite decide_False by (by intros ?). rewrite decide_False by (by intros ?).
  by apply Hsearch.
Qed.

(** On an interval of fewer than two elements [range_search] never
    returns a range: its left pool is empty, so the first round raises
    (a missing key, [IndexError] on an empty range, or [ValueError] from
    [list.index]).  [bisect_profiles] calls it on longer intervals only. *)
Theorem range_search_short_interval_raises (good bad : nat)
    (common_funcs : list string) (lo hi : nat) (s : state) :
  hi - lo ≤ 1 →
  ∃ e s', range_search good bad common_funcs lo hi s = (Raise e, s').
Proof.
  intros Hshort.
  assert (wp (range_search good bad common_funcs lo hi) s
            (λ o _, ∃ e, o = Raise e)) as Hwp.
  { unfold range_search, _NUM_RUNS_RANGE_SEARCH.
    change 20 with (S 19). generalize 19. intros rounds. simpl.
    apply wp_bind, wp_ret. simpl.
    assert (slice common_funcs lo ((lo + hi) / 2) = []) as ->.
    { unfold slice. pose proof (half_bounds (lo + hi)) as [? ?].
      by replace ((lo + hi) / 2 - lo) with 0 by lia. }
    apply wp_round_borders; [|by eauto].
    intros u lw s' t _ _ _ _ _.
    apply wp_bind. unfold list_get at 1.
    destruct (_ !! 0) as [first|]; [|apply wp_raise; by eauto].
    apply wp_ret, wp_bind. unfold list_index at 1. simpl.
    apply wp_raise. by eauto. }
  destruct (wp_result _ _ _ Hwp) as (o & s' & Hrun & e & ->). by exists e, s'.
Qed.

(** The border searches stay inside their interval: on [lo < hi], with
    profiles that define the functions, [find_upper_border] returns an
    index in [(lo, hi]] and [find_lower_border] one in [[lo, hi)]. *)
Theorem border_results_in_bounds (good bad good_copy : nat)
    (funcs : list string) (lo hi : nat) (s : state) :
  good_copy ≠ good → good_copy ≠ bad → covers s good bad funcs → lo < hi →
  (∃ r s', find_upper_border good bad good_copy funcs lo hi None s = (Ok r, s') ∧
           lo < r ∧ r ≤ hi) ∧
  (∃ r s', find_lower_border good bad good_copy funcs lo hi None s = (Ok r, s') ∧
           lo ≤ r ∧ r < hi).
Proof.
  intros Hg Hb Hc Hlt. assert (lo ≤ hi) as Hle by lia. split.
  - destruct (wp_result _ _ _
                (find_upper_border_spec good bad good_copy funcs lo hi None s))
      as (o & s' & Hrun & _ & t & _ & Hres & Htot).
    destruct (Htot Hg Hb Hc Hle (Nat.le_refl _)) as [r ->].
    exists r, s'. split; [done|]. rewrite (Hres r eq_refl).
    destruct (upper_result_bounds lo hi None (verdicts t) Hle) as [->|?];
      simpl; lia.
  - destruct (wp_result _ _ _
                (find_lower_border_spec good bad good_copy funcs lo hi None s))
      as (o & s' & Hrun & _ & t & _ & Hres & Htot).
    destruct (Htot Hg Hb Hc Hle (Nat.le_refl _)) as [r ->].
    exists r, s'. split; [done|]. rewrite (Hres r eq_refl).
    destruct (lower_result_bounds lo hi None (verdicts t) Hle) as [->|?];
      simpl; lia.
Qed.

(** ** Which queries are counted *)

Lemma counted_ret {A} (a : A) : counted_only (ret a).
Proof. intros s. exists []. by rewrite app_nil_r. Qed.

Lemma counted_raise {A} (e : exn) : counted_only (raise e : M A).
Proof. intros s. exists []. by rewrite app_nil_r. Qed.

Lemma counted_silent {A} (m : M A) :
  (∀ s, trace (m s).2 = trace s) → counted_only m.
Proof. intros Hm s. exists []. by rewrite app_nil_r. Qed.

Lemma counted_bind {A B} (m : M A) (k : A → M B) :
  counted_only m → (∀ a, counted_only (k a)) → counted_only (bind m k).
Proof.
  intros Hm Hk s. destruct (Hm s) as (t1 & Ht1 & Hc1). unfold bind.
  destruct (m s) as [[a|e] s1]; simpl in *.
  - destruct (Hk a s1) as (t2 & Ht2 & Hc2).
    exists (t1 ++ t2). rewrite Ht2, Ht1, app_assoc. split; [done|].
    by apply Forall_app.
  - by exists t1.
Qed.

Lemma counted_call_decider (prof : nat) : counted_only (call_decider prof true).
Proof.
  intros s. unfold call_decider. destruct (decider _ _ _) as [v w']. simpl.
  eexists. split; [reflexivity|]. by repeat constructor.
Qed.

Lemma counted_random_shuffle (l : list string) : counted_only (random_shuffle l).
Proof.
  apply counted_silent. intros s. unfold random_shuffle.
  by destruct (shuffle _ _).
Qed.

Lemma counted_dict_get (d : nat) (k : string) : counted_only (dict_get d k).
Proof. apply counted_silent. intros s. unfold dict_get. by destruct (_ !! k). Qed.

Lemma counted_list_get (l : list string) (i : nat) : counted_only (list_get l i).
Proof. unfold list_get. destruct (_ !! _); [apply counted_ret|apply counted_raise]. Qed.

Lemma counted_list_get_last (l : list string) : counted_only (list_get_last l).
Proof.
  unfold list_get_last. destruct (last _); [apply counted_ret|apply counted_raise].
Qed.

Lemma counted_list_index (l : list string) (x : string) :
  counted_only (list_index l x).
Proof.
  unfold list_index. destruct (index_of _ _); [apply counted_ret|apply counted_raise].
Qed.

Lemma counted_for_each {A} (l : list A) (body : A → M unit) :
  (∀ x, counted_only (body x)) → counted_only (for_each l body).
Proof.
  intros Hbody. induction l as [|x l IH]; simpl; [apply counted_ret|].
  by apply counted_bind.
Qed.

Lemma counted_filter_m {A} (test : A → M bool) (l : list A) :
  (∀ x, counted_only (test x)) → counted_only (filter_m test l).
Proof.
  intros Htest. induction l as [|x l IH]; simpl; [apply counted_ret|].
  apply counted_bind; [done|]. intros keep.
  apply counted_bind; [done|]. intros rest. apply counted_ret.
Qed.

Lemma counted_dict_copy (d : nat) : counted_only (dict_copy d).
Proof. by apply counted_silent. Qed.

Lemma counted_dict_set (d : nat) (k v : string) : counted_only (dict_set d k v).
Proof. by apply counted_silent. Qed.

Lemma counted_dict_has (d : nat) (k : string) : counted_only (dict_has d k).
Proof. by apply counted_silent. Qed.

Lemma counted_dict_keys (d : nat) : counted_only (dict_keys d).
Proof. by apply counted_silent. Qed.

Lemma counted_overwrite (dst src : nat) (funcs : list string) :
  counted_only (overwrite dst src funcs).
Proof.
  apply counted_for_each. intros func.
  apply counted_bind; [apply counted_dict_get|]. intros v. apply counted_dict_set.
Qed.

(** Steps through a monadic term, one bind or branch at a time. *)
Ltac counted_step :=
  lazymatch goal with
  | |- counted_only (ret _) => apply counted_ret
  | |- counted_only (raise _) => apply counted_raise
  | |- counted_only (call_decider _ true) => apply counted_call_decider
  | |- counted_only (overwrite _ _ _) => apply counted_overwrite
  | |- counted_only (random_shuffle _) => apply counted_random_shuffle
  | |- counted_only (list_get _ _) => apply counted_list_get
  | |- counted_only (list_get_last _) => apply counted_list_get_last
  | |- counted_only (list_index _ _) => apply counted_list_index
  | |- counted_only (dict_get _ _) => apply counted_dict_get
  | |- counted_only (dict_copy _) => apply counted_dict_copy
  | |- counted_only (dict_set _ _ _) => apply counted_dict_set
  | |- counted_only (dict_has _ _) => apply counted_dict_has
  | |- counted_only (dict_keys _) => apply counted_dict_keys
  | |- counted_only (bind _ _) => apply counted_bind; [|intros ?]
  | |- counted_only (if decide _ then _ else _) => case_decide
  end.

Lemma counted_find_upper_border_rec (depth good bad good_copy : nat)
    (funcs : list string) (lo hi : nat) (lbv : option nat) :
  counted_only (find_upper_border_rec depth good bad good_copy funcs lo hi lbv).
Proof.
  revert lo hi lbv. induction depth as [|depth IH]; intros lo hi lbv; simpl;
    repeat counted_step; apply IH.
Qed.

Lemma counted_find_lower_border_rec (depth good bad good_copy : nat)
    (funcs : list string) (lo hi : nat) (lbv : option nat) :
  counted_only (find_lower_border_rec depth good bad good_copy funcs lo hi lbv).
Proof.
  revert lo hi lbv. induction depth as [|depth IH]; intros lo hi lbv; simpl;
    repeat counted_step; apply IH.
Qed.

Lemma counted_range_search_rounds (rounds good bad : nat)
    (common_funcs : list string) (lo hi : nat) (L R min : list string) :
  counted_only (range_search_rounds rounds good bad common_funcs lo hi L R min).
Proof.
  revert lo hi L R min. induction rounds as [|rounds IH]; intros lo hi L R min;
    simpl; [apply counted_ret|].
  apply counted_bind; [destruct min; repeat counted_step|]. intros pools.
  repeat counted_step;
    first [ apply counted_find_upper_border_rec
          | apply counted_find_lower_border_rec
          | apply IH ].
Qed.

Lemma counted_range_search (good bad : nat) (common_funcs : list string)
    (lo hi : nat) :
  counted_only (range_search good bad common_funcs lo hi).
Proof. apply counted_range_search_rounds. Qed.

Lemma counted_bisect_profiles_rec (depth good bad : nat)
    (common_funcs : list string) (lo hi : nat) :
  counted_only (bisect_profiles_rec depth good bad common_funcs lo hi).
Proof.
  revert lo hi. induction depth as [|depth IH]; intros lo hi;
    cbn [bisect_profiles_rec]; repeat counted_step.
  - apply IH.
  - apply IH.
  - apply counted_range_search.
  - destruct a7; apply counted_ret.
Qed.

Lemma counted_wrapper_search (good bad : nat) :
  counted_only (bisect_profiles_wrapper good bad false).
Proof.
  unfold bisect_profiles_wrapper. repeat counted_step.
  - apply counted_filter_m, counted_dict_has.
  - destruct (sorted _); repeat counted_step.
    apply counted_bisect_profiles_rec.
Qed.

(** The two validation queries of [bisect_profiles_wrapper] are made with
    [increment_counter=False]; every other query the wrapper, the range
    search, the bisection and the boundary checks make is counted. *)
Theorem only_validation_queries_are_uncounted (good bad : nat)
    (common_funcs : list string) (lo hi : nat) (s : state) :
  (∃ tv t,
     trace (bisect_profiles_wrapper good bad true s).2 = trace s ++ tv ++ t ∧
     length tv ≤ 2 ∧
     Forall (λ q, q_counted q = false) tv ∧
     Forall (λ q, q_counted q = true) t) ∧
  counted_only (bisect_profiles_wrapper good bad false) ∧
  counted_only (bisect_profiles good bad common_funcs lo hi) ∧
  counted_only (range_search good bad common_funcs lo hi) ∧
  counted_only (check_good_not_bad good bad) ∧
  counted_only (check_bad_not_good good bad).
Proof.
  split_and!.
  - rewrite wrapper_check_unfold. unfold bind. rewrite validate_run.
    set (q1 := Query (deref (heap s) good) false (good_verdict good s)).
    set (q2 := Query (deref (heap (after_good good s)) bad) false
                 (bad_verdict good bad s)).
    assert (trace (after_good good s) = trace s ++ [q1]) as Hq1 by done.
    assert (trace (after_bad good bad s) = trace s ++ [q1; q2]) as Hq2.
    { unfold after_bad. unfold after_good at 1. simpl.
      by rewrite <- app_assoc. }
    destruct (decide (good_verdict good s ≠ GOOD_STATUS)).
    { exists [q1], []. cbn [snd]. rewrite Hq1.
      split_and!; [done|simpl; lia|by repeat constructor|constructor]. }
    destruct (decide (bad_verdict good bad s ≠ BAD_STATUS)).
    { exists [q1; q2], []. cbn [snd]. rewrite Hq2.
      split_and!; [done|simpl; lia|by repeat constructor|constructor]. }
    destruct (counted_wrapper_search good bad (after_bad good bad s))
      as (t & Ht & Hc).
    exists [q1; q2], t. rewrite Ht, Hq2.
    split_and!; [by rewrite <- app_assoc|simpl; lia|by repeat constructor|done].
  - apply counted_wrapper_search.
  - apply counted_bisect_profiles_rec.
  - apply counted_range_search.
  - unfold check_good_not_bad. repeat counted_step.
    apply counted_for_each. intros func. repeat counted_step.
    destruct a1; repeat counted_step.
  - unfold check_bad_not_good. repeat counted_step.
    apply counted_for_each. intros func. repeat counted_step.
    destruct a1; repeat counted_step.
Qed.

(** ** What a search can return *)

Lemma returns_ret {A} (a : A) (P : A → Prop) : P a → returns (ret a) P.
Proof. intros HP s a' s' [= <- _]. exact HP. Qed.

Lemma returns_raise {A} (e : exn) (P : A → Prop) : returns (raise e) P.
Proof. intros s a s' [=]. Qed.

Lemma bind_Ok {A B} (m : M A) (k : A → M B) (s s' : state) (b : B) :
  bind m k s = (Ok b, s') → ∃ a s1, m s = (Ok a, s1) ∧ k a s1 = (Ok b, s').
Proof.
  unfold bind. destruct (m s) as [[a|e] s1]; [|intros [=]].
  intros Hk. by exists a, s1.
Qed.

Lemma returns_bind {A B} (m : M A) (k : A → M B) (Q : A → Prop) (P : B → Prop) :
  returns m Q → (∀ a, Q a → returns (k a) P) → returns (bind m k) P.
Proof.
  intros Hm Hk s b s' Hrun. apply bind_Ok in Hrun as (a & s1 & Hm1 & Hk1).
  eapply Hk; [|exact Hk1]. by eapply Hm.
Qed.

Lemma returns_any {A} (m : M A) : returns m (λ _, True).
Proof. by intros s a s' _. Qed.

Lemma returns_then {A B} (m : M A) (k : A → M B) (P : B → Prop) :
  (∀ a, returns (k a) P) → returns (bind m k) P.
Proof. intros Hk. apply (returns_bind m k (λ _, True)); [apply returns_any|auto]. Qed.

Lemma returns_random_shuffle (l : list string) :
  shuffle_permutes → returns (random_shuffle l) (λ l', l' ≡ₚ l).
Proof.
  intros Hperm s l' s'. unfold random_shuffle.
  specialize (Hperm l (world s)). destruct (shuffle l (world s)) as [l1 w1].
  by intros [= <- _].
Qed.

Lemma returns_list_get (l : list string) (i : nat) :
  returns (list_get l i) (λ x, l !! i = Some x).
Proof.
  unfold list_get. destruct (l !! i) as [x|]; [|apply returns_raise].
  by apply returns_ret.
Qed.

Lemma returns_list_get_last (l : list string) :
  returns (list_get_last l) (λ x, last l = Some x).
Proof.
  unfold list_get_last. destruct (last l) as [x|]; [|apply returns_raise].
  by apply returns_ret.
Qed.

Lemma returns_list_index (l : list string) (x : string) :
  returns (list_index l x) (λ i, l !! i = Some x).
Proof.
  unfold list_index. destruct (index_of x l) as [i|] eqn:Hi; [|apply returns_raise].
  apply returns_ret. by apply index_of_Some.
Qed.

Lemma crosses_perm (A B l l' : list string) :
  l' ≡ₚ l → crosses A B l → crosses A B l'.
Proof.
  intros Hperm (Hsub & Hnd & (x & Hx & HxA) & (y & Hy & HyB)).
  split_and!.
  - intros z Hz. apply Hsub. by rewrite <- Hperm.
  - intros HAB. rewrite Hperm. auto.
  - exists x. by rewrite Hperm.
  - exists y. by rewrite Hperm.
Qed.

Lemma returns_range_search_rounds (rounds good bad : nat)
    (common_funcs : list string) (lo hi : nat) (L R min A B : list string) :
  shuffle_permutes →
  match min with
  | [] => 0 < rounds ∧
          slice common_funcs lo ((lo + hi) / 2) = A ∧
          slice common_funcs ((lo + hi) / 2) hi = B
  | _ :: _ => L ⊆ A ∧ R ⊆ B ∧ (NoDup (A ++ B) → NoDup (L ++ R)) ∧ crosses A B min
  end →
  returns (range_search_rounds rounds good bad common_funcs lo hi L R min)
    (crosses A B).
Proof.
  intros Hperm. revert lo hi L R min.
  induction rounds as [|rounds IH]; intros lo hi L R min Hinv; simpl.
  { destruct min as [|m min]; [lia|]. destruct Hinv as (_ & _ & _ & Hmin).
    apply returns_ret. eapply crosses_perm; [apply sorted_perm|done]. }
  apply (returns_bind _ _
           (λ pools, pools.1 ⊆ A ∧ pools.2 ⊆ B ∧
                     (NoDup (A ++ B) → NoDup (pools.1 ++ pools.2)))).
  { destruct min as [|m min].
    - destruct Hinv as (_ & <- & <-). by apply returns_ret.
    - destruct Hinv as (HL & HR & Hnd & _).
      eapply returns_bind; [by apply returns_random_shuffle|]. intros L' HL'.
      eapply returns_bind; [by apply returns_random_shuffle|]. intros R' HR'.
      apply returns_ret. simpl. split_and!.
      + intros x. rewrite HL'. apply HL.
      + intros x. rewrite HR'. apply HR.
      + rewrite HL', HR'. exact Hnd. }
  intros [L' R'] (HL' & HR' & Hnd'). cbn [fst snd] in *.
  do 5 (apply returns_then; intros ?).
  set (curr := slice (L' ++ R') _ _).
  assert (curr ⊆ A ++ B) as Hcurr.
  { intros x Hx. apply slice_subseteq in Hx.
    apply elem_of_app in Hx as [Hx|Hx]; apply elem_of_app; auto. }
  assert (NoDup (A ++ B) → NoDup curr) as Hcurr_nd.
  { intros HAB. by apply slice_NoDup, Hnd'. }
  case_decide as Hshorter.
  - eapply returns_bind; [apply returns_list_get|]. intros first Hfirst.
    eapply returns_bind; [apply returns_list_index|]. intros i Hi.
    eapply returns_bind; [apply returns_list_get_last|]. intros final Hfinal.
    eapply returns_bind; [apply returns_list_index|]. intros j Hj.
    cbn beta in Hfirst, Hi, Hfinal, Hj.
    assert (crosses A B curr) as Hcross.
    { split_and!; [done|done|..].
      - exists first. split; [by eapply list_elem_of_lookup_2|].
        by eapply HL', list_elem_of_lookup_2.
      - exists final. split; [by apply last_Some_elem_of|].
        by eapply HR', list_elem_of_lookup_2. }
    case_decide.
    { apply returns_ret. eapply crosses_perm; [apply sorted_perm|done]. }
    apply IH. destruct curr as [|c curr'] eqn:Hc; [done|]. split_and!.
    + intros x Hx. by apply HL', (subseteq_drop i L').
    + intros x Hx. by apply HR', (subseteq_take (j + 1) R').
    + intros HAB. eapply sublist_NoDup; [by apply Hnd'|].
      apply sublist_app; [apply sublist_drop|apply sublist_take].
    + done.
  - apply IH. destruct min as [|m min]; [by destruct Hshorter; left|].
    destruct Hinv as (_ & _ & _ & Hmin). done.
Qed.

Lemma slice_nonempty {A} (l : list A) (a b : nat) (x : A) :
  x ∈ slice l a b → a < b.
Proof.
  unfold slice. intros Hx. destruct (decide (a < b)) as [|Hge]; [done|].
  replace (b - a) with 0 in Hx by lia. by apply elem_of_nil in Hx.
Qed.

Lemma returns_range_search (good bad : nat) (common_funcs : list string)
    (lo hi : nat) :
  shuffle_permutes →
  returns (range_search good bad common_funcs lo hi)
    (crosses (slice common_funcs lo ((lo + hi) / 2))
             (slice common_funcs ((lo + hi) / 2) hi)).
Proof.
  intros Hperm. apply returns_range_search_rounds; [done|].
  split_and!; [unfold _NUM_RUNS_RANGE_SEARCH; lia|done..].
Qed.

(** A range returned by [range_search] consists of functions of the
    interval, repeats none if the interval repeats none, and crosses the
    middle: it has a function of [common_funcs[lo:mid]] and one of
    [common_funcs[mid:hi]]. *)
Theorem range_search_result_crosses_border (good bad : nat)
    (common_funcs : list string) (lo hi : nat) (s s' : state) (l : list string) :
  shuffle_permutes →
  range_search good bad common_funcs lo hi s = (Ok l, s') →
  l ⊆ slice common_funcs lo hi ∧
  (NoDup (slice common_funcs lo hi) → NoDup l) ∧
  (∃ x, x ∈ l ∧ x ∈ slice common_funcs lo ((lo + hi) / 2)) ∧
  (∃ y, y ∈ l ∧ y ∈ slice common_funcs ((lo + hi) / 2) hi).
Proof.
  intros Hperm Hrun.
  pose proof (returns_range_search good bad common_funcs lo hi Hperm s l s' Hrun)
    as Hcross.
  clear Hrun.
  destruct Hcross as (Hsub & Hnd & (x & Hx & HxA) & (y & Hy & HyB)).
  pose proof (slice_nonempty _ _ _ _ HxA) as Hlo.
  pose proof (slice_nonempty _ _ _ _ HyB) as Hhi.
  rewrite slice_app in Hsub, Hnd by lia.
  split_and!; [done|done|by exists x|by exists y].
Qed.

Lemma elem_of_concat {A} (ls : list (list A)) (x : A) :
  x ∈ concat ls ↔ ∃ l, l ∈ ls ∧ x ∈ l.
Proof.
  induction ls as [|l ls IH]; simpl.
  - split; [by intros ?%elem_of_nil|by intros (l & ?%elem_of_nil & _)].
  - rewrite elem_of_app, IH. split.
    + intros [Hx|(l' & Hl' & Hx)]; [exists l|exists l'];
        (split; [|done]); [by left|by right].
    + intros (l' & Hl' & Hx). apply elem_of_cons in Hl' as [->|Hl']; eauto.
Qed.

Lemma within_empty (funcs : list string) : within funcs (Results [] []).
Proof.
  split_and!; simpl.
  - apply sublist_nil_l.
  - by intros x Hx%elem_of_nil.
  - intros _. constructor.
Qed.

Lemma within_reported (funcs : list string) (res : results) (x : string) :
  within funcs res → x ∈ reported res → x ∈ funcs.
Proof.
  intros (Hind & Hrng & _) Hx. apply elem_of_app in Hx as [Hx|Hx].
  - by eapply elem_of_sublist.
  - by apply Hrng.
Qed.

Lemma within_extend (A B : list string) (res result : results) :
  within A res → within B result → within (A ++ B) (extend_results res result).
Proof.
  intros HA HB.
  pose proof (within_reported A res) as HinA.
  pose proof (within_reported B result) as HinB.
  destruct HA as (Hind1 & Hrng1 & Hnd1), HB as (Hind2 & Hrng2 & Hnd2).
  split_and!; simpl.
  - by apply sublist_app.
  - rewrite concat_app. intros x Hx.
    apply elem_of_app in Hx as [Hx|Hx]; apply elem_of_app; auto.
  - intros (HndA & Hdisj & HndB)%NoDup_app.
    assert (reported (extend_results res result)
            ≡ₚ reported res ++ reported result) as ->.
    { unfold reported. simpl. rewrite concat_app, <- !(assoc_L (++)).
      f_equiv. rewrite !(assoc_L (++)). f_equiv. apply Permutation_app_comm. }
    apply NoDup_app. split_and!; [auto| |auto].
    intros x Hx1 Hx2. apply (Hdisj x); [apply HinA|apply HinB]; auto;
      by split_and!.
Qed.

Lemma within_range (funcs l : list string) :
  l ⊆ funcs → (NoDup funcs → NoDup l) → within funcs (Results [] [l]).
Proof.
  intros Hsub Hnd. split_and!; simpl.
  - apply sublist_nil_l.
  - by rewrite app_nil_r.
  - unfold reported. simpl. by rewrite app_nil_r.
Qed.

Lemma returns_bisect_profiles_rec (depth good bad : nat)
    (common_funcs : list string) (lo hi : nat) :
  shuffle_permutes → lo < hi →
  returns (bisect_profiles_rec depth good bad common_funcs lo hi)
    (within (slice common_funcs lo hi)).
Proof.
  intros Hperm. revert lo hi.
  induction depth as [|depth IH]; intros lo hi Hlt; cbn [bisect_profiles_rec].
  all: case_decide as Hsmall.
  1,3: eapply returns_bind; [apply returns_list_get|]; intros func Hfunc;
       cbn beta in Hfunc; apply returns_ret;
       replace hi with (S lo) by lia; rewrite (slice_singleton _ _ _ Hfunc);
       (split_and!; simpl; [done|by intros x Hx%elem_of_nil|]);
       unfold reported; simpl; by intros.
  { apply returns_raise. }
  pose proof (midpoint_inside lo hi) as Hmid.
  set (mid := (lo + hi) / 2) in *.
  assert (lo < mid ∧ mid < hi) as [Hlo Hhi] by (apply Hmid; lia).
  do 4 (apply returns_then; intros ?).
  apply returns_then. intros v1. apply returns_then. intros v2.
  apply (returns_bind _ _
           (λ res1, within (slice common_funcs lo mid) res1 ∧
                    (v1 ≠ BAD_STATUS → res1 = Results [] []))).
  { case_decide as Hv1.
    - eapply returns_bind; [by apply IH|]. intros result Hres.
      apply returns_ret. split; [|done].
      destruct result as [ind rng]. exact Hres.
    - apply returns_ret. split; [apply within_empty|done]. }
  intros res1 [Hres1 Hempty1].
  apply (returns_bind _ _
           (λ res2, within (slice common_funcs lo hi) res2 ∧
                    (v1 ≠ BAD_STATUS → v2 ≠ BAD_STATUS → res2 = Results [] []))).
  { case_decide as Hv2.
    - eapply returns_bind; [by apply IH|]. intros result Hres.
      apply returns_ret. split; [|done].
      rewrite <- (slice_app common_funcs lo mid hi) by lia.
      by apply within_extend.
    - apply returns_ret. split; [|auto].
      rewrite <- (slice_app common_funcs lo mid hi) by lia.
      assert (res1 = extend_results res1 (Results [] [])) as ->.
      { destruct res1. unfold extend_results. simpl. by rewrite !app_nil_r. }
      apply within_extend; [done|apply within_empty]. }
  intros res2 [Hres2 Hempty2].
  case_decide as Hgood; [|by apply returns_ret].
  destruct Hgood as [-> ->]. rewrite Hempty2 by done.
  intros s l s' Hrun. apply bind_Ok in Hrun as (range & s1 & Hrange & Hret).
  destruct (returns_range_search good bad common_funcs lo hi Hperm _ _ _ Hrange)
    as (Hsub & Hnd & _).
  fold mid in Hsub, Hnd. rewrite slice_app in Hsub, Hnd by lia.
  destruct range as [|r range]; injection Hret as <- _.
  - apply within_empty.
  - by apply within_range.
Qed.

(** No function is reported twice.  On a non-empty interval of distinct
    functions, the individuals [bisect_profiles] returns are functions of
    the interval in the interval's order, its ranges consist of functions
    of the interval, and no function occurs twice among the individuals
    and the ranges together. *)
Theorem bisect_reports_each_function_once (good bad : nat)
    (common_funcs : list string) (lo hi : nat) (s s' : state) (res : results) :
  shuffle_permutes → lo < hi → NoDup (slice common_funcs lo hi) →
  bisect_profiles good bad common_funcs lo hi s = (Ok res, s') →
  individuals res `sublist_of` slice common_funcs lo hi ∧
  Forall (λ r, r ⊆ slice common_funcs lo hi) (ranges res) ∧
  NoDup (individuals res ++ concat (ranges res)).
Proof.
  intros Hperm Hlt Hnd Hrun.
  destruct (returns_bisect_profiles_rec (hi - lo) good bad common_funcs lo hi
              Hperm Hlt s res s' Hrun) as (Hind & Hrng & Hnd').
  split_and!; [done| |by apply Hnd'].
  rewrite Forall_forall. intros r Hr x Hx. apply Hrng.
  apply elem_of_concat. by exists r.
Qed.

(** ** The wrapper's results *)

Lemma wrapper_Ok (good bad : nat) (perform_check : bool) (s s' : state)
    (res : results) :
  bisect_profiles_wrapper good bad perform_check s = (Ok res, s') →
  res = Results [] [] ∨
  ∃ common' s1 res0,
    (shuffle_permutes →
     common' ≡ₚ common_of (deref (heap s) good) (deref (heap s) bad)) ∧
    common_of (deref (heap s) good) (deref (heap s) bad) ≠ [] ∧
    bisect_profiles good bad common' 0 (length common') s1 = (Ok res0, s') ∧
    res = Results (sorted (individuals res0)) (sorted_lists (ranges res0)).
Proof.
  assert (∀ s0, heap s0 = heap s →
            bisect_profiles_wrapper good bad false s0 = (Ok res, s') →
            res = Results [] [] ∨
            ∃ common' s1 res0,
              (shuffle_permutes →
               common' ≡ₚ common_of (deref (heap s) good) (deref (heap s) bad)) ∧
              common_of (deref (heap s) good) (deref (heap s) bad) ≠ [] ∧
              bisect_profiles good bad common' 0 (length common') s1
                = (Ok res0, s') ∧
              res = Results (sorted (individuals res0))
                      (sorted_lists (ranges res0))) as Hsearch.
  { intros s0 Hheap. unfold bisect_profiles_wrapper.
    unfold bind at 1, ret at 1. unfold bind at 1, dict_keys at 1. cbn [fst snd].
    unfold bind at 1. rewrite filter_m_dict_has. rewrite Hheap.
    change (sorted (filter _ _))
      with (common_of (deref (heap s) good) (deref (heap s) bad)).
    destruct (common_of _ _) as [|c cs] eqn:Hc; [intros [= <- _]; by left|].
    intros Hrun. right.
    apply bind_Ok in Hrun as (common' & s1 & Hshuf & Hrun).
    apply bind_Ok in Hrun as (res0 & s2 & Hbis & Hret).
    injection Hret as <- <-. exists common', s1, res0. split_and!; [|done..].
    intros Hperm. unfold random_shuffle in Hshuf.
    specialize (Hperm (c :: cs) (world s0)).
    destruct (shuffle (c :: cs) (world s0)) as [l1 w1].
    by injection Hshuf as <- _. }
  destruct perform_check; [|by apply Hsearch].
  rewrite wrapper_check_unfold. intros Hrun.
  apply bind_Ok in Hrun as ([] & s0 & Hval & Hrun).
  apply (Hsearch s0); [|done].
  rewrite validate_run in Hval.
  repeat case_decide; [discriminate Hval..|]. by injection Hval as <-.
Qed.

(** No function is reported twice by the wrapper, and every function it
    reports is common to the two profiles. *)
Theorem wrapper_reports_common_functions_once (good bad : nat)
    (g b : gmap string string) (perform_check : bool) (s s' : state)
    (res : results) :
  shuffle_permutes →
  heap s !! good = Some g → heap s !! bad = Some b →
  bisect_profiles_wrapper good bad perform_check s = (Ok res, s') →
  NoDup (individuals res ++ concat (ranges res)) ∧
  ∀ func, func ∈ individuals res ++ concat (ranges res) →
          is_Some (g !! func) ∧ is_Some (b !! func).
Proof.
  intros Hperm Hg Hb Hrun.
  apply wrapper_Ok in Hrun as [->|(common' & s1 & res0 & Hp & Hne & Hrun & ->)].
  { simpl. split; [constructor|]. by intros func ?%elem_of_nil. }
  rewrite (deref_Some _ _ _ Hg), (deref_Some _ _ _ Hb) in Hp, Hne.
  specialize (Hp Hperm).
  assert (0 < length common') as Hpos.
  { rewrite Hp. destruct (common_of g b); [done|simpl; lia]. }
  assert (NoDup common') as Hnd by (rewrite Hp; apply common_of_NoDup).
  pose proof (returns_bisect_profiles_rec _ good bad common' 0 (length common')
                Hperm Hpos s1 res0 s' Hrun) as Hwithin.
  rewrite slice_all in Hwithin. cbn [individuals ranges].
  assert (sorted (individuals res0) ++ concat (sorted_lists (ranges res0))
          ≡ₚ reported res0) as Hsame.
  { unfold reported. by rewrite sorted_perm, sorted_lists_perm. }
  split.
  - rewrite Hsame. by apply Hwithin.
  - intros func Hfunc. rewrite Hsame in Hfunc. apply common_of_elem.
    rewrite <- Hp. by apply (within_reported common' res0).
Qed.

(** ** Results come sorted *)

Lemma insert_sorted_HdRel {A} (leb : A → A → bool) (x y : A) (l : list A) :
  leb y x = true → HdRel (λ a b, leb a b = true) y l →
  HdRel (λ a b, leb a b = true) y (insert_sorted leb x l).
Proof.
  intros Hyx Hhd. destruct l as [|z l]; simpl; [by constructor|].
  destruct (leb x z); constructor; [done|]. by inversion Hhd.
Qed.

Lemma insert_sorted_Sorted {A} (leb : A → A → bool) (x : A) (l : list A) :
  (∀ a b, leb a b = true ∨ leb b a = true) →
  Sorted (λ a b, leb a b = true) l →
  Sorted (λ a b, leb a b = true) (insert_sorted leb x l).
Proof.
  intros Htotal. induction 1 as [|y l Hsorted IH Hhd]; simpl.
  - by repeat constructor.
  - destruct (leb x y) eqn:Hxy.
    + by repeat constructor.
    + constructor; [done|]. apply insert_sorted_HdRel; [|done].
      destruct (Htotal x y); congruence.
Qed.

Lemma sort_by_Sorted {A} (leb : A → A → bool) (l : list A) :
  (∀ a b, leb a b = true ∨ leb b a = true) →
  Sorted (λ a b, leb a b = true) (sort_by leb l).
Proof.
  intros Htotal. induction l as [|x l IH]; simpl; [constructor|].
  by apply insert_sorted_Sorted.
Qed.

Lemma sort_by_fixed {A} (leb : A → A → bool) (l : list A) :
  Sorted (λ a b, leb a b = true) l → sort_by leb l = l.
Proof.
  induction 1 as [|x l Hsorted IH Hhd]; simpl; [done|].
  fold (sort_by leb l). rewrite IH.
  destruct Hhd as [|y l' Hxy]; simpl; [done|]. by rewrite Hxy.
Qed.

Lemma list_leb_total (l1 l2 : list string) :
  list_leb l1 l2 = true ∨ list_leb l2 l1 = true.
Proof.
  revert l2. induction l1 as [|x l1 IH]; intros [|y l2]; simpl; auto.
  repeat case_decide; subst; try congruence; [apply IH|apply String.leb_total].
Qed.

Lemma sorted_Sorted (l : list string) : Sorted str_le (sorted l).
Proof. apply (sort_by_Sorted str_leb), String.leb_total. Qed.

Lemma sorted_lists_Sorted (l : list (list string)) :
  Sorted list_le (sorted_lists l).
Proof. apply (sort_by_Sorted list_leb), list_leb_total. Qed.

Lemma returns_range_search_rounds_Sorted (rounds good bad : nat)
    (common_funcs : list string) (lo hi : nat) (L R min : list string) :
  returns (range_search_rounds rounds good bad common_funcs lo hi L R min)
    (Sorted str_le).
Proof.
  revert lo hi L R min. induction rounds as [|rounds IH]; intros lo hi L R min;
    simpl; [apply returns_ret, sorted_Sorted|].
  do 6 (apply returns_then; intros ?).
  case_decide; [|apply IH].
  do 4 (apply returns_then; intros ?).
  case_decide; [apply returns_ret, sorted_Sorted|apply IH].
Qed.

Lemma returns_bisect_profiles_rec_Sorted (depth good bad : nat)
    (common_funcs : list string) (lo hi : nat) :
  returns (bisect_profiles_rec depth good bad common_funcs lo hi)
    (λ res, Forall (Sorted str_le) (ranges res)).
Proof.
  revert lo hi. induction depth as [|depth IH]; intros lo hi;
    cbn [bisect_profiles_rec].
  all: case_decide;
    [apply returns_then; intros func; by apply returns_ret|].
  { apply returns_raise. }
  do 6 (apply returns_then; intros ?).
  apply (returns_bind _ _ (λ res, Forall (Sorted str_le) (ranges res))).
  { case_decide; [|by apply returns_ret].
    eapply returns_bind; [apply IH|]. intros result Hres. by apply returns_ret. }
  intros res1 Hres1.
  apply (returns_bind _ _ (λ res, Forall (Sorted str_le) (ranges res))).
  { case_decide; [|by apply returns_ret].
    eapply returns_bind; [apply IH|]. intros result Hres.
    apply returns_ret. simpl. by apply Forall_app. }
  intros res2 Hres2.
  case_decide; [|by apply returns_ret].
  eapply returns_bind; [apply returns_range_search_rounds_Sorted|].
  intros [|r range] Hrange; apply returns_ret; [done|].
  simpl. apply Forall_app. split; [done|]. by constructor.
Qed.

(** The wrapper's results come sorted: the individuals ascending, every
    range ascending, and the ranges in ascending lexicographic order; so
    sorting them again changes nothing. *)
Theorem wrapper_results_sorted (good bad : nat) (perform_check : bool)
    (s s' : state) (res : results) :
  bisect_profiles_wrapper good bad perform_check s = (Ok res, s') →
  Sorted str_le (individuals res) ∧
  Forall (Sorted str_le) (ranges res) ∧
  Sorted list_le (ranges res) ∧
  sorted (individuals res) = individuals res ∧
  Forall (λ r, sorted r = r) (ranges res) ∧
  sorted_lists (ranges res) = ranges res.
Proof.
  intros Hrun.
  assert (Sorted str_le (individuals res) ∧
          Forall (Sorted str_le) (ranges res) ∧
          Sorted list_le (ranges res)) as (Hind & Hrng & Hrngs).
  { apply wrapper_Ok in Hrun as [->|(common' & s1 & res0 & _ & _ & Hrun & ->)].
    { simpl. by repeat constructor. }
    simpl. split_and!; [apply sorted_Sorted| |apply sorted_lists_Sorted].
    rewrite sorted_lists_perm.
    exact (returns_bisect_profiles_rec_Sorted _ _ _ _ _ _ _ _ _ Hrun). }
  split_and!; [done|done|done| | |].
  - by apply (sort_by_fixed str_leb).
  - eapply Forall_impl; [exact Hrng|]. intros r Hr. by apply (sort_by_fixed str_leb).
  - by apply (sort_by_fixed list_leb).
Qed.

(** ** What a bisection step asks *)

Lemma bind_run {A B} (m : M A) (k : A → M B) (s s1 : state) (a : A) :
  m s = (Ok a, s1) → bind m k s = k a s1.
Proof. unfold bind. by intros ->. Qed.

Lemma call_decider_run (prof : nat) (increment_counter : bool) (s : state) :
  call_decider prof increment_counter s =
    (Ok (decider (deref (heap s) prof) increment_counter (world s)).1,
     State (heap s) (decider (deref (heap s) prof) increment_counter (world s)).2
       (trace s ++ [Query (deref (heap s) prof) increment_counter
                      (decider (deref (heap s) prof) increment_counter
                         (world s)).1])).
Proof. unfold call_decider. by destruct (decider _ _ _). Qed.

Lemma candidates_run {A} (good bad : nat) (g b : gmap string string)
    (funcs1 funcs2 : list string) (k : nat → nat → M A) (s : state) :
  heap s !! good = Some g → heap s !! bad = Some b →
  Forall (λ func, is_Some (b !! func)) funcs1 →
  Forall (λ func, is_Some (b !! func)) funcs2 →
  (lo_mid_prof <- dict_copy good ;;
   mid_hi_prof <- dict_copy good ;;
   overwrite lo_mid_prof bad funcs1 ;;;
   overwrite mid_hi_prof bad funcs2 ;;;
   k lo_mid_prof mid_hi_prof) s =
  k (length (heap s)) (S (length (heap s)))
    (State (heap s ++ [splice g b funcs1; splice g b funcs2]) (world s) (trace s)).
Proof.
  intros Hg Hb Hdef1 Hdef2.
  pose proof (lookup_lt_Some _ _ _ Hg) as Hglt.
  pose proof (lookup_lt_Some _ _ _ Hb) as Hblt.
  erewrite bind_run by reflexivity. erewrite bind_run by reflexivity.
  cbn [heap world trace]. rewrite (deref_Some _ _ _ Hg).
  assert (deref (heap s ++ [g]) good = g) as ->.
  { apply deref_Some. by rewrite lookup_app_l. }
  assert (length (heap s ++ [g]) = S (length (heap s))) as ->.
  { rewrite length_app. simpl. lia. }
  rewrite <- app_assoc. cbn [app].
  erewrite bind_run; cycle 1.
  { apply (overwrite_run _ _ _ _ g b); cbn [heap]; [lia| |by rewrite lookup_app_l|done].
    rewrite lookup_app_r by lia. by rewrite Nat.sub_diag. }
  cbn [heap world trace].
  erewrite bind_run; cycle 1.
  { apply (overwrite_run _ _ _ _ g b); cbn [heap]; [lia| | |done].
    - rewrite list_lookup_insert_ne by lia.
      rewrite lookup_app_r by lia. by replace (S _ - _) with 1 by lia.
    - rewrite list_lookup_insert_ne by lia. by rewrite lookup_app_l. }
  cbn [heap world trace]. do 2 f_equal.
  rewrite insert_app_r_alt, Nat.sub_diag by lia. cbn [insert list_insert].
  rewrite insert_app_r_alt by lia. by replace (S _ - _) with 1 by lia.
Qed.

Lemma queries_run {A} (good bad : nat) (g b : gmap string string)
    (funcs1 funcs2 : list string) (k : status_enum → status_enum → M A)
    (s : state) :
  heap s !! good = Some g → heap s !! bad = Some b →
  Forall (λ func, is_Some (b !! func)) funcs1 →
  Forall (λ func, is_Some (b !! func)) funcs2 →
  (lo_mid_prof <- dict_copy good ;;
   mid_hi_prof <- dict_copy good ;;
   overwrite lo_mid_prof bad funcs1 ;;;
   overwrite mid_hi_prof bad funcs2 ;;;
   lo_mid_verdict <- call_decider lo_mid_prof true ;;
   mid_hi_verdict <- call_decider mid_hi_prof true ;;
   k lo_mid_verdict mid_hi_verdict) s =
  k (decider (splice g b funcs1) true (world s)).1
    (decider (splice g b funcs2) true
       (decider (splice g b funcs1) true (world s)).2).1
    (State (heap s ++ [splice g b funcs1; splice g b funcs2])
       (decider (splice g b funcs2) true
          (decider (splice g b funcs1) true (world s)).2).2
       (trace s ++
        [Query (splice g b funcs1) true
           (decider (splice g b funcs1) true (world s)).1;
         Query (splice g b funcs2) true
           (decider (splice g b funcs2) true
              (decider (splice g b funcs1) true (world s)).2).1])).
Proof.
  intros Hg Hb Hdef1 Hdef2.
  rewrite (candidates_run good bad g b) by done.
  assert (∀ p1 p2 : gmap string string,
            deref (heap s ++ [p1; p2]) (length (heap s)) = p1) as Hfirst.
  { intros p1 p2. apply deref_Some.
    by rewrite lookup_app_r, Nat.sub_diag by lia. }
  assert (∀ p1 p2 : gmap string string,
            deref (heap s ++ [p1; p2]) (S (length (heap s))) = p2) as Hsecond.
  { intros p1 p2. apply deref_Some. rewrite lookup_app_r by lia.
    by replace (S _ - _) with 1 by lia. }
  erewrite bind_run by apply call_decider_run. cbn [heap world trace].
  rewrite !Hfirst.
  erewrite bind_run by apply call_decider_run. cbn [heap world trace].
  by rewrite !Hsecond, <- app_assoc.
Qed.

(** The two candidates a bisection step asks about.  On an interval of at
    least two functions that [bad] defines, [bisect_profiles] allocates
    two candidates, [good] with the functions of the lower half replaced
    by [bad]'s and [good] with those of the upper half replaced, asks the
    decider about the first and then the second, and carries on from the
    state in which the two answers are recorded. *)
Theorem bisect_asks_about_the_two_halves (good bad : nat)
    (g b : gmap string string) (common_funcs : list string) (lo hi : nat)
    (s : state) :
  2 ≤ hi - lo → heap s !! good = Some g → heap s !! bad = Some b →
  Forall (λ func, is_Some (b !! func)) (slice common_funcs lo hi) →
  let mid := (lo + hi) / 2 in
  let lo_mid_prof := splice g b (slice common_funcs lo mid) in
  let mid_hi_prof := splice g b (slice common_funcs mid hi) in
  let run1 := decider lo_mid_prof true (world s) in
  let run2 := decider mid_hi_prof true run1.2 in
  let rest : M results :=
    res1 <-
      (if decide (run1.1 = BAD_STATUS) then
         result <- bisect_profiles good bad common_funcs lo mid ;;
         ret (extend_results (Results [] []) result)
       else ret (Results [] [])) ;;
    res2 <-
      (if decide (run2.1 = BAD_STATUS) then
         result <- bisect_profiles good bad common_funcs mid hi ;;
         ret (extend_results res1 result)
       else ret res1) ;;
    if decide (run1.1 = GOOD_STATUS ∧ run2.1 = GOOD_STATUS) then
      problem_range <- range_search good bad common_funcs lo hi ;;
      match problem_range with
      | _ :: _ => ret (Results (individuals res2) (ranges res2 ++ [problem_range]))
      | [] => ret res2
      end
    else ret res2 in
  bisect_profiles good bad common_funcs lo hi s =
    rest (State (heap s ++ [lo_mid_prof; mid_hi_prof]) run2.2
            (trace s ++ [Query lo_mid_prof true run1.1;
                         Query mid_hi_prof true run2.1])).
Proof.
  intros Hbig Hg Hb Hdef mid lo_mid_prof mid_hi_prof run1 run2 rest.
  pose proof (half_bounds (lo + hi)) as [? ?].
  assert (Forall (λ func, is_Some (b !! func)) (slice common_funcs lo mid) ∧
          Forall (λ func, is_Some (b !! func)) (slice common_funcs mid hi))
    as [Hdef1 Hdef2].
  { apply Forall_app. unfold mid. by rewrite slice_app by lia. }
  pose proof (lookup_lt_Some _ _ _ Hg) as Hglt.
  unfold bisect_profiles.
  destruct (hi - lo) as [|depth] eqn:Hdepth; [lia|]. cbn [bisect_profiles_rec].
  rewrite decide_False by lia. fold mid.
  rewrite (bisect_depth_irrelevant depth (mid - lo)) by (unfold mid; lia).
  rewrite (bisect_depth_irrelevant depth (hi - mid)) by (unfold mid; lia).
  by rewrite (queries_run good bad g b).
Qed.

(** ** What follows the two verdicts *)

Lemma bind_ret_run {A} (m : M A) (f : A → A) (s : state) :
  (∀ a, f a = a) → bind m (λ a, ret (f a)) s = m s.
Proof.
  intros Hf. unfold bind, ret. destruct (m s) as [[a|e] s1]; [|done].
  by rewrite Hf.
Qed.

Lemma extend_results_empty_l (result : results) :
  extend_results (Results [] []) result = result.
Proof. by destruct result. Qed.

(** Claim C9.  A call of [bisect_profiles] on an interval of at least two
    functions asks the decider about the two half candidates; what it
    does next is decided by the two verdicts alone.  From the state in
    which the two answers are recorded, the call is: the recursive call
    on the lower half followed by the one on the upper half, when both
    verdicts are BAD; the recursive call on the one half ruled BAD, and
    nothing else, when exactly one is; the range search over the whole
    interval, and no recursive call, when both are GOOD; and nothing at
    all (an empty result, no further query or allocation) when neither
    is BAD and they are not both GOOD, that is when a half is ruled SKIP
    or PROBLEM and the other is not BAD.  So the call recurses into a
    half exactly when that half is ruled BAD, and searches for a range
    exactly when both are ruled GOOD. *)
Theorem C9_bisect_step (good bad : nat) (g b : gmap string string)
    (common_funcs : list string) (lo hi : nat) (s : state) :
  2 ≤ hi - lo → heap s !! good = Some g → heap s !! bad = Some b →
  Forall (λ func, is_Some (b !! func)) (slice common_funcs lo hi) →
  let mid := (lo + hi) / 2 in
  let lo_mid_prof := splice g b (slice common_funcs lo mid) in
  let mid_hi_prof := splice g b (slice common_funcs mid hi) in
  let run1 := decider lo_mid_prof true (world s) in
  let run2 := decider mid_hi_prof true run1.2 in
  let lo_mid_verdict := run1.1 in
  let mid_hi_verdict := run2.1 in
  let asked :=
    State (heap s ++ [lo_mid_prof; mid_hi_prof]) run2.2
      (trace s ++ [Query lo_mid_prof true lo_mid_verdict;
                   Query mid_hi_prof true mid_hi_verdict]) in
  let lower := bisect_profiles good bad common_funcs lo mid in
  let upper := bisect_profiles good bad common_funcs mid hi in
  let search := range_search good bad common_funcs lo hi in
  let call := bisect_profiles good bad common_funcs lo hi s in
  (lo_mid_verdict = BAD_STATUS → mid_hi_verdict = BAD_STATUS →
   call = (res1 <- lower ;; res2 <- upper ;; ret (extend_results res1 res2))
            asked) ∧
  (lo_mid_verdict = BAD_STATUS → mid_hi_verdict ≠ BAD_STATUS →
   call = lower asked) ∧
  (lo_mid_verdict ≠ BAD_STATUS → mid_hi_verdict = BAD_STATUS →
   call = upper asked) ∧
  (lo_mid_verdict = GOOD_STATUS → mid_hi_verdict = GOOD_STATUS →
   call = (problem_range <- search ;;
           ret (Results [] (match problem_range with
                            | [] => []
                            | _ :: _ => [problem_range]
                            end))) asked) ∧
  (lo_mid_verdict ≠ BAD_STATUS → mid_hi_verdict ≠ BAD_STATUS →
   ¬ (lo_mid_verdict = GOOD_STATUS ∧ mid_hi_verdict = GOOD_STATUS) →
   call = (Ok (Results [] []), asked)).
Proof.
  intros Hbig Hg Hb Hdef mid lo_mid_prof mid_hi_prof run1 run2
    lo_mid_verdict mid_hi_verdict asked lower upper search call.
  pose proof (half_bounds (lo + hi)) as [? ?].
  assert (Forall (λ func, is_Some (b !! func)) (slice common_funcs lo mid) ∧
          Forall (λ func, is_Some (b !! func)) (slice common_funcs mid hi))
    as [Hdef1 Hdef2].
  { apply Forall_app. unfold mid. by rewrite slice_app by lia. }
  assert (call =
          (res1 <-
             (if decide (lo_mid_verdict = BAD_STATUS) then
                result <- lower ;; ret (extend_results (Results [] []) result)
              else ret (Results [] [])) ;;
           res2 <-
             (if decide (mid_hi_verdict = BAD_STATUS) then
                result <- upper ;; ret (extend_results res1 result)
              else ret res1) ;;
           if decide (lo_mid_verdict = GOOD_STATUS ∧
                      mid_hi_verdict = GOOD_STATUS) then
             problem_range <- search ;;
             match problem_range with
             | _ :: _ =>
                 ret (Results (individuals res2) (ranges res2 ++ [problem_range]))
             | [] => ret res2
             end
           else ret res2) asked) as Hcall.
  { unfold call, lower, upper, bisect_profiles.
    destruct (hi - lo) as [|depth] eqn:Hdepth; [lia|]. cbn [bisect_profiles_rec].
    rewrite decide_False by lia. fold mid.
    rewrite (bisect_depth_irrelevant depth (mid - lo)) by (unfold mid; lia).
    rewrite (bisect_depth_irrelevant depth (hi - mid)) by (unfold mid; lia).
    by rewrite (queries_run good bad g b). }
  rewrite Hcall. clear Hcall.
  destruct (decide (lo_mid_verdict = BAD_STATUS)) as [Hbad1|Hbad1],
    (decide (mid_hi_verdict = BAD_STATUS)) as [Hbad2|Hbad2],
    (decide (lo_mid_verdict = GOOD_STATUS ∧ mid_hi_verdict = GOOD_STATUS))
      as [[Hgood1 Hgood2]|Hgood];
    try congruence.
  all: split_and!; intros; try congruence; try tauto.
  - unfold bind, ret. destruct (lower asked) as [[res1 | e1] s1]; [|done].
    rewrite extend_results_empty_l.
    by destruct (upper s1) as [[res2 | e2] s2].
  - unfold bind, ret. destruct (lower asked) as [[res1 | e1] s1]; [|done].
    by rewrite extend_results_empty_l.
  - unfold bind, ret. destruct (upper asked) as [[res2 | e2] s2]; [|done].
    by rewrite extend_results_empty_l.
  - unfold bind, ret. by destruct (search asked) as [[[|x range] | e] s1].
Qed.

(** ** Every individual was ruled BAD *)

Lemma bisect_rec_trace (depth good bad : nat) (common_funcs : list string)
    (lo hi : nat) (s s' : state) (o : outcome results) :
  bisect_profiles_rec depth good bad common_funcs lo hi s = (o, s') →
  stable s s' ∧ ∃ t, trace s' = trace s ++ t.
Proof.
  intros Hrun.
  destruct (wp_run _ _ _ _ _
              (bisect_profiles_rec_spec depth good bad common_funcs lo hi s) Hrun)
    as (Hst & t & Htr & _).
  split; [done|by exists t].
Qed.

Lemma list_get_Ok (l : list string) (i : nat) (s s1 : state) (x : string) :
  list_get l i s = (Ok x, s1) → l !! i = Some x ∧ s1 = s.
Proof.
  unfold list_get. destruct (l !! i) as [y|]; [|intros [=]].
  by intros [= <- <-].
Qed.

Lemma individuals_backed (depth good bad : nat) (g b : gmap string string)
    (common_funcs : list string) (lo hi : nat) (s s' : state) (res : results)
    (ts : list query) :
  lo < hi → heap s !! good = Some g → heap s !! bad = Some b →
  Forall (λ func, is_Some (b !! func)) (slice common_funcs lo hi) →
  bisect_profiles_rec depth good bad common_funcs lo hi s = (Ok res, s') →
  (hi - lo ≤ 1 → bad_query g b (slice common_funcs lo hi) ∈ ts) →
  ∃ t, trace s' = trace s ++ t ∧
       ∀ func, func ∈ individuals res → bad_query g b [func] ∈ ts ++ t.
Proof.
  revert lo hi s s' res ts.
  induction depth as [|depth IH]; intros lo hi s s' res ts Hlt Hg Hb Hdef Hrun Hin;
    cbn [bisect_profiles_rec] in Hrun.
  all: case_decide as Hsmall.
  1,3: apply bind_Ok in Hrun as (func & s1 & Hfunc & Hret);
       apply list_get_Ok in Hfunc as [Hfunc ->]; injection Hret as <- <-;
       exists []; rewrite !app_nil_r; (split; [done|]);
       intros f ->%list_elem_of_singleton;
       specialize (Hin Hsmall); replace hi with (S lo) in Hin by lia;
       by rewrite (slice_singleton _ _ _ Hfunc) in Hin.
  { discriminate Hrun. }
  pose proof (midpoint_inside lo hi) as Hmid.
  set (mid := (lo + hi) / 2) in *.
  assert (lo < mid ∧ mid < hi) as [Hlo Hhi] by (apply Hmid; lia).
  assert (Forall (λ func, is_Some (b !! func)) (slice common_funcs lo mid) ∧
          Forall (λ func, is_Some (b !! func)) (slice common_funcs mid hi))
    as [Hdef1 Hdef2].
  { apply Forall_app. by rewrite slice_app by lia. }
  rewrite (queries_run good bad g b) in Hrun by done.
  set (c1 := splice g b (slice common_funcs lo mid)) in *.
  set (c2 := splice g b (slice common_funcs mid hi)) in *.
  set (v1 := (decider c1 true (world s)).1) in *.
  set (w1 := (decider c1 true (world s)).2) in *.
  set (v2 := (decider c2 true w1).1) in *.
  set (s6 := State _ _ _) in Hrun.
  assert (trace s6 = trace s ++ [Query c1 true v1; Query c2 true v2]) as Htr6
    by done.
  assert (stable s s6) as Hst6 by (by eexists).
  (* one half, given what is known to have been asked *)
  assert (∀ a c v acc s_in res_out s_out known,
            (if decide (v = BAD_STATUS)
             then bind (bisect_profiles_rec depth good bad common_funcs a c)
                    (λ result, ret (extend_results acc result))
             else ret acc) s_in = (Ok res_out, s_out) →
            a < c → stable s s_in →
            Forall (λ func, is_Some (b !! func)) (slice common_funcs a c) →
            (v = BAD_STATUS → bad_query g b (slice common_funcs a c) ∈ known) →
            (∀ func, func ∈ individuals acc → bad_query g b [func] ∈ known) →
            stable s s_out ∧
            ∃ t, trace s_out = trace s_in ++ t ∧
                 ∀ func, func ∈ individuals res_out →
                         bad_query g b [func] ∈ known ++ t) as Hhalf.
  { intros a c v acc s_in res_out s_out known Hhalf Hac Hst_in Hdef_ac Hv Hacc.
    case_decide as Hbad.
    - apply bind_Ok in Hhalf as (result & s_rec & Hrec & Hret).
      injection Hret as <- <-.
      destruct (bisect_rec_trace _ _ _ _ _ _ _ _ _ Hrec) as [Hst_rec _].
      destruct (IH a c s_in s_rec result known Hac) as (t & Htr & Hall);
        [by eapply stable_lookup|by eapply stable_lookup|done|done|auto|].
      split; [by eapply stable_trans|]. exists t. split; [done|].
      intros func Hfunc. simpl in Hfunc.
      apply elem_of_app in Hfunc as [Hfunc|Hfunc]; [|by apply Hall].
      apply elem_of_app. left. by apply Hacc.
    - injection Hhalf as <- <-. split; [done|]. exists [].
      rewrite !app_nil_r. split; [done|]. exact Hacc. }
  apply bind_Ok in Hrun as (res1 & s7 & Hrun1 & Hrun).
  apply bind_Ok in Hrun as (res2 & s8 & Hrun2 & Hrun).
  destruct (Hhalf _ _ _ _ _ _ _ (ts ++ [Query c1 true v1; Query c2 true v2])
              Hrun1 Hlo Hst6 Hdef1) as (Hst7 & t7 & Htr7 & Hall7).
  { intros Hv1. apply elem_of_app. right. unfold bad_query. rewrite <- Hv1.
    by left. }
  { by intros func ?%elem_of_nil. }
  destruct (Hhalf _ _ _ _ _ _ _
              ((ts ++ [Query c1 true v1; Query c2 true v2]) ++ t7)
              Hrun2 Hhi Hst7 Hdef2) as (Hst8 & t8 & Htr8 & Hall8).
  { intros Hv2. apply elem_of_app. left. apply elem_of_app. right.
    unfold bad_query. rewrite <- Hv2. right. by left. }
  { exact Hall7. }
  assert (∃ t9, trace s' = trace s8 ++ t9 ∧ individuals res = individuals res2)
    as (t9 & Htr9 & Hind).
  { case_decide.
    - apply bind_Ok in Hrun as (range & s9 & Hrange & Hret).
      destruct (counted_range_search good bad common_funcs lo hi s8)
        as (t9 & Htr9 & _).
      rewrite Hrange in Htr9. exists t9.
      destruct range; by injection Hret as <- <-.
    - injection Hrun as <- <-. exists []. by rewrite app_nil_r. }
  exists ([Query c1 true v1; Query c2 true v2] ++ t7 ++ t8 ++ t9).
  split.
  - rewrite Htr9, Htr8, Htr7, Htr6. by rewrite <- !app_assoc.
  - intros func Hfunc. rewrite Hind in Hfunc. apply Hall8 in Hfunc.
    rewrite !app_assoc. apply elem_of_app. left.
    by rewrite <- !app_assoc in Hfunc |- *.
Qed.

(** Every individual is backed by a verdict.  On an interval of at least
    two functions that [bad] defines, whatever the decider, each
    individual [bisect_profiles] returns was ruled BAD on its own during
    the call: the trace of the call holds a counted query, with verdict
    BAD, of [good] with that one function replaced by [bad]'s. *)
Theorem individuals_were_ruled_bad (good bad : nat) (g b : gmap string string)
    (common_funcs : list string) (lo hi : nat) (s s' : state) (res : results) :
  2 ≤ hi - lo → heap s !! good = Some g → heap s !! bad = Some b →
  Forall (λ func, is_Some (b !! func)) (slice common_funcs lo hi) →
  bisect_profiles good bad common_funcs lo hi s = (Ok res, s') →
  ∃ t, trace s' = trace s ++ t ∧
       ∀ func, func ∈ individuals res →
               Query (splice g b [func]) true BAD_STATUS ∈ t.
Proof.
  intros Hbig Hg Hb Hdef Hrun.
  destruct (individuals_backed (hi - lo) good bad g b common_funcs lo hi s s'
              res []) as (t & Htr & Hall); [lia|done..|lia|].
  exists t. split; [done|]. intros func Hfunc. by apply Hall.
Qed.

(** ** The bisection returns *)

(** On a non-empty interval inside [common_funcs], over functions both
    profiles define, [bisect_profiles] returns a result whatever the
    decider answers: no lookup fails in it or in the range searches it
    starts, and its recursion ends. *)
Theorem bisect_profiles_returns (good bad : nat) (common_funcs : list string)
    (lo hi : nat) (s : state) :
  shuffle_permutes → lo < hi → hi ≤ length common_funcs →
  covers s good bad common_funcs →
  ∃ res s', bisect_profiles good bad common_funcs lo hi s = (Ok res, s').
Proof.
  intros Hperm Hlt Hhi Hcov.
  destruct (bisect_profiles good bad common_funcs lo hi s) as [o s'] eqn:Hrun.
  destruct (wp_run _ _ _ _ _
              (bisect_profiles_spec good bad common_funcs lo hi s) Hrun)
    as (_ & t & _ & _ & Hret & _).
  destruct Hret as [res ->]; [done..|]. by exists res, s'.
Qed.

(** ** Every range comes from two GOOD halves *)

Lemma found_at_mono (g b : gmap string string) (common_funcs : list string)
    (lo hi lo0 hi0 : nat) (t before after : list query) (r : list string) :
  lo0 ≤ lo → hi ≤ hi0 →
  found_at g b common_funcs lo hi t r →
  found_at g b common_funcs lo0 hi0 (before ++ t ++ after) r.
Proof.
  intros Hlo Hhi (lo' & hi' & ? & ? & ? & ? & Hq1 & Hq2).
  exists lo', hi'. split_and!; [lia|lia|done|done|..];
    apply elem_of_app; right; apply elem_of_app; by left.
Qed.

Lemma ranges_found (depth good bad : nat) (g b : gmap string string)
    (common_funcs : list string) (lo hi : nat) (s s' : state) (res : results) :
  shuffle_permutes →
  lo < hi → heap s !! good = Some g → heap s !! bad = Some b →
  Forall (λ func, is_Some (b !! func)) (slice common_funcs lo hi) →
  bisect_profiles_rec depth good bad common_funcs lo hi s = (Ok res, s') →
  ∃ t, trace s' = trace s ++ t ∧
       Forall (found_at g b common_funcs lo hi t) (ranges res).
Proof.
  intros Hperm. revert lo hi s s' res.
  induction depth as [|depth IH]; intros lo hi s s' res Hlt Hg Hb Hdef Hrun;
    cbn [bisect_profiles_rec] in Hrun.
  all: case_decide as Hsmall.
  1,3: apply bind_Ok in Hrun as (func & s1 & Hfunc & Hret);
       apply list_get_Ok in Hfunc as [Hfunc ->]; injection Hret as <- <-;
       exists []; rewrite !app_nil_r; by split.
  { discriminate Hrun. }
  pose proof (midpoint_inside lo hi) as Hmid.
  set (mid := (lo + hi) / 2) in *.
  assert (lo < mid ∧ mid < hi) as [Hlo Hhi] by (apply Hmid; lia).
  assert (Forall (λ func, is_Some (b !! func)) (slice common_funcs lo mid) ∧
          Forall (λ func, is_Some (b !! func)) (slice common_funcs mid hi))
    as [Hdef1 Hdef2].
  { apply Forall_app. by rewrite slice_app by lia. }
  rewrite (queries_run good bad g b) in Hrun by done.
  set (c1 := splice g b (slice common_funcs lo mid)) in *.
  set (c2 := splice g b (slice common_funcs mid hi)) in *.
  set (v1 := (decider c1 true (world s)).1) in *.
  set (w1 := (decider c1 true (world s)).2) in *.
  set (v2 := (decider c2 true w1).1) in *.
  set (s6 := State _ _ _) in Hrun.
  assert (trace s6 = trace s ++ [Query c1 true v1; Query c2 true v2]) as Htr6
    by done.
  assert (stable s s6) as Hst6 by (by eexists).
  (* one half *)
  assert (∀ a c v acc s_in res_out s_out,
            (if decide (v = BAD_STATUS)
             then bind (bisect_profiles_rec depth good bad common_funcs a c)
                    (λ result, ret (extend_results acc result))
             else ret acc) s_in = (Ok res_out, s_out) →
            a < c → stable s s_in →
            Forall (λ func, is_Some (b !! func)) (slice common_funcs a c) →
            stable s s_out ∧
            ∃ t result,
              trace s_out = trace s_in ++ t ∧
              ranges res_out = ranges acc ++ result ∧
              Forall (found_at g b common_funcs a c t) result) as Hhalf.
  { intros a c v acc s_in res_out s_out Hhalf Hac Hst_in Hdef_ac.
    case_decide as Hbad.
    - apply bind_Ok in Hhalf as (result & s_rec & Hrec & Hret).
      injection Hret as <- <-.
      destruct (bisect_rec_trace _ _ _ _ _ _ _ _ _ Hrec) as [Hst_rec _].
      destruct (IH a c s_in s_rec result Hac) as (t & Htr & Hall);
        [by eapply stable_lookup|by eapply stable_lookup|done|done|].
      split; [by eapply stable_trans|]. by exists t, (ranges result).
    - injection Hhalf as <- <-. split; [done|]. exists [], [].
      by rewrite !app_nil_r. }
  apply bind_Ok in Hrun as (res1 & s7 & Hrun1 & Hrun).
  apply bind_Ok in Hrun as (res2 & s8 & Hrun2 & Hrun).
  destruct (Hhalf _ _ _ _ _ _ _ Hrun1 Hlo Hst6 Hdef1)
    as (Hst7 & t7 & rs1 & Htr7 & Hrs1 & Hall7).
  destruct (Hhalf _ _ _ _ _ _ _ Hrun2 Hhi Hst7 Hdef2)
    as (Hst8 & t8 & rs2 & Htr8 & Hrs2 & Hall8).
  simpl in Hrs1. rewrite Hrs1 in Hrs2.
  set (t6 := [Query c1 true v1; Query c2 true v2]) in *.
  assert (∀ t9, Forall (found_at g b common_funcs lo hi (t6 ++ t7 ++ t8 ++ t9))
                  (ranges res2)) as Hres2.
  { intros t9. rewrite Hrs2. apply Forall_app. split.
    - eapply Forall_impl; [exact Hall7|]. intros r Hr.
      apply (found_at_mono g b common_funcs lo mid lo hi t7 t6 (t8 ++ t9));
        [lia..|done].
    - eapply Forall_impl; [exact Hall8|]. intros r Hr.
      rewrite (app_assoc t6 t7).
      apply (found_at_mono g b common_funcs mid hi lo hi t8 (t6 ++ t7) t9);
        [lia..|done]. }
  case_decide as Hgood.
  - apply bind_Ok in Hrun as (range & s9 & Hrange & Hret).
    destruct (counted_range_search good bad common_funcs lo hi s8)
      as (t9 & Htr9 & _).
    rewrite Hrange in Htr9. cbn [snd] in Htr9.
    exists (t6 ++ t7 ++ t8 ++ t9).
    assert (trace s9 = trace s ++ t6 ++ t7 ++ t8 ++ t9) as Htr.
    { rewrite Htr9, Htr8, Htr7, Htr6. by rewrite <- !app_assoc. }
    destruct range as [|x range]; injection Hret as <- <-; (split; [done|]);
      [done|].
    cbn [ranges]. apply Forall_app. split; [done|]. constructor; [|done].
    destruct Hgood as [Hv1 Hv2].
    destruct (returns_range_search good bad common_funcs lo hi Hperm _ _ _ Hrange)
      as (Hsub & _).
    fold mid in Hsub. rewrite slice_app in Hsub by lia.
    exists lo, hi. fold mid. split_and!; [lia|lia|lia|done|..].
    + apply elem_of_app. left. unfold t6. rewrite <- Hv1. by left.
    + apply elem_of_app. left. unfold t6. rewrite <- Hv2. right. by left.
  - injection Hrun as <- <-. exists (t6 ++ t7 ++ t8 ++ []). split; [|done].
    rewrite Htr8, Htr7, Htr6. by rewrite app_nil_r, <- !app_assoc.
Qed.

(** Every range is backed by two verdicts.  On an interval of at least
    two functions that [bad] defines, whatever the decider, each range
    [bisect_profiles] returns was found at a step of the call, on a
    sub-interval of at least two functions, whose two half candidates the
    decider had both ruled GOOD, and consists of functions of that
    sub-interval. *)
Theorem ranges_come_from_good_halves (good bad : nat) (g b : gmap string string)
    (common_funcs : list string) (lo hi : nat) (s s' : state) (res : results) :
  shuffle_permutes →
  2 ≤ hi - lo → heap s !! good = Some g → heap s !! bad = Some b →
  Forall (λ func, is_Some (b !! func)) (slice common_funcs lo hi) →
  bisect_profiles good bad common_funcs lo hi s = (Ok res, s') →
  ∃ t, trace s' = trace s ++ t ∧
       ∀ r, r ∈ ranges res →
         ∃ lo' hi',
           lo ≤ lo' ∧ hi' ≤ hi ∧ 2 ≤ hi' - lo' ∧
           r ⊆ slice common_funcs lo' hi' ∧
           Query (splice g b (slice common_funcs lo' ((lo' + hi') / 2)))
             true GOOD_STATUS ∈ t ∧
           Query (splice g b (slice common_funcs ((lo' + hi') / 2) hi'))
             true GOOD_STATUS ∈ t.
Proof.
  intros Hperm Hbig Hg Hb Hdef Hrun.
  destruct (ranges_found (hi - lo) good bad g b common_funcs lo hi s s' res)
    as (t & Htr & Hall); [done|lia|done..|].
  exists t. split; [done|]. intros r Hr.
  rewrite Forall_forall in Hall. exact (Hall r Hr).
Qed.

(** ** A border search resets its candidate *)

Lemma probe_run {A} (good_copy src1 src2 : nat) (p p1 p2 : gmap string string)
    (probed funcs : list string) (k : status_enum → M A) (s : state) :
  good_copy ≠ src1 → good_copy ≠ src2 →
  heap s !! good_copy = Some p →
  heap s !! src1 = Some p1 → heap s !! src2 = Some p2 →
  Forall (λ func, is_Some (p1 !! func)) probed →
  Forall (λ func, is_Some (p2 !! func)) funcs →
  (overwrite good_copy src1 probed ;;;
   verdict <- call_decider good_copy true ;;
   overwrite good_copy src2 funcs ;;;
   k verdict) s =
  k (decider (splice p p1 probed) true (world s)).1
    (State (<[good_copy := splice (splice p p1 probed) p2 funcs]> (heap s))
       (decider (splice p p1 probed) true (world s)).2
       (trace s ++ [Query (splice p p1 probed) true
                      (decider (splice p p1 probed) true (world s)).1])).
Proof.
  intros Hn1 Hn2 Hp H1 H2 Hdef1 Hdef2.
  pose proof (lookup_lt_Some _ _ _ Hp) as Hlt.
  erewrite bind_run by (by apply (overwrite_run _ _ _ _ p p1)).
  erewrite bind_run by apply call_decider_run. cbn [heap world trace].
  assert (deref (<[good_copy := splice p p1 probed]> (heap s)) good_copy
          = splice p p1 probed) as ->.
  { apply deref_Some. by rewrite list_lookup_insert_eq. }
  erewrite bind_run; cycle 1.
  { apply (overwrite_run _ _ _ _ (splice p p1 probed) p2); cbn [heap];
      [done| | |done].
    - by rewrite list_lookup_insert_eq.
    - by rewrite list_lookup_insert_ne. }
  cbn [heap world trace]. by rewrite list_insert_insert_eq.
Qed.

Lemma splice_outside (g b : gmap string string) (funcs : list string) (k : string) :
  k ∉ funcs → splice g b funcs !! k = g !! k.
Proof.
  unfold splice. revert g. induction funcs as [|func funcs IH]; intros g Hk;
    simpl; [done|].
  apply not_elem_of_cons in Hk as [Hne Hk]. rewrite IH by done.
  destruct (b !! func); [|done]. by rewrite lookup_insert_ne.
Qed.

Lemma candidate_reset_step (good_copy : nat) (p c src : gmap string string)
    (probed funcs : list string) (q : query) (s s1 s' : state) :
  probed ⊆ funcs →
  Forall (λ func, is_Some (src !! func)) funcs →
  (∀ k, k ∉ probed → c !! k = p !! k) →
  trace s1 = trace s ++ [q] →
  candidate_reset good_copy (splice c src funcs) src funcs s1 s' →
  candidate_reset good_copy p src funcs s s'.
Proof.
  intros Hsub Hdef Hc Htr1 (p' & t & Hp' & Htr & Hout & Hnone & Hsome).
  exists p', (q :: t). split_and!.
  - done.
  - rewrite Htr, Htr1. by rewrite <- app_assoc.
  - intros k Hk. rewrite Hout, splice_outside by done. apply Hc.
    intros Hin. by apply Hk, Hsub.
  - done.
  - intros _ func Hfunc. destruct t as [|q' t].
    + rewrite Hnone by done. rewrite splice_lookup by done.
      by rewrite decide_True.
    + by apply Hsome.
Qed.

Lemma candidate_reset_refl (good_copy : nat) (p src : gmap string string)
    (funcs : list string) (s : state) :
  heap s !! good_copy = Some p → candidate_reset good_copy p src funcs s s.
Proof.
  intros Hp. exists p, []. rewrite app_nil_r. by split_and!.
Qed.

Lemma find_upper_border_rec_reset (depth good bad good_copy : nat)
    (g b p : gmap string string) (funcs : list string) (lo hi : nat)
    (last_bad_val : option nat) (s : state) :
  good_copy ≠ good → good_copy ≠ bad →
  heap s !! good = Some g → heap s !! bad = Some b →
  heap s !! good_copy = Some p →
  Forall (λ func, is_Some (g !! func)) funcs →
  Forall (λ func, is_Some (b !! func)) funcs →
  candidate_reset good_copy p g funcs s
    (find_upper_border_rec depth good bad good_copy funcs lo hi last_bad_val s).2.
Proof.
  intros Hng Hnb. revert lo hi last_bad_val s p.
  induction depth as [|depth IH]; intros lo hi lbv s p Hg Hb Hp Hdg Hdb;
    cbn [find_upper_border_rec].
  all: case_decide as Hdone; [by apply candidate_reset_refl|].
  { by apply candidate_reset_refl. }
  assert (Forall (λ func, is_Some (b !! func))
            (slice funcs lo (average lo hi))) as Hdb'.
  { rewrite Forall_forall in *. intros x Hx.
    by apply Hdb, (slice_subseteq funcs lo (average lo hi)). }
  pose proof (lookup_lt_Some _ _ _ Hp) as Hlt.
  rewrite (probe_run good_copy bad good p b g) by done.
  set (c := splice p b (slice funcs lo (average lo hi))).
  set (v := (decider c true (world s)).1).
  set (s1 := State _ _ _).
  apply (candidate_reset_step good_copy p c g (slice funcs lo (average lo hi))
           funcs (Query c true v) s s1);
    [apply slice_subseteq|done|by intros k Hk; apply splice_outside|done|].
  case_decide; apply IH; unfold s1; cbn [heap];
    rewrite ?list_lookup_insert_eq, ?list_lookup_insert_ne by done; done.
Qed.

Lemma find_lower_border_rec_reset (depth good bad good_copy : nat)
    (g b p : gmap string string) (funcs : list string) (lo hi : nat)
    (last_bad_val : option nat) (s : state) :
  good_copy ≠ good → good_copy ≠ bad →
  heap s !! good = Some g → heap s !! bad = Some b →
  heap s !! good_copy = Some p →
  Forall (λ func, is_Some (g !! func)) funcs →
  Forall (λ func, is_Some (b !! func)) funcs →
  candidate_reset good_copy p b funcs s
    (find_lower_border_rec depth good bad good_copy funcs lo hi last_bad_val s).2.
Proof.
  intros Hng Hnb. revert lo hi last_bad_val s p.
  induction depth as [|depth IH]; intros lo hi lbv s p Hg Hb Hp Hdg Hdb;
    cbn [find_lower_border_rec].
  all: case_decide as Hdone; [by apply candidate_reset_refl|].
  { by apply candidate_reset_refl. }
  assert (Forall (λ func, is_Some (g !! func))
            (slice funcs lo (average lo hi))) as Hdg'.
  { rewrite Forall_forall in *. intros x Hx.
    by apply Hdg, (slice_subseteq funcs lo (average lo hi)). }
  pose proof (lookup_lt_Some _ _ _ Hp) as Hlt.
  rewrite (probe_run good_copy good bad p g b) by done.
  set (c := splice p g (slice funcs lo (average lo hi))).
  set (v := (decider c true (world s)).1).
  set (s1 := State _ _ _).
  apply (candidate_reset_step good_copy p c b (slice funcs lo (average lo hi))
           funcs (Query c true v) s s1);
    [apply slice_subseteq|done|by intros k Hk; apply splice_outside|done|].
  case_decide; apply IH; unfold s1; cbn [heap];
    rewrite ?list_lookup_insert_eq, ?list_lookup_insert_ne by done; done.
Qed.

(** The reset after each probe.  A border search leaves the candidate it
    was given as it found it outside [funcs], and untouched if it made
    no probe; once it has probed, [find_upper_border] leaves every
    function of [funcs] at its value in [good], and [find_lower_border]
    at its value in [bad], whatever the candidate held for them at
    entry. *)
Theorem border_search_resets_candidate (good bad good_copy : nat)
    (g b p : gmap string string) (funcs : list string) (lo hi : nat)
    (last_bad_val : option nat) (s : state) :
  good_copy ≠ good → good_copy ≠ bad →
  heap s !! good = Some g → heap s !! bad = Some b →
  heap s !! good_copy = Some p →
  Forall (λ func, is_Some (g !! func) ∧ is_Some (b !! func)) funcs →
  candidate_reset good_copy p g funcs s
    (find_upper_border good bad good_copy funcs lo hi last_bad_val s).2 ∧
  candidate_reset good_copy p b funcs s
    (find_lower_border good bad good_copy funcs lo hi last_bad_val s).2.
Proof.
  intros Hng Hnb Hg Hb Hp Hdef.
  assert (Forall (λ func, is_Some (g !! func)) funcs ∧
          Forall (λ func, is_Some (b !! func)) funcs) as [Hdg Hdb].
  { split; (eapply Forall_impl; [exact Hdef|]); by intros func [? ?]. }
  split.
  - by apply (find_upper_border_rec_reset _ good bad good_copy g b).
  - by apply (find_lower_border_rec_reset _ good bad good_copy g b).
Qed.

End Bisection.

Arguments State {W} heap world trace.
Arguments heap {W} s.
Arguments world {W} s.
Arguments trace {W} s.

(** ** The decider's exit codes *)

Section DeciderFacts.

Variable OS : Type.
Variable external_decider : string.
Variable write_temp : string → OS → string * OS.
Variable subprocess_call : list string → OS → Z * OS.
Variable os_remove : string → OS → OS.


(** The run counter counts verdicts.  [_num_runs] goes up by one when
    [run] returns a verdict and [increment_counter] is set, and stays as
    it is when [increment_counter] is off or the exit code is rejected;
    [run] returns a verdict exactly for the four exit codes of
    [status_enum]; and on either path the temporary file is removed after
    the script has run. *)
Theorem run_counts_verdicts (prof : gmap string string)
    (increment_counter : bool) (s : run_state OS) :
  let return_code :=
    exit_code OS external_decider write_temp subprocess_call prof s in
  let after :=
    run OS external_decider write_temp subprocess_call os_remove
      prof increment_counter s in
  let tmp := prof_to_tmp OS write_temp prof (os OS s) in
  ((∃ status, after.1 = Ok status ∧ status_value status = return_code) ↔
   return_code ∈ [0; 1; 125; 127]%Z) ∧
  _num_runs OS after.2 =
    match after.1 with
    | Ok _ => if increment_counter then S (_num_runs OS s) else _num_runs OS s
    | Raise _ => _num_runs OS s
    end ∧
  os OS after.2 =
    os_remove tmp.1 (subprocess_call [external_decider; tmp.1] tmp.2).2.
Proof.
  cbv zeta. unfold exit_code, run.
  destruct (prof_to_tmp OS write_temp prof (os OS s)) as [filename o1].
  cbn [fst snd].
  destruct (subprocess_call [external_decider; filename] o1) as [rc o2].
  cbn [fst snd].
  assert (rc ∈ [0; 1; 125; 127]%Z ∨ in_statuses rc = false) as [Hin|Hout].
  { destruct (decide (rc = 0%Z)) as [->|]; [left; set_solver|].
    destruct (decide (rc = 1%Z)) as [->|]; [left; set_solver|].
    destruct (decide (rc = 125%Z)) as [->|]; [left; set_solver|].
    destruct (decide (rc = 127%Z)) as [->|]; [left; set_solver|].
    right. unfold in_statuses, statuses, existsb, status_value.
    rewrite !(proj2 (Z.eqb_neq _ _)) by congruence. reflexivity. }
  - assert (∃ status, in_statuses rc = true ∧
                      status_enum_of rc = Some status ∧
                      status_value status = rc) as (status & -> & -> & Hval).
    { repeat (apply elem_of_cons in Hin as [->|Hin]);
        [by exists GOOD_STATUS|by exists BAD_STATUS|by exists SKIP_STATUS
        |by exists PROBLEM_STATUS|by apply elem_of_nil in Hin]. }
    simpl. split_and!; [|done..].
    split; [done|]. intros _. by exists status.
  - rewrite Hout. simpl. split_and!; [|done..].
    split; [by intros (status & [=] & _)|].
    intros Hin. exfalso.
    repeat (apply elem_of_cons in Hin as [->|Hin]); try discriminate Hout.
    by apply elem_of_nil in Hin.
Qed.

End DeciderFacts.

(** ** The claims on the example scenarios *)

Abbreviation s_abc := (State [good_abc; bad_abc] tt []).
Abbreviation s_ab := (State [good_ab; bad_ab] tt []).
Abbreviation s_ac := (State [good_ac; bad_a] tt []).
Abbreviation s_abcd := (State [good_abcd; bad_abcd; good_abcd] tt []).

Lemma no_shuffle_permutes : shuffle_permutes unit no_shuffle.
Proof. by intros l w. Qed.

Lemma decider_of_pure (oracle : gmap string string → status_enum) :
  pure_decider unit (decider_of oracle) oracle.
Proof. by intros p c w. Qed.

Lemma oracle_a9_monotone :
  monotone oracle_a9 good_abc bad_abc (common_of good_abc bad_abc).
Proof.
  intros funcs1 funcs2 H12 H2.
  assert (∀ funcs, funcs ⊆ common_of good_abc bad_abc →
            oracle_a9 (splice good_abc bad_abc funcs) = BAD_STATUS ↔ "a" ∈ funcs)
    as Hbad.
  { intros funcs Hsub. unfold oracle_a9. rewrite splice_lookup.
    - destruct (decide ("a" ∈ funcs)); by vm_compute.
    - rewrite Forall_forall. intros x Hx.
      by apply Hsub, common_of_elem in Hx as [_ ?]. }
  rewrite !Hbad; [by apply H12|done|by etrans].
Qed.

Lemma C1_witness :
  shuffle_permutes unit no_shuffle ∧
  pure_decider unit (decider_of oracle_a9) oracle_a9 ∧
  heap s_abc !! 0 = Some good_abc ∧ heap s_abc !! 1 = Some bad_abc ∧
  monotone oracle_a9 good_abc bad_abc (common_of good_abc bad_abc) ∧
  (true = true → oracle_a9 good_abc = GOOD_STATUS ∧ oracle_a9 bad_abc = BAD_STATUS) ∧
  ∃ res s',
    bisect_profiles_wrapper unit (decider_of oracle_a9) no_shuffle 0 1 true s_abc
      = (Ok res, s') ∧
    (length (common_of good_abc bad_abc) ≠ 1 →
     ∀ func, func ∈ individuals res ↔
             func ∈ common_of good_abc bad_abc ∧
             oracle_a9 (splice good_abc bad_abc [func]) = BAD_STATUS) ∧
    (∀ func, common_of good_abc bad_abc = [func] →
       res = Results [func] [] ∧
       trace s' = trace (after_bad unit (decider_of oracle_a9) 0 1 s_abc)).
Proof.
  assert (true = true →
          oracle_a9 good_abc = GOOD_STATUS ∧ oracle_a9 bad_abc = BAD_STATUS)
    as Hcheck by (by vm_compute).
  split_and!;
    [apply no_shuffle_permutes | apply decider_of_pure | reflexivity
    | reflexivity | apply oracle_a9_monotone | exact Hcheck |].
  exact (C1_individuals_of_monotone_oracle unit (decider_of oracle_a9) no_shuffle
           oracle_a9 good_abc bad_abc 0 1 true s_abc
           no_shuffle_permutes (decider_of_pure oracle_a9) eq_refl eq_refl
           oracle_a9_monotone Hcheck).
Defined.

Lemma covers_abc : covers unit s_abc 0 1 ["a"; "b"; "c"].
Proof. apply (bool_decide_unpack _). by vm_compute. Qed.

Lemma C2_witness :
  shuffle_permutes unit no_shuffle ∧ 2 ≤ 3 - 0 ∧ 3 ≤ length ["a"; "b"; "c"] ∧
  NoDup (slice ["a"; "b"; "c"] 0 3) ∧
  covers unit s_abc 0 1 (slice ["a"; "b"; "c"] 0 3) ∧
  ∃ l s' t,
    range_search unit (decider_of (oracle_always GOOD_STATUS)) no_shuffle
      0 1 ["a"; "b"; "c"] 0 3 s_abc = (Ok l, s') ∧
    trace s' = trace s_abc ++ t ∧
    2 ≤ length l ∧
    (Forall (λ v, v ≠ BAD_STATUS) (verdicts t) →
     l = sorted (slice ["a"; "b"; "c"] 0 3)).
Proof.
  assert (2 ≤ 3 - 0) as Hbig by (simpl; lia).
  assert (3 ≤ length ["a"; "b"; "c"]) as Hhi by (simpl; lia).
  assert (NoDup (slice ["a"; "b"; "c"] 0 3)) as Hnd.
  { apply (bool_decide_unpack _). by vm_compute. }
  split_and!; [apply no_shuffle_permutes|exact Hbig|exact Hhi|exact Hnd
              |apply covers_abc|].
  exact (C2_quiet_range_search_returns_interval unit
           (decider_of (oracle_always GOOD_STATUS)) no_shuffle 0 1
           ["a"; "b"; "c"] 0 3 s_abc no_shuffle_permutes Hbig Hhi Hnd covers_abc).
Defined.

Lemma C3_witness :
  bisect_profiles_wrapper unit (decider_of oracle_a9_b9) no_shuffle 0 1 true s_ab
    = (Ok (Results [] [["a"; "b"]]),
       (bisect_profiles_wrapper unit (decider_of oracle_a9_b9) no_shuffle
          0 1 true s_ab).2) ∧
  Forall (λ r, 2 ≤ length r) (ranges (Results [] [["a"; "b"]])).
Proof.
  assert (bisect_profiles_wrapper unit (decider_of oracle_a9_b9) no_shuffle
            0 1 true s_ab
          = (Ok (Results [] [["a"; "b"]]),
             (bisect_profiles_wrapper unit (decider_of oracle_a9_b9) no_shuffle
                0 1 true s_ab).2)) as Hrun by (by vm_compute).
  split; [exact Hrun|].
  exact (C3_ranges_have_two_elements unit (decider_of oracle_a9_b9) no_shuffle
           0 1 true s_ab _ _ Hrun).
Defined.

Lemma C5_witness :
  shuffle_permutes unit no_shuffle ∧
  let '(o, s') :=
    bisect_profiles_wrapper unit (decider_of (oracle_always GOOD_STATUS))
      no_shuffle 0 1 true s_abc in
  ((∃ e, o = Raise e) ↔
   (good_verdict unit (decider_of (oracle_always GOOD_STATUS)) 0 s_abc
      ≠ GOOD_STATUS ∨
    bad_verdict unit (decider_of (oracle_always GOOD_STATUS)) 0 1 s_abc
      ≠ BAD_STATUS)) ∧
  ((∃ e, o = Raise e) →
   s' = after_good unit (decider_of (oracle_always GOOD_STATUS)) 0 s_abc ∨
   s' = after_bad unit (decider_of (oracle_always GOOD_STATUS)) 0 1 s_abc).
Proof.
  split; [apply no_shuffle_permutes|].
  exact (C5_validation_raises_iff_mislabeled unit
           (decider_of (oracle_always GOOD_STATUS)) no_shuffle 0 1 s_abc
           no_shuffle_permutes).
Defined.

Lemma C6_witness :
  heap s_abc !! 0 = Some good_abc ∧ heap s_abc !! 1 = Some bad_abc ∧
  let kept (s' : state unit) :=
    heap s' !! 0 = Some good_abc ∧ heap s' !! 1 = Some bad_abc in
  kept (bisect_profiles_wrapper unit (decider_of oracle_a9) no_shuffle
          0 1 true s_abc).2 ∧
  kept (range_search unit (decider_of oracle_a9) no_shuffle
          0 1 ["a"; "b"; "c"] 0 3 s_abc).2 ∧
  kept (check_good_not_bad unit (decider_of oracle_a9) 0 1 s_abc).2 ∧
  kept (check_bad_not_good unit (decider_of oracle_a9) 0 1 s_abc).2.
Proof.
  split_and!; [reflexivity..|].
  exact (C6_inputs_unchanged unit (decider_of oracle_a9) no_shuffle 0 1
           good_abc bad_abc true ["a"; "b"; "c"] 0 3 s_abc eq_refl eq_refl).
Defined.

Lemma C7_witness :
  heap s_abc !! 0 = Some good_abc ∧ heap s_abc !! 1 = Some bad_abc ∧
  let candidate (funcs : list string) : M unit nat :=
    bind unit (dict_copy unit 0) (λ prof,
      bind unit (overwrite unit prof 1 funcs) (λ _, ret unit prof)) in
  (∃ prof s', candidate [] s_abc = (Ok prof, s') ∧
              heap s' !! prof = Some good_abc) ∧
  (∃ prof s' p,
     candidate (common_of good_abc bad_abc) s_abc = (Ok prof, s') ∧
     heap s' !! prof = Some p ∧
     ∀ func, func ∈ common_of good_abc bad_abc → p !! func = bad_abc !! func).
Proof.
  split_and!; [reflexivity..|].
  exact (C7_candidate_round_trip unit 0 1 good_abc bad_abc s_abc eq_refl eq_refl).
Defined.

Lemma covers_abcd : covers unit s_abcd 0 1 ["a"; "b"; "c"; "d"].
Proof. apply (bool_decide_unpack _). by vm_compute. Qed.

Lemma border_results_exact_witness :
  2 ≠ 0 ∧ 2 ≠ 1 ∧ covers unit s_abcd 0 1 ["a"; "b"; "c"; "d"] ∧ 0 ≤ 4 ∧
  (∃ r s' t,
     find_upper_border unit (decider_of (oracle_always BAD_STATUS)) 0 1 2
       ["a"; "b"; "c"; "d"] 0 4 None s_abcd = (Ok r, s') ∧
     trace s' = trace s_abcd ++ t ∧
     r = claimed_upper 0 4 (verdicts t)) ∧
  (∃ r s' t,
     find_lower_border unit (decider_of (oracle_always BAD_STATUS)) 0 1 2
       ["a"; "b"; "c"; "d"] 0 4 None s_abcd = (Ok r, s') ∧
     trace s' = trace s_abcd ++ t ∧
     r = match last_bad (lower_probes 0 4 (verdicts t)) with
         | None => 0
         | Some p => if decide (p_lo p = 0) then p_mid p else p_lo p
         end).
Proof.
  assert (2 ≠ 0) as H20 by lia. assert (2 ≠ 1) as H21 by lia.
  assert (0 ≤ 4) as H04 by lia.
  split_and!; [exact H20|exact H21|apply covers_abcd|exact H04|..];
    apply (border_results_exact unit (decider_of (oracle_always BAD_STATUS)) 0 1 2
             ["a"; "b"; "c"; "d"] 0 4 s_abcd H20 H21 covers_abcd H04).
Defined.

Lemma bad_abc_defines_slice :
  Forall (λ func, is_Some (bad_abc !! func)) (slice ["a"; "b"; "c"] 0 3).
Proof. apply (bool_decide_unpack _). by vm_compute. Qed.

Lemma C9_witness :
  2 ≤ 3 - 0 ∧
  heap s_abc !! 0 = Some good_abc ∧ heap s_abc !! 1 = Some bad_abc ∧
  Forall (λ func, is_Some (bad_abc !! func)) (slice ["a"; "b"; "c"] 0 3) ∧
  (decider_of oracle_a9 (splice good_abc bad_abc (slice ["a"; "b"; "c"] 0 1))
     true tt).1 = BAD_STATUS ∧
  (decider_of oracle_a9 (splice good_abc bad_abc (slice ["a"; "b"; "c"] 1 3))
     true tt).1 ≠ BAD_STATUS ∧
  bisect_profiles unit (decider_of oracle_a9) no_shuffle 0 1 ["a"; "b"; "c"] 0 3
    s_abc =
  bisect_profiles unit (decider_of oracle_a9) no_shuffle 0 1 ["a"; "b"; "c"] 0 1
    (State
       [good_abc; bad_abc;
        splice good_abc bad_abc (slice ["a"; "b"; "c"] 0 1);
        splice good_abc bad_abc (slice ["a"; "b"; "c"] 1 3)]
       tt
       [Query (splice good_abc bad_abc (slice ["a"; "b"; "c"] 0 1)) true
          BAD_STATUS;
        Query (splice good_abc bad_abc (slice ["a"; "b"; "c"] 1 3)) true
          GOOD_STATUS]).
Proof.
  assert (2 ≤ 3 - 0) as Hbig by (simpl; lia).
  assert ((decider_of oracle_a9
             (splice good_abc bad_abc (slice ["a"; "b"; "c"] 0 1)) true tt).1
          = BAD_STATUS) as Hv1 by (by vm_compute).
  assert ((decider_of oracle_a9
             (splice good_abc bad_abc (slice ["a"; "b"; "c"] 1 3)) true tt).1
          ≠ BAD_STATUS) as Hv2 by (by vm_compute).
  split_and!; [exact Hbig|reflexivity|reflexivity|apply bad_abc_defines_slice
              |exact Hv1|exact Hv2|].
  exact (proj1 (proj2
           (C9_bisect_step unit (decider_of oracle_a9) no_shuffle 0 1
              good_abc bad_abc ["a"; "b"; "c"] 0 3 s_abc
              Hbig eq_refl eq_refl bad_abc_defines_slice)) Hv1 Hv2).
Defined.

Lemma C10_witness :
  shuffle_permutes unit no_shuffle ∧
  heap s_ac !! 0 = Some good_ac ∧ heap s_ac !! 1 = Some bad_a ∧
  (∀ x, is_Some (good_ac !! x) ∧ is_Some (bad_a !! x) ↔ x = "a") ∧
  (true = true →
   good_verdict unit (decider_of oracle_needs_c) 0 s_ac = GOOD_STATUS ∧
   bad_verdict unit (decider_of oracle_needs_c) 0 1 s_ac = BAD_STATUS) ∧
  ∃ s',
    bisect_profiles_wrapper unit (decider_of oracle_needs_c) no_shuffle 0 1
      true s_ac = (Ok (Results ["a"] []), s') ∧
    trace s' = trace (after_bad unit (decider_of oracle_needs_c) 0 1 s_ac).
Proof.
  assert (∀ x, is_Some (good_ac !! x) ∧ is_Some (bad_a !! x) ↔ x = "a") as Hone.
  { intros x. unfold bad_a. simpl. rewrite insert_empty.
    split.
    - intros [_ [v Hv]]. by apply lookup_singleton_Some in Hv as [? _].
    - intros ->. split; apply (bool_decide_unpack _); by vm_compute. }
  assert (true = true →
          good_verdict unit (decider_of oracle_needs_c) 0 s_ac = GOOD_STATUS ∧
          bad_verdict unit (decider_of oracle_needs_c) 0 1 s_ac = BAD_STATUS)
    as Hcheck by (by vm_compute).
  split_and!; [apply no_shuffle_permutes|reflexivity|reflexivity
              |exact Hone|exact Hcheck|].
  exact (C10_single_common_function unit (decider_of oracle_needs_c) no_shuffle
           0 1 good_ac bad_a "a" true s_ac no_shuffle_permutes eq_refl eq_refl
           Hone Hcheck).
Defined.

(** An exit code outside the fixed set aborts the run with a message that
    names it (the "malformed oracle" scenario). *)
Example unexpected_exit_code_42 :
  (run unit "decider.sh" (λ text o, ("/tmp/prof", o)) (λ argv o, (42%Z, o))
     (λ path o, o) good_abc true (RunState unit 0 tt)).1
  = Raise (ValueError "Provided external script had unexpected return code 42").
Proof. reflexivity. Qed.

Lemma oracle_needs_c_monotone :
  monotone oracle_needs_c good_ac bad_a (common_of good_ac bad_a).
Proof.
  intros funcs1 funcs2 H12 H2 Hbad. exfalso.
  assert (funcs1 ⊆ common_of good_ac bad_a) as Hsub by (by etrans).
  unfold oracle_needs_c in Hbad. rewrite splice_lookup in Hbad.
  - destruct (decide ("c" ∈ funcs1)) as [Hin|Hin].
    + by apply Hsub, common_of_elem in Hin as [_ [? ?]].
    + by vm_compute in Hbad.
  - rewrite Forall_forall. intros x Hx.
    by apply Hsub, common_of_elem in Hx as [_ ?].
Qed.
Lemma monotone_never_back_to_good (oracle : gmap string string → status_enum)
    (g b : gmap string string) (common : list string) :
  monotone oracle g b common → never_back_to_good oracle g b common.
Proof.
  intros Hmono funcs1 funcs2 H12 H2 Hbad Hgood.
  rewrite (Hmono funcs1 funcs2 H12 H2 Hbad) in Hgood. discriminate Hgood.
Qed.

Abbreviation s_abc9 := (State [good_abc; bad_abc9] tt []).

Lemma oracle_b9_skips_never_back_to_good :
  never_back_to_good oracle_b9_skips good_abc bad_abc9
    (common_of good_abc bad_abc9).
Proof.
  intros funcs1 funcs2 H12 H2 Hbad Hgood.
  assert (∀ funcs, funcs ⊆ common_of good_abc bad_abc9 →
            splice good_abc bad_abc9 funcs !! "b" = Some "9" ↔ "b" ∈ funcs)
    as Hb.
  { intros funcs Hsub. rewrite splice_lookup.
    - destruct (decide ("b" ∈ funcs)); by vm_compute.
    - rewrite Forall_forall. intros x Hx.
      by apply Hsub, common_of_elem in Hx as [_ ?]. }
  assert (∀ p, oracle_b9_skips p ≠ GOOD_STATUS ↔ p !! "b" = Some "9") as Hgood_iff.
  { intros p. unfold oracle_b9_skips. repeat case_decide; split; done. }
  assert (funcs1 ⊆ common_of good_abc bad_abc9) as H1 by (by etrans).
  assert (oracle_b9_skips (splice good_abc bad_abc9 funcs1) ≠ GOOD_STATUS)
    as Hne by (by rewrite Hbad).
  apply Hgood_iff, Hb in Hne; [|done].
  revert Hgood. apply Hgood_iff, Hb; [done|]. by apply H12.
Qed.

(** Claim C1 as stated fails in two ways.  First, when there is exactly
    one common function it is reported although the oracle, which is
    monotone and passes the validation, rules its solitary substitution
    GOOD.  Second, with three common functions and an oracle that never
    flips a BAD candidate back to GOOD but turns one into SKIP (the
    candidate for [b], [c] is SKIP although the one for [b] alone is
    BAD), validation passes and [b] is not reported: a half ruled SKIP is
    not searched. *)
Lemma C1_individuals_counterexample :
  (shuffle_permutes unit no_shuffle ∧
   pure_decider unit (decider_of oracle_needs_c) oracle_needs_c ∧
   monotone oracle_needs_c good_ac bad_a (common_of good_ac bad_a) ∧
   never_back_to_good oracle_needs_c good_ac bad_a (common_of good_ac bad_a) ∧
   ∃ res s',
     bisect_profiles_wrapper unit (decider_of oracle_needs_c) no_shuffle 0 1
       true s_ac = (Ok res, s') ∧
     ¬ (∀ func, func ∈ individuals res ↔
                func ∈ common_of good_ac bad_a ∧
                oracle_needs_c (splice good_ac bad_a [func]) = BAD_STATUS)) ∧
  (shuffle_permutes unit no_shuffle ∧
   pure_decider unit (decider_of oracle_b9_skips) oracle_b9_skips ∧
   never_back_to_good oracle_b9_skips good_abc bad_abc9
     (common_of good_abc bad_abc9) ∧
   length (common_of good_abc bad_abc9) = 3 ∧
   oracle_b9_skips good_abc = GOOD_STATUS ∧
   oracle_b9_skips bad_abc9 = BAD_STATUS ∧
   oracle_b9_skips (splice good_abc bad_abc9 ["b"]) = BAD_STATUS ∧
   oracle_b9_skips (splice good_abc bad_abc9 ["b"; "c"]) = SKIP_STATUS ∧
   ∃ res s',
     bisect_profiles_wrapper unit (decider_of oracle_b9_skips) no_shuffle 0 1
       true s_abc9 = (Ok res, s') ∧
     ¬ (∀ func, func ∈ individuals res ↔
                func ∈ common_of good_abc bad_abc9 ∧
                oracle_b9_skips (splice good_abc bad_abc9 [func]) = BAD_STATUS)).
Proof.
  split.
  - split_and!; [apply no_shuffle_permutes|apply decider_of_pure
                |apply oracle_needs_c_monotone
                |apply monotone_never_back_to_good, oracle_needs_c_monotone|].
    exists (Results ["a"] []),
      (bisect_profiles_wrapper unit (decider_of oracle_needs_c) no_shuffle 0 1
         true s_ac).2.
    split; [by vm_compute|].
    intros Hall. destruct (proj1 (Hall "a")) as [_ Hbad]; [by left|].
    by vm_compute in Hbad.
  - split_and!; [apply no_shuffle_permutes|apply decider_of_pure
                |apply oracle_b9_skips_never_back_to_good
                |by vm_compute..|].
    exists (Results [] []),
      (bisect_profiles_wrapper unit (decider_of oracle_b9_skips) no_shuffle 0 1
         true s_abc9).2.
    split; [by vm_compute|].
    intros Hall.
    assert ("b" ∈ individuals (Results [] [])) as Hin.
    { apply (Hall "b"). split; [|by vm_compute].
      apply common_of_elem. split; apply (bool_decide_unpack _); by vm_compute. }
    by apply elem_of_nil in Hin.
Qed.

(** Claim C2 as stated fails: with a decider that rules every probe GOOD
    (twenty probes, one per round), [range_search] over three functions
    returns all three, not the empty list. *)
Lemma C2_quiet_search_counterexample :
  2 ≤ 3 - 0 ∧
  verdicts (trace (range_search unit (decider_of (oracle_always GOOD_STATUS))
                     no_shuffle 0 1 ["a"; "b"; "c"] 0 3 s_abc).2)
    = replicate 20 GOOD_STATUS ∧
  (range_search unit (decider_of (oracle_always GOOD_STATUS)) no_shuffle
     0 1 ["a"; "b"; "c"] 0 3 s_abc).1 = Ok ["a"; "b"; "c"] ∧
  (range_search unit (decider_of (oracle_always GOOD_STATUS)) no_shuffle
     0 1 ["a"; "b"; "c"] 0 3 s_abc).1 ≠ Ok [].
Proof.
  split_and!.
  - simpl. lia.
  - vm_compute. reflexivity.
  - vm_compute. reflexivity.
  - vm_compute. discriminate.
Qed.

(** The store in which the first round of [range_search] over the eight
    functions [a] to [h] calls [find_upper_border], and the one in which
    it then calls [find_lower_border], when every probe is ruled BAD: the
    candidate is [good] with the left pool, and then also the right pool
    up to the upper border 5, at their bad values.  The trace starts
    afresh. *)
Abbreviation s_ah_upper :=
  (State [good_ah; bad_ah; splice good_ah bad_ah ["a"; "b"; "c"; "d"]] tt []).
Abbreviation s_ah_lower :=
  (State [good_ah; bad_ah; splice good_ah bad_ah ["a"; "b"; "c"; "d"; "e"]]
     tt []).

(** Claim C8 at its failing input.  [range_search] over eight functions
    calls [find_upper_border] on [4, 8) and [find_lower_border] on
    [0, 4).  With every probe ruled BAD, [find_lower_border] probes the
    midpoints 2 and 3.  The last boundary a probe confirmed BAD is 3, the
    value the claim gives; the search returns 2, the lower end of the
    interval its second probe was made on, because on a BAD verdict it
    passes [lo] where [find_upper_border] passes [mid].
    [find_upper_border] probes the midpoints 6 and 5 and returns 5, the
    midpoint of its last BAD probe, as the claim says. *)
Theorem C8_lower_border_at_failing_input :
  (find_lower_border unit (decider_of (oracle_always BAD_STATUS)) 0 1 2
     ["a"; "b"; "c"; "d"; "e"; "f"; "g"; "h"] 0 4 None s_ah_lower).1 = Ok 2 ∧
  verdicts (trace (find_lower_border unit
                     (decider_of (oracle_always BAD_STATUS)) 0 1 2
                     ["a"; "b"; "c"; "d"; "e"; "f"; "g"; "h"] 0 4 None
                     s_ah_lower).2)
    = [BAD_STATUS; BAD_STATUS] ∧
  lower_probes 0 4 [BAD_STATUS; BAD_STATUS]
    = [Probe 0 2 BAD_STATUS; Probe 2 3 BAD_STATUS] ∧
  claimed_lower 0 4 [BAD_STATUS; BAD_STATUS] = 3 ∧
  (find_upper_border unit (decider_of (oracle_always BAD_STATUS)) 0 1 2
     ["a"; "b"; "c"; "d"; "e"; "f"; "g"; "h"] 4 8 None s_ah_upper).1 = Ok 5 ∧
  verdicts (trace (find_upper_border unit
                     (decider_of (oracle_always BAD_STATUS)) 0 1 2
                     ["a"; "b"; "c"; "d"; "e"; "f"; "g"; "h"] 4 8 None
                     s_ah_upper).2)
    = [BAD_STATUS; BAD_STATUS] ∧
  upper_probes 4 8 [BAD_STATUS; BAD_STATUS]
    = [Probe 4 6 BAD_STATUS; Probe 4 5 BAD_STATUS] ∧
  claimed_upper 4 8 [BAD_STATUS; BAD_STATUS] = 5.
Proof. split_and!; vm_compute; reflexivity. Qed.

(** ** The further properties on the example scenarios *)

Abbreviation s_c_a := (State [good_c; bad_a] tt []).

Lemma check_good_not_bad_witness :
  heap s_ac !! 0 = Some good_ac ∧ heap s_ac !! 1 = Some bad_a ∧
  check_good_not_bad unit (decider_of oracle_needs_c) 0 1 s_ac =
    (Ok (bool_decide ((decider_of oracle_needs_c (bad_a ∪ good_ac) true
                         (world s_ac)).1 = GOOD_STATUS)),
     State (heap s_ac ++ [bad_a ∪ good_ac])
       (decider_of oracle_needs_c (bad_a ∪ good_ac) true (world s_ac)).2
       (trace s_ac ++
        [Query (bad_a ∪ good_ac) true
           (decider_of oracle_needs_c (bad_a ∪ good_ac) true (world s_ac)).1])).
Proof.
  split_and!; [reflexivity..|].
  exact (check_good_not_bad_spec unit (decider_of oracle_needs_c)
           0 1 good_ac bad_a s_ac eq_refl eq_refl).
Defined.

Lemma check_bad_not_good_witness :
  heap s_ac !! 0 = Some good_ac ∧ heap s_ac !! 1 = Some bad_a ∧
  check_bad_not_good unit (decider_of oracle_a9) 0 1 s_ac =
    (Ok (bool_decide ((decider_of oracle_a9 (good_ac ∪ bad_a) true
                         (world s_ac)).1 = BAD_STATUS)),
     State (heap s_ac ++ [good_ac ∪ bad_a])
       (decider_of oracle_a9 (good_ac ∪ bad_a) true (world s_ac)).2
       (trace s_ac ++
        [Query (good_ac ∪ bad_a) true
           (decider_of oracle_a9 (good_ac ∪ bad_a) true (world s_ac)).1])).
Proof.
  split_and!; [reflexivity..|].
  exact (check_bad_not_good_spec unit (decider_of oracle_a9)
           0 1 good_ac bad_a s_ac eq_refl eq_refl).
Defined.

Lemma good_c_bad_a_disjoint :
  ∀ x, ¬ (is_Some (good_c !! x) ∧ is_Some (bad_a !! x)).
Proof.
  intros x [Hc Ha]. destruct (decide (x = "c")) as [->|Hx].
  - by vm_compute in Ha; destruct Ha.
  - unfold good_c in Hc. simpl in Hc.
    rewrite lookup_insert_ne, lookup_empty in Hc by done. by destruct Hc.
Qed.

Lemma wrapper_no_common_function_witness :
  heap s_c_a !! 0 = Some good_c ∧ heap s_c_a !! 1 = Some bad_a ∧
  (∀ x, ¬ (is_Some (good_c !! x) ∧ is_Some (bad_a !! x))) ∧
  (true = true →
   good_verdict unit (decider_of oracle_needs_c) 0 s_c_a = GOOD_STATUS ∧
   bad_verdict unit (decider_of oracle_needs_c) 0 1 s_c_a = BAD_STATUS) ∧
  bisect_profiles_wrapper unit (decider_of oracle_needs_c) no_shuffle 0 1 true
    s_c_a =
    (Ok (Results [] []), after_bad unit (decider_of oracle_needs_c) 0 1 s_c_a).
Proof.
  assert (true = true →
          good_verdict unit (decider_of oracle_needs_c) 0 s_c_a = GOOD_STATUS ∧
          bad_verdict unit (decider_of oracle_needs_c) 0 1 s_c_a = BAD_STATUS)
    as Hcheck by (by vm_compute).
  split_and!; [reflexivity|reflexivity|apply good_c_bad_a_disjoint|exact Hcheck|].
  exact (wrapper_no_common_function unit (decider_of oracle_needs_c) no_shuffle
           0 1 good_c bad_a true s_c_a eq_refl eq_refl good_c_bad_a_disjoint
           Hcheck).
Defined.

Lemma range_search_short_interval_witness :
  1 - 0 ≤ 1 ∧
  ∃ e s',
    range_search unit (decider_of oracle_a9) no_shuffle 0 1 ["a"; "b"; "c"] 0 1
      s_abc = (Raise e, s').
Proof.
  assert (1 - 0 ≤ 1) as Hshort by (simpl; lia).
  split; [exact Hshort|].
  exact (range_search_short_interval_raises unit (decider_of oracle_a9)
           no_shuffle 0 1 ["a"; "b"; "c"] 0 1 s_abc Hshort).
Defined.

Lemma border_results_in_bounds_witness :
  2 ≠ 0 ∧ 2 ≠ 1 ∧ covers unit s_abcd 0 1 ["a"; "b"; "c"; "d"] ∧ 0 < 4 ∧
  (∃ r s',
     find_upper_border unit (decider_of oracle_a9_b9) 0 1 2
       ["a"; "b"; "c"; "d"] 0 4 None s_abcd = (Ok r, s') ∧ 0 < r ∧ r ≤ 4) ∧
  (∃ r s',
     find_lower_border unit (decider_of oracle_a9_b9) 0 1 2
       ["a"; "b"; "c"; "d"] 0 4 None s_abcd = (Ok r, s') ∧ 0 ≤ r ∧ r < 4).
Proof.
  assert (2 ≠ 0) as H20 by lia. assert (2 ≠ 1) as H21 by lia.
  assert (0 < 4) as H04 by lia.
  split_and!; [exact H20|exact H21|apply covers_abcd|exact H04|..];
    apply (border_results_in_bounds unit (decider_of oracle_a9_b9)
             0 1 2 ["a"; "b"; "c"; "d"] 0 4 s_abcd H20 H21 covers_abcd H04).
Defined.

Lemma range_search_crosses_border_witness :
  shuffle_permutes unit no_shuffle ∧
  range_search unit (decider_of oracle_a9_b9) no_shuffle 0 1 ["a"; "b"] 0 2 s_ab
    = (Ok ["a"; "b"],
       (range_search unit (decider_of oracle_a9_b9) no_shuffle 0 1
          ["a"; "b"] 0 2 s_ab).2) ∧
  ["a"; "b"] ⊆ slice ["a"; "b"] 0 2 ∧
  (NoDup (slice ["a"; "b"] 0 2) → NoDup ["a"; "b"]) ∧
  (∃ x, x ∈ ["a"; "b"] ∧ x ∈ slice ["a"; "b"] 0 ((0 + 2) / 2)) ∧
  (∃ y, y ∈ ["a"; "b"] ∧ y ∈ slice ["a"; "b"] ((0 + 2) / 2) 2).
Proof.
  assert (range_search unit (decider_of oracle_a9_b9) no_shuffle 0 1
            ["a"; "b"] 0 2 s_ab
          = (Ok ["a"; "b"],
             (range_search unit (decider_of oracle_a9_b9) no_shuffle 0 1
                ["a"; "b"] 0 2 s_ab).2)) as Hrun by (by vm_compute).
  split; [apply no_shuffle_permutes|]. split; [exact Hrun|].
  exact (range_search_result_crosses_border unit (decider_of oracle_a9_b9)
           no_shuffle 0 1 ["a"; "b"] 0 2 s_ab _ ["a"; "b"]
           no_shuffle_permutes Hrun).
Defined.

Lemma bisect_reports_each_function_once_witness :
  shuffle_permutes unit no_shuffle ∧ 0 < 3 ∧
  NoDup (slice ["a"; "b"; "c"] 0 3) ∧
  bisect_profiles unit (decider_of oracle_a9) no_shuffle 0 1 ["a"; "b"; "c"] 0 3
    s_abc
    = (Ok (Results ["a"] []),
       (bisect_profiles unit (decider_of oracle_a9) no_shuffle 0 1
          ["a"; "b"; "c"] 0 3 s_abc).2) ∧
  individuals (Results ["a"] []) `sublist_of` slice ["a"; "b"; "c"] 0 3 ∧
  Forall (λ r, r ⊆ slice ["a"; "b"; "c"] 0 3) (ranges (Results ["a"] [])) ∧
  NoDup (individuals (Results ["a"] []) ++ concat (ranges (Results ["a"] []))).
Proof.
  assert (0 < 3) as Hlt by lia.
  assert (NoDup (slice ["a"; "b"; "c"] 0 3)) as Hnd.
  { apply (bool_decide_unpack _). by vm_compute. }
  assert (bisect_profiles unit (decider_of oracle_a9) no_shuffle 0 1
            ["a"; "b"; "c"] 0 3 s_abc
          = (Ok (Results ["a"] []),
             (bisect_profiles unit (decider_of oracle_a9) no_shuffle 0 1
                ["a"; "b"; "c"] 0 3 s_abc).2)) as Hrun by (by vm_compute).
  split_and!; [apply no_shuffle_permutes|exact Hlt|exact Hnd|exact Hrun|..];
    apply (bisect_reports_each_function_once unit (decider_of oracle_a9)
             no_shuffle 0 1 ["a"; "b"; "c"] 0 3 s_abc _ (Results ["a"] [])
             no_shuffle_permutes Hlt Hnd Hrun).
Defined.

Lemma wrapper_reports_common_functions_once_witness :
  shuffle_permutes unit no_shuffle ∧
  heap s_abc !! 0 = Some good_abc ∧ heap s_abc !! 1 = Some bad_abc ∧
  bisect_profiles_wrapper unit (decider_of oracle_a9) no_shuffle 0 1 true s_abc
    = (Ok (Results ["a"] []),
       (bisect_profiles_wrapper unit (decider_of oracle_a9) no_shuffle 0 1
          true s_abc).2) ∧
  NoDup (individuals (Results ["a"] []) ++ concat (ranges (Results ["a"] []))) ∧
  ∀ func,
    func ∈ individuals (Results ["a"] []) ++ concat (ranges (Results ["a"] [])) →
    is_Some (good_abc !! func) ∧ is_Some (bad_abc !! func).
Proof.
  assert (bisect_profiles_wrapper unit (decider_of oracle_a9) no_shuffle 0 1
            true s_abc
          = (Ok (Results ["a"] []),
             (bisect_profiles_wrapper unit (decider_of oracle_a9) no_shuffle
                0 1 true s_abc).2)) as Hrun by (by vm_compute).
  split_and!; [apply no_shuffle_permutes|reflexivity|reflexivity|exact Hrun|..];
    apply (wrapper_reports_common_functions_once unit (decider_of oracle_a9)
             no_shuffle 0 1 good_abc bad_abc true s_abc _ (Results ["a"] [])
             no_shuffle_permutes eq_refl eq_refl Hrun).
Defined.

Lemma wrapper_results_sorted_witness :
  bisect_profiles_wrapper unit (decider_of oracle_a9_b9) no_shuffle 0 1 true s_ab
    = (Ok (Results [] [["a"; "b"]]),
       (bisect_profiles_wrapper unit (decider_of oracle_a9_b9) no_shuffle
          0 1 true s_ab).2) ∧
  Sorted str_le (individuals (Results [] [["a"; "b"]])) ∧
  Forall (Sorted str_le) (ranges (Results [] [["a"; "b"]])) ∧
  Sorted list_le (ranges (Results [] [["a"; "b"]])) ∧
  sorted (individuals (Results [] [["a"; "b"]]))
    = individuals (Results [] [["a"; "b"]]) ∧
  Forall (λ r, sorted r = r) (ranges (Results [] [["a"; "b"]])) ∧
  sorted_lists (ranges (Results [] [["a"; "b"]]))
    = ranges (Results [] [["a"; "b"]]).
Proof.
  assert (bisect_profiles_wrapper unit (decider_of oracle_a9_b9) no_shuffle
            0 1 true s_ab
          = (Ok (Results [] [["a"; "b"]]),
             (bisect_profiles_wrapper unit (decider_of oracle_a9_b9) no_shuffle
                0 1 true s_ab).2)) as Hrun by (by vm_compute).
  split; [exact Hrun|].
  exact (wrapper_results_sorted unit (decider_of oracle_a9_b9) no_shuffle
           0 1 true s_ab _ _ Hrun).
Defined.

Lemma bad_abc_defines_abc :
  Forall (λ func, is_Some (bad_abc !! func)) (slice ["a"; "b"; "c"] 0 3).
Proof. apply (bool_decide_unpack _). by vm_compute. Qed.

Lemma bisect_asks_about_the_two_halves_witness :
  2 ≤ 3 - 0 ∧
  heap s_abc !! 0 = Some good_abc ∧ heap s_abc !! 1 = Some bad_abc ∧
  Forall (λ func, is_Some (bad_abc !! func)) (slice ["a"; "b"; "c"] 0 3) ∧
  (bisect_profiles unit (decider_of oracle_a9) no_shuffle 0 1
     ["a"; "b"; "c"] 0 3 s_abc).1 = Ok (Results ["a"] []).
Proof.
  assert (2 ≤ 3 - 0) as Hbig by (simpl; lia).
  split_and!; [exact Hbig|reflexivity|reflexivity|apply bad_abc_defines_abc|].
  rewrite (bisect_asks_about_the_two_halves unit (decider_of oracle_a9)
             no_shuffle 0 1 good_abc bad_abc ["a"; "b"; "c"] 0 3 s_abc
             Hbig eq_refl eq_refl bad_abc_defines_abc).
  by vm_compute.
Defined.

Lemma individuals_were_ruled_bad_witness :
  2 ≤ 3 - 0 ∧
  heap s_abc !! 0 = Some good_abc ∧ heap s_abc !! 1 = Some bad_abc ∧
  Forall (λ func, is_Some (bad_abc !! func)) (slice ["a"; "b"; "c"] 0 3) ∧
  bisect_profiles unit (decider_of oracle_a9) no_shuffle 0 1 ["a"; "b"; "c"] 0 3
    s_abc
    = (Ok (Results ["a"] []),
       (bisect_profiles unit (decider_of oracle_a9) no_shuffle 0 1
          ["a"; "b"; "c"] 0 3 s_abc).2) ∧
  ∃ t,
    trace (bisect_profiles unit (decider_of oracle_a9) no_shuffle 0 1
             ["a"; "b"; "c"] 0 3 s_abc).2 = trace s_abc ++ t ∧
    ∀ func, func ∈ individuals (Results ["a"] []) →
            Query (splice good_abc bad_abc [func]) true BAD_STATUS ∈ t.
Proof.
  assert (2 ≤ 3 - 0) as Hbig by (simpl; lia).
  assert (bisect_profiles unit (decider_of oracle_a9) no_shuffle 0 1
            ["a"; "b"; "c"] 0 3 s_abc
          = (Ok (Results ["a"] []),
             (bisect_profiles unit (decider_of oracle_a9) no_shuffle 0 1
                ["a"; "b"; "c"] 0 3 s_abc).2)) as Hrun by (by vm_compute).
  split_and!; [exact Hbig|reflexivity|reflexivity|apply bad_abc_defines_abc
              |exact Hrun|].
  exact (individuals_were_ruled_bad unit (decider_of oracle_a9) no_shuffle 0 1
           good_abc bad_abc ["a"; "b"; "c"] 0 3 s_abc _ (Results ["a"] [])
           Hbig eq_refl eq_refl bad_abc_defines_abc Hrun).
Defined.

Lemma bisect_profiles_returns_witness :
  shuffle_permutes unit no_shuffle ∧ 0 < 3 ∧ 3 ≤ length ["a"; "b"; "c"] ∧
  covers unit s_abc 0 1 ["a"; "b"; "c"] ∧
  ∃ res s',
    bisect_profiles unit (decider_of oracle_a9) no_shuffle 0 1 ["a"; "b"; "c"]
      0 3 s_abc = (Ok res, s').
Proof.
  assert (0 < 3) as Hlt by lia.
  assert (3 ≤ length ["a"; "b"; "c"]) as Hhi by (simpl; lia).
  split_and!; [apply no_shuffle_permutes|exact Hlt|exact Hhi|apply covers_abc|].
  exact (bisect_profiles_returns unit (decider_of oracle_a9) no_shuffle 0 1
           ["a"; "b"; "c"] 0 3 s_abc no_shuffle_permutes Hlt Hhi covers_abc).
Defined.

Lemma bad_ab_defines_ab :
  Forall (λ func, is_Some (bad_ab !! func)) (slice ["a"; "b"] 0 2).
Proof. apply (bool_decide_unpack _). by vm_compute. Qed.

Lemma ranges_come_from_good_halves_witness :
  shuffle_permutes unit no_shuffle ∧ 2 ≤ 2 - 0 ∧
  heap s_ab !! 0 = Some good_ab ∧ heap s_ab !! 1 = Some bad_ab ∧
  Forall (λ func, is_Some (bad_ab !! func)) (slice ["a"; "b"] 0 2) ∧
  bisect_profiles unit (decider_of oracle_a9_b9) no_shuffle 0 1 ["a"; "b"] 0 2
    s_ab
    = (Ok (Results [] [["a"; "b"]]),
       (bisect_profiles unit (decider_of oracle_a9_b9) no_shuffle 0 1
          ["a"; "b"] 0 2 s_ab).2) ∧
  ∃ t,
    trace (bisect_profiles unit (decider_of oracle_a9_b9) no_shuffle 0 1
             ["a"; "b"] 0 2 s_ab).2 = trace s_ab ++ t ∧
    ∀ r, r ∈ ranges (Results [] [["a"; "b"]]) →
      ∃ lo' hi',
        0 ≤ lo' ∧ hi' ≤ 2 ∧ 2 ≤ hi' - lo' ∧
        r ⊆ slice ["a"; "b"] lo' hi' ∧
        Query (splice good_ab bad_ab (slice ["a"; "b"] lo' ((lo' + hi') / 2)))
          true GOOD_STATUS ∈ t ∧
        Query (splice good_ab bad_ab (slice ["a"; "b"] ((lo' + hi') / 2) hi'))
          true GOOD_STATUS ∈ t.
Proof.
  assert (2 ≤ 2 - 0) as Hbig by (simpl; lia).
  assert (bisect_profiles unit (decider_of oracle_a9_b9) no_shuffle 0 1
            ["a"; "b"] 0 2 s_ab
          = (Ok (Results [] [["a"; "b"]]),
             (bisect_profiles unit (decider_of oracle_a9_b9) no_shuffle 0 1
                ["a"; "b"] 0 2 s_ab).2)) as Hrun by (by vm_compute).
  split_and!; [apply no_shuffle_permutes|exact Hbig|reflexivity|reflexivity
              |apply bad_ab_defines_ab|exact Hrun|].
  exact (ranges_come_from_good_halves unit (decider_of oracle_a9_b9) no_shuffle
           0 1 good_ab bad_ab ["a"; "b"] 0 2 s_ab _ (Results [] [["a"; "b"]])
           no_shuffle_permutes Hbig eq_refl eq_refl bad_ab_defines_ab Hrun).
Defined.

Lemma abcd_defined :
  Forall (λ func, is_Some (good_abcd !! func) ∧ is_Some (bad_abcd !! func))
    ["a"; "b"; "c"; "d"].
Proof. apply (bool_decide_unpack _). by vm_compute. Qed.

Lemma border_search_resets_candidate_witness :
  2 ≠ 0 ∧ 2 ≠ 1 ∧
  heap s_abcd !! 0 = Some good_abcd ∧ heap s_abcd !! 1 = Some bad_abcd ∧
  heap s_abcd !! 2 = Some good_abcd ∧
  Forall (λ func, is_Some (good_abcd !! func) ∧ is_Some (bad_abcd !! func))
    ["a"; "b"; "c"; "d"] ∧
  candidate_reset unit 2 good_abcd good_abcd ["a"; "b"; "c"; "d"] s_abcd
    (find_upper_border unit (decider_of oracle_a9_b9) 0 1 2
       ["a"; "b"; "c"; "d"] 0 4 None s_abcd).2 ∧
  candidate_reset unit 2 good_abcd bad_abcd ["a"; "b"; "c"; "d"] s_abcd
    (find_lower_border unit (decider_of oracle_a9_b9) 0 1 2
       ["a"; "b"; "c"; "d"] 0 4 None s_abcd).2.
Proof.
  assert (2 ≠ 0) as H20 by lia. assert (2 ≠ 1) as H21 by lia.
  split_and!; [exact H20|exact H21|reflexivity|reflexivity|reflexivity
              |apply abcd_defined|..];
    apply (border_search_resets_candidate unit (decider_of oracle_a9_b9)
             0 1 2 good_abcd bad_abcd good_abcd ["a"; "b"; "c"; "d"] 0 4 None
             s_abcd H20 H21 eq_refl eq_refl eq_refl abcd_defined).
Defined.
